(** * Content transformation pipeline of the Azure Key Vault provider

    A shallow embedding of [pkg/provider/provider.go]: the format and
    encoding checks, [getContentBytes], [validateFileName],
    [parsePrivateKey], [decodePKCS12] and [fetchCertChains], with the
    properties the design document states about them; and
    [GetKeyVaultObjectContent] with [getVaultURL], [initializeKvClient],
    [GetKeyvaultToken], [getCurve], [getObjectVersion] and [getObjectUID],
    and the loop of [MountSecretsStoreObjectContent], with properties read
    off the code.

    Conventions.
    - A Go [string] and a Go [[]byte] are both byte sequences; both are
      [string] here (a list of 8-bit [ascii]), and the conversions
      [[]byte(s)] and [string(b)] are the identity.
    - A Go [(T, error)] result is a [result T]; the [error] constructors
      name the places of the source that build the error.
    - Functions of Go's standard library and of third-party packages that
      the source calls are either modelled here ([strings.EqualFold]'s
      ASCII path, [strings.Split], [strings.Contains], [encoding/base64],
      [encoding/hex], [big.Int.SetBytes]) or taken as parameters of a
      [Section] (PKCS#12, X.509, PEM, the vault client). *)

From Stdlib Require Import ZArith NArith Ascii String List Bool Lia Permutation.
From stdpp Require Import base list gmap strings.

Local Open Scope Z_scope.

(** ** Results and errors *)

Inductive error : Type :=
| ErrInvalidObjectFormat      (* "invalid objectFormat: %v, should be PEM or PFX" *)
| ErrPFXOnlyForSecret         (* "PFX format only supported for objectType: secret" *)
| ErrEncodingOnlyForSecret    (* "objectEncoding only supported for objectType: secret" *)
| ErrInvalidObjectEncoding    (* "invalid objectEncoding: %v, should be hex, base64 or utf-8" *)
| ErrInvalidEncodingDecode    (* "invalid objectEncoding. Should be utf-8, base64, or hex" *)
| ErrBase64CorruptInput       (* base64.CorruptInputError *)
| ErrHexLength                (* hex.ErrLength *)
| ErrHexInvalidByte           (* hex.InvalidByteError *)
| ErrFileNameEmpty            (* "file name must not be empty" *)
| ErrFileNameAbsolute         (* "file name must be a relative path" *)
| ErrFileNameDotDot           (* "file name must not contain '..'" *)
| ErrParseKey                 (* "failed to parse key for type pkcs1, pkcs8 or ec" *)
| ErrCertificateNil           (* "certificate is nil" *)
| ErrNoLeafFound              (* "no leaf found" *)
| ErrCycle                    (* "constructing chain resulted in cycle" *)
| ErrLibrary (msg : string)   (* an error returned by a called package *)
| ErrWrapObjectType (e : error) (* wrapObjectTypeError *)
| ErrWrapWriteFile (e : error). (* "failed to write file %s at %s" *)

Inductive result (A : Type) : Type :=
| Ok (a : A)
| Err (e : error).
Arguments Ok {A} a.
Arguments Err {A} e.

Definition bind {A B : Type} (r : result A) (k : A -> result B) : result B :=
  match r with
  | Ok a => k a
  | Err e => Err e
  end.

Notation "'let?' x ':=' r 'in' k" := (bind r (fun x => k))
  (at level 10, x name, r at level 100, k at level 200, only parsing).

Definition isOk {A : Type} (r : result A) : bool :=
  match r with Ok _ => true | Err _ => false end.

(** ** Bytes *)

(** The value of a byte, and Go's [byte(x)] conversion of an unsigned
    integer (the low eight bits). *)
Definition byteZ (c : ascii) : Z := Z.of_N (N_of_ascii c).
Definition toByte (z : Z) : ascii := ascii_of_N (Z.to_N (Z.land z 255)).

(** ** Constants of the source *)

Definition VaultObjectTypeSecret : string := "secret".
Definition VaultObjectTypeKey : string := "key".
Definition VaultObjectTypeCertificate : string := "cert".
Definition certificateType : string := "CERTIFICATE".
Definition objectFormatPEM : string := "pem".
Definition objectFormatPFX : string := "pfx".
Definition objectEncodingHex : string := "hex".
Definition objectEncodingBase64 : string := "base64".
Definition objectEncodingUtf8 : string := "utf-8".

(** ** Package [strings] *)

Module strings.

Section EqualFold.
(** [strings.EqualFold] compares byte by byte as long as both bytes are
    ASCII: equal bytes, or an upper-case letter and its lower-case form.
    From the first position where either byte is [>= utf8.RuneSelf] it
    decodes runes and folds them with [unicode.SimpleFold]; that comparison
    of the two remaining suffixes is the parameter [foldRunes]. *)
Variable foldRunes : string -> string -> bool.

Fixpoint EqualFold (s t : string) : bool :=
  match s, t with
  | String sr s', String tr t' =>
      if 128 <=? Z.lor (byteZ sr) (byteZ tr) then foldRunes s t
      else if byteZ tr =? byteZ sr then EqualFold s' t'
      else
        (* make sr < tr; both ASCII: sr/tr must be upper/lower case *)
        let lo := Z.min (byteZ sr) (byteZ tr) in
        let hi := Z.max (byteZ sr) (byteZ tr) in
        if (65 <=? lo) && (lo <=? 90) && (hi =? lo + 32)
        then EqualFold s' t'
        else false
  | EmptyString, EmptyString => true
  | _, _ => false
  end.
End EqualFold.

(** [strings.HasPrefix]. *)
Fixpoint HasPrefix (s prefix : string) : bool :=
  match prefix, s with
  | EmptyString, _ => true
  | String p prefix', String c s' => Ascii.eqb c p && HasPrefix s' prefix'
  | String _ _, EmptyString => false
  end.

(** [strings.Contains]: [substr] occurs in [s] at some offset. *)
Fixpoint Contains (s substr : string) : bool :=
  HasPrefix s substr ||
  match s with
  | EmptyString => false
  | String _ s' => Contains s' substr
  end.

(** [strings.Split(s, sep)] for a one-byte separator: the substrings
    between the occurrences of [sep]; one element more than there are
    separators. *)
Fixpoint Split (s : string) (sep : ascii) : list string :=
  match s with
  | EmptyString => [EmptyString]
  | String c s' =>
      if Ascii.eqb c sep then EmptyString :: Split s' sep
      else match Split s' sep with
           | [] => [String c EmptyString]
           | item :: items => String c item :: items
           end
  end.

End strings.

(** ** Package [encoding/base64], [StdEncoding] *)

Module base64.

(** [encodeStd], the alphabet of the standard encoding. *)
Definition encodeStd : string :=
  "ABCDEFGHIJKLMNOPQRSTUVWXYZabcdefghijklmnopqrstuvwxyz0123456789+/".

Definition StdPadding : ascii := "="%char.

(** [enc.encode[i]]. *)
Definition encode (i : Z) : ascii :=
  match String.get (Z.to_nat i) encodeStd with
  | Some c => c
  | None => zero
  end.

Fixpoint index (c : ascii) (alphabet : string) (i : Z) : Z :=
  match alphabet with
  | EmptyString => 255
  | String a alphabet' => if Ascii.eqb a c then i else index c alphabet' (i + 1)
  end.

(** [enc.decodeMap[c]]: the position of [c] in the alphabet, [0xff] for a
    byte outside it. *)
Definition decodeMap (c : ascii) : Z := index c encodeStd 0.

(** [Encoding.Encode] (and [EncodeToString]): three bytes give four
    characters; a rest of one or two bytes is padded. *)
Fixpoint EncodeToString (src : string) : string :=
  match src with
  | EmptyString => EmptyString
  | String s0 EmptyString =>
      let val := Z.shiftl (byteZ s0) 16 in
      String (encode (Z.land (Z.shiftr val 18) 63))
     (String (encode (Z.land (Z.shiftr val 12) 63))
     (String StdPadding (String StdPadding EmptyString)))
  | String s0 (String s1 EmptyString) =>
      let val := Z.lor (Z.shiftl (byteZ s0) 16) (Z.shiftl (byteZ s1) 8) in
      String (encode (Z.land (Z.shiftr val 18) 63))
     (String (encode (Z.land (Z.shiftr val 12) 63))
     (String (encode (Z.land (Z.shiftr val 6) 63))
     (String StdPadding EmptyString)))
  | String s0 (String s1 (String s2 rest)) =>
      let val := Z.lor (Z.lor (Z.shiftl (byteZ s0) 16) (Z.shiftl (byteZ s1) 8))
                       (byteZ s2) in
      String (encode (Z.land (Z.shiftr val 18) 63))
     (String (encode (Z.land (Z.shiftr val 12) 63))
     (String (encode (Z.land (Z.shiftr val 6) 63))
     (String (encode (Z.land val 63)) (EncodeToString rest))))
  end.

Definition isNewline (c : ascii) : bool :=
  Ascii.eqb c "010"%char || Ascii.eqb c "013"%char.

(** The loops of [decodeQuantum] that skip over newlines. *)
Fixpoint skipNewlines (src : string) : string :=
  match src with
  | String c rest => if isNewline c then skipNewlines rest else src
  | EmptyString => EmptyString
  end.

(** The value that [decodeQuantum] assembles from the sextets read so far
    (the missing ones are zero). *)
Definition quantum (dbuf : list Z) : Z :=
  Z.lor (Z.lor (Z.lor (Z.shiftl (nth 0 dbuf 0) 18) (Z.shiftl (nth 1 dbuf 0) 12))
               (Z.shiftl (nth 2 dbuf 0) 6))
        (nth 3 dbuf 0).

(** The first [n] of the three bytes of a quantum. *)
Definition quantumBytes (dbuf : list Z) (n : nat) : string :=
  let val := quantum dbuf in
  string_of_list_ascii
    (firstn n [toByte (Z.shiftr val 16); toByte (Z.shiftr val 8); toByte val]).

(** [Encoding.Decode] (and [DecodeString]) as repeated [decodeQuantum], read
    one input byte at a time; [dbuf] holds the sextets of the quantum being
    read.  Newlines are skipped everywhere; padding ends the input; input
    that ends inside a quantum, or continues after the padding, is corrupt.
    The encoding is not strict: the unused bits of a padded quantum are not
    checked. *)
Fixpoint decode (src : string) (dbuf : list Z) : result string :=
  match src with
  | EmptyString =>
      match dbuf with
      | [] => Ok EmptyString
      | _ => Err ErrBase64CorruptInput
      end
  | String c rest =>
      let out := decodeMap c in
      if negb (out =? 255) then
        let dbuf' := dbuf ++ [out] in
        if (length dbuf' =? 4)%nat then
          let? tail := decode rest [] in
          Ok (quantumBytes dbuf' 3 +:+ tail)
        else decode rest dbuf'
      else if isNewline c then decode rest dbuf
      else if negb (Ascii.eqb c StdPadding) then Err ErrBase64CorruptInput
      else
        match length dbuf with
        | 0%nat | 1%nat => Err ErrBase64CorruptInput
        | 2%nat =>
            match skipNewlines rest with
            | EmptyString => Err ErrBase64CorruptInput
            | String c2 rest2 =>
                if negb (Ascii.eqb c2 StdPadding) then Err ErrBase64CorruptInput
                else match skipNewlines rest2 with
                     | EmptyString => Ok (quantumBytes dbuf 1)
                     | String _ _ => Err ErrBase64CorruptInput
                     end
            end
        | _ =>
            match skipNewlines rest with
            | EmptyString => Ok (quantumBytes dbuf 2)
            | String _ _ => Err ErrBase64CorruptInput
            end
        end
  end.

Definition DecodeString (s : string) : result string := decode s [].

End base64.

(** ** Package [encoding/hex] *)

Module hex.

Definition hextable : string := "0123456789abcdef".

Definition hexdigit (i : Z) : ascii :=
  match String.get (Z.to_nat i) hextable with
  | Some c => c
  | None => zero
  end.

(** [hex.EncodeToString]: two lower-case digits per byte. *)
Fixpoint EncodeToString (src : string) : string :=
  match src with
  | EmptyString => EmptyString
  | String v rest =>
      String (hexdigit (Z.shiftr (byteZ v) 4))
     (String (hexdigit (Z.land (byteZ v) 15)) (EncodeToString rest))
  end.

(** [fromHexChar]: the value of a hexadecimal digit of either case. *)
Definition fromHexChar (c : ascii) : option Z :=
  let v := byteZ c in
  if (48 <=? v) && (v <=? 57) then Some (v - 48)
  else if (97 <=? v) && (v <=? 102) then Some (v - 97 + 10)
  else if (65 <=? v) && (v <=? 70) then Some (v - 65 + 10)
  else None.

(** [hex.Decode] (and [DecodeString]): pairs of digits; an invalid digit is
    reported where it is met, an odd length once the pairs before the last
    byte were read. *)
Fixpoint DecodeString (src : string) : result string :=
  match src with
  | EmptyString => Ok EmptyString
  | String p EmptyString =>
      match fromHexChar p with
      | None => Err ErrHexInvalidByte
      | Some _ => Err ErrHexLength
      end
  | String p (String q rest) =>
      match fromHexChar p with
      | None => Err ErrHexInvalidByte
      | Some a =>
          match fromHexChar q with
          | None => Err ErrHexInvalidByte
          | Some b =>
              let? tail := DecodeString rest in
              Ok (String (toByte (Z.lor (Z.shiftl a 4) b)) tail)
          end
      end
  end.

End hex.

(** ** Package [path/filepath]

    The separator and [IsAbs] depend on the operating system the provider is
    built for; they are parameters.  [ToSlash] is the library's definition. *)

Module filepath.

Section ToSlash.
Variable Separator : ascii.

Fixpoint replaceSeparator (path : string) : string :=
  match path with
  | EmptyString => EmptyString
  | String c path' =>
      String (if Ascii.eqb c Separator then "/"%char else c)
             (replaceSeparator path')
  end.

(** [if Separator == '/' { return path }]
    [return strings.ReplaceAll(path, string(Separator), "/")] *)
Definition ToSlash (path : string) : string :=
  if Ascii.eqb Separator "/"%char then path else replaceSeparator path.
End ToSlash.

End filepath.

(** ** Package [provider]: the encoding normalizer and the file-name check *)

Section Normalizer.
Variable foldRunes : string -> string -> bool.
Local Abbreviation EqualFold := (strings.EqualFold foldRunes).

(** [validateObjectFormat] checks if the object format is valid and is
    supported for the given object type. *)
Definition validateObjectFormat (objectFormat objectType : string)
  : result unit :=
  if (String.length objectFormat =? 0)%nat then Ok tt
  else if negb (EqualFold objectFormat objectFormatPEM)
          && negb (EqualFold objectFormat objectFormatPFX)
  then Err ErrInvalidObjectFormat
  else if String.eqb objectFormat objectFormatPFX
          && negb (String.eqb objectType VaultObjectTypeSecret)
  then Err ErrPFXOnlyForSecret
  else Ok tt.

(** [validateObjectEncoding] checks if the object encoding is valid and is
    supported for the given object type. *)
Definition validateObjectEncoding (objectEncoding objectType : string)
  : result unit :=
  if (String.length objectEncoding =? 0)%nat then Ok tt
  else if negb (String.eqb objectType VaultObjectTypeSecret)
  then Err ErrEncodingOnlyForSecret
  else if negb (EqualFold objectEncoding objectEncodingHex)
          && negb (EqualFold objectEncoding objectEncodingBase64)
          && negb (EqualFold objectEncoding objectEncodingUtf8)
  then Err ErrInvalidObjectEncoding
  else Ok tt.

(** [getContentBytes] takes the given content string and returns the bytes
    to write to disk; if an encoding is specified it decodes the string
    first. *)
Definition getContentBytes (content objectType objectEncoding : string)
  : result string :=
  if negb (EqualFold objectType VaultObjectTypeSecret)
     || (String.length objectEncoding =? 0)%nat
     || EqualFold objectEncoding objectEncodingUtf8
  then Ok content
  else if EqualFold objectEncoding objectEncodingBase64
  then base64.DecodeString content
  else if EqualFold objectEncoding objectEncodingHex
  then hex.DecodeString content
  else Err ErrInvalidEncodingDecode.
End Normalizer.

Section FileName.
Variable Separator : ascii.
Variable IsAbs : string -> bool.

(** The loop of [validateFileName] over the elements of the path. *)
Fixpoint hasDotDotElement (parts : list string) : bool :=
  match parts with
  | [] => false
  | item :: parts' => if String.eqb item ".." then true else hasDotDotElement parts'
  end.

(** [validateFileName] makes sure the file name is not empty, is not an
    absolute path, and has no [..] element (nor any [..] at all). *)
Definition validateFileName (fileName : string) : result unit :=
  if (String.length fileName =? 0)%nat then Err ErrFileNameEmpty
  else if IsAbs fileName then Err ErrFileNameAbsolute
  else if hasDotDotElement
            (strings.Split (filepath.ToSlash Separator fileName) "/"%char)
  then Err ErrFileNameDotDot
  else if strings.Contains fileName ".." then Err ErrFileNameDotDot
  else Ok tt.
End FileName.

(** [wrapObjectTypeError]. *)
Definition wrapObjectTypeError {A : Type} (r : result A) : result A :=
  match r with
  | Ok a => Ok a
  | Err e => Err (ErrWrapObjectType e)
  end.

(** [getObjectUID] returns the UID [<object type>/<object name>]. *)
Definition getObjectUID (objectName objectType : string) : string :=
  objectType +:+ "/" +:+ objectName.

(** ** Private keys *)

Section PrivateKey.
(** The three parsers of [crypto/x509]; each yields a key of its own Go
    type, which [parsePrivateKey] returns as an [interface{}]. *)
Variables rsaPrivateKey anyPrivateKey ecdsaPrivateKey : Type.
Variable x509_ParsePKCS1PrivateKey : string -> option rsaPrivateKey.
Variable x509_ParsePKCS8PrivateKey : string -> option anyPrivateKey.
Variable x509_ParseECPrivateKey : string -> option ecdsaPrivateKey.

Inductive privateKey : Type :=
| KeyPKCS1 (key : rsaPrivateKey)
| KeyPKCS8 (key : anyPrivateKey)
| KeyEC (key : ecdsaPrivateKey).

Definition parsePrivateKey (block : string) : result privateKey :=
  match x509_ParsePKCS1PrivateKey block with
  | Some key => Ok (KeyPKCS1 key)
  | None =>
      match x509_ParsePKCS8PrivateKey block with
      | Some key => Ok (KeyPKCS8 key)
      | None =>
          match x509_ParseECPrivateKey block with
          | Some key => Ok (KeyEC key)
          | None => Err ErrParseKey
          end
      end
  end.
End PrivateKey.

Arguments KeyPKCS1 {_ _ _} key.
Arguments KeyPKCS8 {_ _ _} key.
Arguments KeyEC {_ _ _} key.
Arguments parsePrivateKey {_ _ _} _ _ _ block.

(** ** The chain assembler *)

(** The fields of an [x509.Certificate] that [fetchCertChains] reads. *)
Record Certificate : Type := {
  Raw : string;
  SubjectKeyId : string;
  AuthorityKeyId : string
}.

(** [type node struct].  The nodes are allocated once each and kept in the
    slice [nodes]; a [*node] is the index of the node in that slice, so that
    an update of [nodes[j]] is seen through every [parent] that points to
    it. *)
Record node : Type := {
  cert : Certificate;
  parent : option nat;
  isParent : bool
}.

Definition setParent (p : nat) (n : node) : node :=
  {| cert := cert n; parent := Some p; isParent := isParent n |}.

Definition setIsParent (n : node) : node :=
  {| cert := cert n; parent := parent n; isParent := true |}.

(** [nodes[j].isParent = true; nodes[i].parent = nodes[j]] *)
Definition link (i j : nat) (nodes : list node) : list node :=
  alter (setParent j) i (alter setIsParent j nodes).

(** The inner loop [for j := range nodes] for a given [i]; [js] are the
    indices still to visit.  It ends at the first match. *)
Fixpoint findParent (i : nat) (js : list nat) (nodes : list node) : list node :=
  match js with
  | [] => nodes
  | j :: js' =>
      if (i =? j)%nat then findParent i js' nodes
      else
        match nodes !! i, nodes !! j with
        | Some ni, Some nj =>
            if String.eqb (AuthorityKeyId (cert ni)) (SubjectKeyId (cert nj))
            then link i j nodes
            else findParent i js' nodes
        | _, _ => findParent i js' nodes
        end
  end.

(** The outer loop [for i := range nodes]. *)
Fixpoint linkFrom (idxs : list nat) (n : nat) (nodes : list node) : list node :=
  match idxs with
  | [] => nodes
  | i :: idxs' => linkFrom idxs' n (findParent i (seq 0 n) nodes)
  end.

Definition linkNodes (nodes : list node) : list node :=
  linkFrom (seq 0 (length nodes)) (length nodes) nodes.

(** The scan for the leaf: the first node that is nobody's parent. *)
Fixpoint findLeaf (idxs : list nat) (nodes : list node) : option nat :=
  match idxs with
  | [] => None
  | i :: idxs' =>
      match nodes !! i with
      | Some ni => if negb (isParent ni) then Some i else findLeaf idxs' nodes
      | None => findLeaf idxs' nodes
      end
  end.

(** The loop [for leaf != nil].  [fuel] bounds the number of iterations of
    the model; [None] is a run that needs more, or that follows a [parent]
    outside [nodes] (neither happens, see [assembleChain_total]). *)
Fixpoint walk (fuel : nat) (nodes : list node) (leaf : option nat)
  (processedNodes : nat) (newCertChain : list Certificate)
  : option (result (list Certificate)) :=
  match leaf with
  | None => Some (Ok newCertChain)
  | Some l =>
      match fuel with
      | O => None
      | S fuel' =>
          let processedNodes := S processedNodes in
          if (length nodes <? processedNodes)%nat then Some (Err ErrCycle)
          else
            match nodes !! l with
            | None => None
            | Some nl =>
                walk fuel' nodes (parent nl) processedNodes
                     (newCertChain ++ [cert nl])
            end
      end
  end.

Definition newNode (c : Certificate) : node :=
  {| cert := c; parent := None; isParent := false |}.

(** [fetchCertChains] from the parsed certificates on: link the nodes, find
    the leaf, walk the parents. *)
Definition assembleChain (certs : list Certificate)
  : option (result (list Certificate)) :=
  let nodes := linkNodes (map newNode certs) in
  match findLeaf (seq 0 (length nodes)) nodes with
  | None => Some (Err ErrNoLeafFound)
  | Some leaf => walk (S (length nodes)) nodes (Some leaf) 0 []
  end.

(** [pem.Block]. *)
Record Block : Type := {
  Type' : string;
  Headers : gmap string string;
  Bytes : string
}.

Section fetchCertChains.
(** [pem.Decode]: the next block of the input and the rest of the input, or
    [None] for a [nil] block; [x509.ParseCertificate], whose certificate may
    be [nil] as far as its type goes; [pem.EncodeToMemory]. *)
Variable pem_Decode : string -> option (Block * string).
Variable x509_ParseCertificate : string -> result (option Certificate).
Variable pem_EncodeToMemory : Block -> string.

(** The first loop of [fetchCertChains]: decode and parse until no block is
    left.  [None]: the model ran out of [fuel]. *)
Fixpoint parseNodes (fuel : nat) (data : string) (certs : list Certificate)
  : option (result (list Certificate)) :=
  match fuel with
  | O => None
  | S fuel' =>
      match pem_Decode data with
      | None => Some (Ok certs)
      | Some (block, rest) =>
          match x509_ParseCertificate (Bytes block) with
          | Err e => Some (Err e)
          | Ok None => Some (Err ErrCertificateNil)
          | Ok (Some c) => parseNodes fuel' rest (certs ++ [c])
          end
      end
  end.

(** The block that the last loop builds for a certificate of the chain. *)
Definition certBlock (c : Certificate) : Block :=
  {| Type' := certificateType; Headers := ∅; Bytes := Raw c |}.

Fixpoint encodeChain (newCertChain : list Certificate) (pemData : string)
  : string :=
  match newCertChain with
  | [] => pemData
  | c :: rest => encodeChain rest (pemData +:+ pem_EncodeToMemory (certBlock c))
  end.

Definition fetchCertChains (data : string) : option (result string) :=
  match parseNodes (S (String.length data)) data [] with
  | None => None
  | Some (Err e) => Some (Err e)
  | Some (Ok certs) =>
      match assembleChain certs with
      | None => None
      | Some (Err e) => Some (Err e)
      | Some (Ok newCertChain) => Some (Ok (encodeChain newCertChain EmptyString))
      end
  end.
End fetchCertChains.

(** ** The container extractor *)

Definition clearHeaders (b : Block) : Block :=
  {| Type' := Type' b; Headers := ∅; Bytes := Bytes b |}.

Definition setBytes (der : string) (b : Block) : Block :=
  {| Type' := Type' b; Headers := Headers b; Bytes := der |}.

Section decodePKCS12.
Variables rsaPrivateKey anyPrivateKey ecdsaPrivateKey : Type.
Variable x509_ParsePKCS1PrivateKey : string -> option rsaPrivateKey.
Variable x509_ParsePKCS8PrivateKey : string -> option anyPrivateKey.
Variable x509_ParseECPrivateKey : string -> option ecdsaPrivateKey.
Variable x509_MarshalPKCS8PrivateKey :
  privateKey rsaPrivateKey anyPrivateKey ecdsaPrivateKey -> result string.
(** [pkcs12.ToPEM(pfxData, password)]. *)
Variable pkcs12_ToPEM : string -> string -> result (list Block).
Variable pem_Decode : string -> option (Block * string).
Variable x509_ParseCertificate : string -> result (option Certificate).
Variable pem_EncodeToMemory : Block -> string.
(** The flag [construct-pem-chain]. *)
Variable ConstructPEMChain : bool.

(** The loop [for _, block := range pemBlock], with its two buffers. *)
Fixpoint splitBlocks (pemBlock : list Block) (pemKeyData pemCertData : string)
  : result (string * string) :=
  match pemBlock with
  | [] => Ok (pemKeyData, pemCertData)
  | block :: rest =>
      let block := clearHeaders block in
      if String.eqb (Type' block) certificateType then
        splitBlocks rest pemKeyData (pemCertData +:+ pem_EncodeToMemory block)
      else
        let? key := parsePrivateKey x509_ParsePKCS1PrivateKey
                      x509_ParsePKCS8PrivateKey x509_ParseECPrivateKey
                      (Bytes block) in
        let? der := x509_MarshalPKCS8PrivateKey key in
        let block := setBytes der block in
        splitBlocks rest (pemKeyData +:+ pem_EncodeToMemory block) pemCertData
  end.

(** [decodePKCS12] decodes PKCS#12 client certificates by extracting the
    public certificates and the private keys, and converts them to PEM. *)
Definition decodePKCS12 (value : string) : option (result string) :=
  match base64.DecodeString value with
  | Err e => Some (Err e)
  | Ok pfxRaw =>
      match pkcs12_ToPEM pfxRaw EmptyString with
      | Err e => Some (Err e)
      | Ok pemBlock =>
          match splitBlocks pemBlock EmptyString EmptyString with
          | Err e => Some (Err e)
          | Ok (pemKeyData, pemCertData) =>
              if ConstructPEMChain then
                match fetchCertChains pem_Decode x509_ParseCertificate
                        pem_EncodeToMemory pemCertData with
                | None => None
                | Some (Err e) => Some (Err e)
                | Some (Ok chain) => Some (Ok (pemKeyData +:+ chain))
                end
              else Some (Ok (pemKeyData +:+ pemCertData))
          end
      end
  end.
End decodePKCS12.

Arguments splitBlocks {_ _ _} _ _ _ _ _ pemBlock pemKeyData pemCertData.
Arguments decodePKCS12 {_ _ _} _ _ _ _ _ _ _ _ ConstructPEMChain value.

(** ** The mount loop *)

(** [KeyVaultObject] holds keyvault object related config. *)
Record KeyVaultObject : Type := {
  ObjectName : string;
  ObjectAlias : string;
  ObjectVersion : string;
  ObjectType : string;
  ObjectFormat : string;
  ObjectEncoding : string
}.

(** What the loop of [MountSecretsStoreObjectContent] builds: the two maps it
    returns, and the files it has written (path and content, latest
    first). *)
Record mountState : Type := {
  files : gmap string string;
  objectVersionMap : gmap string string;
  written : list (string * string)
}.

Section Mount.
Variable foldRunes : string -> string -> bool.
Variable Separator : ascii.
Variable IsAbs : string -> bool.
Variable filepath_Join : string -> string -> string.
(** [p.GetKeyVaultObjectContent]: content and version of the object. *)
Variable GetKeyVaultObjectContent : KeyVaultObject -> result (string * string).
(** [os.WriteFile(name, data, perm)]. *)
Variable os_WriteFile : string -> string -> result unit.
(** The flag [driver-write-secrets]. *)
Variable DriverWriteSecrets : bool.
Variable targetPath : string.

Definition fileNameOf (keyVaultObject : KeyVaultObject) : string :=
  if negb (String.eqb (ObjectAlias keyVaultObject) EmptyString)
  then ObjectAlias keyVaultObject
  else ObjectName keyVaultObject.

(** One iteration of [for _, keyVaultObject := range keyVaultObjects]. *)
Definition mountObject (keyVaultObject : KeyVaultObject) (st : mountState)
  : result mountState :=
  let? _f := wrapObjectTypeError
               (validateObjectFormat foldRunes (ObjectFormat keyVaultObject)
                  (ObjectType keyVaultObject)) in
  let? _e := wrapObjectTypeError
               (validateObjectEncoding foldRunes (ObjectEncoding keyVaultObject)
                  (ObjectType keyVaultObject)) in
  let fileName := fileNameOf keyVaultObject in
  let? _n := wrapObjectTypeError (validateFileName Separator IsAbs fileName) in
  let? fetched := GetKeyVaultObjectContent keyVaultObject in
  let content := fst fetched in
  let newObjectVersion := snd fetched in
  let objectUID := getObjectUID (ObjectName keyVaultObject)
                     (ObjectType keyVaultObject) in
  let versions := <[objectUID := newObjectVersion]> (objectVersionMap st) in
  let? objectContent := getContentBytes foldRunes content
                          (ObjectType keyVaultObject)
                          (ObjectEncoding keyVaultObject) in
  if negb DriverWriteSecrets then
    match os_WriteFile (filepath_Join targetPath fileName) objectContent with
    | Err e => Err (ErrWrapWriteFile e)
    | Ok _ =>
        Ok {| files := files st; objectVersionMap := versions;
              written := (filepath_Join targetPath fileName, objectContent)
                           :: written st |}
    end
  else
    Ok {| files := <[fileName := objectContent]> (files st);
          objectVersionMap := versions; written := written st |}.

Fixpoint mountObjects (keyVaultObjects : list KeyVaultObject) (st : mountState)
  : result mountState :=
  match keyVaultObjects with
  | [] => Ok st
  | keyVaultObject :: rest =>
      let? st' := mountObject keyVaultObject st in
      mountObjects rest st'
  end.
End Mount.

(** ** Vocabulary of the properties *)

(** [path nodes leaf idxs]: starting at [leaf] and following [parent],
    the nodes met are those at [idxs], and the last one has no parent. *)
Inductive path (nodes : list node) : option nat -> list nat -> Prop :=
| path_end : path nodes None []
| path_step (l : nat) (nl : node) (idxs : list nat) :
    nodes !! l = Some nl ->
    path nodes (parent nl) idxs ->
    path nodes (Some l) (l :: idxs).

(** Every [parent] points into [nodes]. *)
Definition parentsInRange (n : nat) (nodes : list node) : Prop :=
  Forall (fun nd => forall p, parent nd = Some p -> (p < n)%nat) nodes.

(** The blocks of type "CERTIFICATE", as the loop of [decodePKCS12] tells
    them from the private keys. *)
Definition isCertificate (b : Block) : bool :=
  String.eqb (Type' b) certificateType.

(** The PEM text of a sequence of blocks. *)
Fixpoint encodeBlocks (pem_EncodeToMemory : Block -> string)
  (blocks : list Block) : string :=
  match blocks with
  | [] => EmptyString
  | b :: blocks' => pem_EncodeToMemory b +:+ encodeBlocks pem_EncodeToMemory blocks'
  end.

(** [emittedKey ... b kb]: [kb] is the block that the loop of
    [decodePKCS12] emits for the private key block [b]: same type, no
    headers, the key of [b] marshalled as PKCS#8. *)
Definition emittedKey {rsaPrivateKey anyPrivateKey ecdsaPrivateKey : Type}
  (ParsePKCS1 : string -> option rsaPrivateKey)
  (ParsePKCS8 : string -> option anyPrivateKey)
  (ParseEC : string -> option ecdsaPrivateKey)
  (MarshalPKCS8 :
     privateKey rsaPrivateKey anyPrivateKey ecdsaPrivateKey -> result string)
  (b kb : Block) : Prop :=
  exists key der,
    parsePrivateKey ParsePKCS1 ParsePKCS8 ParseEC (Bytes b) = Ok key /\
    MarshalPKCS8 key = Ok der /\
    kb = {| Type' := Type' b; Headers := ∅; Bytes := der |}.

(** ** Example inputs *)

Module Examples.

Definition mkCert (der ski aki : string) : Certificate :=
  {| Raw := der; SubjectKeyId := ski; AuthorityKeyId := aki |}.

(** A leaf, its intermediate and the self-signed root. *)
Definition leaf : Certificate := mkCert "der-leaf" "ski-leaf" "ski-intermediate".
Definition intermediate : Certificate :=
  mkCert "der-intermediate" "ski-intermediate" "ski-root".
Definition root : Certificate := mkCert "der-root" "ski-root" "ski-root".

(** Two certificates that name each other as issuer. *)
Definition crossP : Certificate := mkCert "der-p" "ski-p" "ski-q".
Definition crossQ : Certificate := mkCert "der-q" "ski-q" "ski-p".

(** A leaf that hangs on such a pair. *)
Definition crossLeaf : Certificate := mkCert "der-l" "ski-l" "ski-p".

(** Two certificates with no relation to each other. *)
Definition loneX : Certificate := mkCert "der-x" "ski-x" "ski-ca-x".
Definition loneY : Certificate := mkCert "der-y" "ski-y" "ski-ca-y".

(** A self-signed certificate, and another certificate with the same subject
    key identifier. *)
Definition twin : Certificate := mkCert "der-twin" "ski-twin" "ski-twin".
Definition rekeyed : Certificate := mkCert "der-rekeyed" "ski-twin" "ski-other".

End Examples.

(** ** A PKCS#12 container with a key and two unrelated certificates

    What the called packages return on one container: [pkcs12.ToPEM] yields
    the key and the two certificates [Examples.loneX] and [Examples.loneY];
    [pem.EncodeToMemory] is the PEM text of a block without headers;
    [pem.Decode] and [x509.ParseCertificate] are tabulated on the texts and
    the DER strings that occur. *)

Module Container.
Import Examples.

(** Lines of 64 characters, as [pem.Encode]'s line breaker writes them;
    [col] is the number of characters on the current line. *)
Fixpoint breakLines (body : string) (col : nat) : string :=
  match body with
  | EmptyString => if (col =? 0)%nat then EmptyString else String "010"%char EmptyString
  | String c body' =>
      if (col =? 64)%nat then String "010"%char (String c (breakLines body' 1))
      else String c (breakLines body' (S col))
  end.

Definition EncodeToMemory (b : Block) : string :=
  "-----BEGIN " +:+ Type' b +:+ "-----" +:+ String "010"%char EmptyString
  +:+ breakLines (base64.EncodeToString (Bytes b)) 0
  +:+ "-----END " +:+ Type' b +:+ "-----" +:+ String "010"%char EmptyString.

Definition keyBlock : Block :=
  {| Type' := "PRIVATE KEY"; Headers := {[ "friendlyName" := "tls" ]};
     Bytes := "der-pkcs1-key" |}.
Definition blockX : Block :=
  {| Type' := certificateType; Headers := {[ "localKeyId" := "01" ]};
     Bytes := Raw loneX |}.
Definition blockY : Block :=
  {| Type' := certificateType; Headers := ∅; Bytes := Raw loneY |}.

Definition pfxRaw : string := "pkcs12-container".

Definition ToPEM (pfxData password : string) : result (list Block) :=
  if String.eqb pfxData pfxRaw && String.eqb password EmptyString
  then Ok [keyBlock; blockX; blockY]
  else Err (ErrLibrary "pkcs12: decoding error").

Definition ParsePKCS1PrivateKey (der : string) : option string :=
  if String.eqb der "der-pkcs1-key" then Some "rsa-key" else None.
Definition ParsePKCS8PrivateKey (der : string) : option string := None.
Definition ParseECPrivateKey (der : string) : option string := None.

Definition MarshalPKCS8PrivateKey (key : privateKey string string string)
  : result string :=
  match key with
  | KeyPKCS1 k | KeyPKCS8 k | KeyEC k => Ok ("der-pkcs8-" +:+ k)
  end.

Definition Decode (data : string) : option (Block * string) :=
  let x := EncodeToMemory (certBlock loneX) in
  let y := EncodeToMemory (certBlock loneY) in
  if String.eqb data (x +:+ y) then Some (certBlock loneX, y)
  else if String.eqb data y then Some (certBlock loneY, EmptyString)
  else None.

Definition ParseCertificate (der : string) : result (option Certificate) :=
  if String.eqb der (Raw loneX) then Ok (Some loneX)
  else if String.eqb der (Raw loneY) then Ok (Some loneY)
  else Err (ErrLibrary "x509: malformed certificate").

(** [decodePKCS12] on these packages, with the flag as given. *)
Definition decode (ConstructPEMChain : bool) (value : string)
  : option (result string) :=
  decodePKCS12 ParsePKCS1PrivateKey ParsePKCS8PrivateKey ParseECPrivateKey
    MarshalPKCS8PrivateKey ToPEM Decode ParseCertificate EncodeToMemory
    ConstructPEMChain value.

(** The secret value of the container. *)
Definition value : string := base64.EncodeToString pfxRaw.

(** The key block as the loop emits it. *)
Definition pkcs8Block : Block :=
  {| Type' := "PRIVATE KEY"; Headers := ∅; Bytes := "der-pkcs8-rsa-key" |}.

End Container.

(** ** Vocabulary of the chain properties *)

(** [issuer certs i j]: the certificate at position [j] is the issuer that
    the linking loops record for the one at position [i]: the first position
    other than [i] whose subject key identifier is the authority key
    identifier of [i]. *)
Definition issuer (certs : list Certificate) (i j : nat) : Prop :=
  i <> j /\
  exists ci cj,
    certs !! i = Some ci /\ certs !! j = Some cj /\
    AuthorityKeyId ci = SubjectKeyId cj /\
    forall j' cj', (j' < j)%nat -> j' <> i -> certs !! j' = Some cj' ->
                   SubjectKeyId cj' <> AuthorityKeyId ci.

(** [rootAt certs i]: position [i] holds a certificate, and no other
    position holds one whose subject key identifier is its authority key
    identifier. *)
Definition rootAt (certs : list Certificate) (i : nat) : Prop :=
  exists ci, certs !! i = Some ci /\
    forall j cj, j <> i -> certs !! j = Some cj ->
                 SubjectKeyId cj <> AuthorityKeyId ci.

(** [leafAt certs l]: position [l] is the first that holds a certificate
    which is the issuer of no certificate of the input. *)
Definition leafAt (certs : list Certificate) (l : nat) : Prop :=
  (l < length certs)%nat /\
  (forall i, ~ issuer certs i l) /\
  forall l', (l' < l)%nat -> exists i, issuer certs i l'.

(** [issuerPath certs idxs]: each position of [idxs] is followed by the
    position of its issuer, and the last one is a root. *)
Inductive issuerPath (certs : list Certificate) : list nat -> Prop :=
| issuerPath_root (i : nat) : rootAt certs i -> issuerPath certs [i]
| issuerPath_step (i j : nat) (rest : list nat) :
    issuer certs i j ->
    issuerPath certs (j :: rest) ->
    issuerPath certs (i :: j :: rest).

(** The search of the inner loop, on the certificates alone. *)
Fixpoint firstIssuer (certs : list Certificate) (i : nat) (js : list nat)
  : option nat :=
  match js with
  | [] => None
  | j :: js' =>
      if (i =? j)%nat then firstIssuer certs i js'
      else
        match certs !! i, certs !! j with
        | Some ci, Some cj =>
            if String.eqb (AuthorityKeyId ci) (SubjectKeyId cj)
            then Some j
            else firstIssuer certs i js'
        | _, _ => firstIssuer certs i js'
        end
  end.

(** Consecutive certificates of a chain: each one's authority key identifier
    is the subject key identifier of the next. *)
Fixpoint linked (chain : list Certificate) : Prop :=
  match chain with
  | c :: (d :: _) as rest => AuthorityKeyId c = SubjectKeyId d /\ linked rest
  | _ => True
  end.

(** The nodes visited from [leaf] on, whether or not the visit ends. *)
Inductive visited (nodes : list node) : option nat -> list nat -> Prop :=
| visited_stop (leaf : option nat) : visited nodes leaf []
| visited_step (l : nat) (nl : node) (idxs : list nat) :
    nodes !! l = Some nl ->
    visited nodes (parent nl) idxs ->
    visited nodes (Some l) (l :: idxs).

(** After the outer loop has run for the positions [done]: the parent of a
    node is the issuer found for it if its turn has come, and a node is
    marked exactly when it was found for one of them. *)
Definition linkedFor (certs : list Certificate) (done : list nat)
  (nodes : list node) : Prop :=
  cert <$> nodes = certs /\
  forall k nk, nodes !! k = Some nk ->
    parent nk = (if decide (k ∈ done)
                 then firstIssuer certs k (seq 0 (length certs)) else None) /\
    (isParent nk = true <->
     exists i, i ∈ done /\ firstIssuer certs i (seq 0 (length certs)) = Some k).

(** ** Object identifiers *)

(** ** Object identifiers *)

(** [getObjectVersion] parses the id to retrieve the version of the object
    fetched: the last element of [strings.Split(id, "/")]. *)
Definition getObjectVersion (id : string) : string :=
  match last (strings.Split id "/"%char) with
  | Some version => version
  | None => EmptyString
  end.

(** ** Package [encoding/base64], [RawURLEncoding] *)

Module base64url.

(** [encodeURL], the URL-safe alphabet; the raw encoding has no padding. *)
Definition encodeURL : string :=
  "ABCDEFGHIJKLMNOPQRSTUVWXYZabcdefghijklmnopqrstuvwxyz0123456789-_".

Definition encode (i : Z) : ascii :=
  match String.get (Z.to_nat i) encodeURL with
  | Some c => c
  | None => zero
  end.

Definition decodeMap (c : ascii) : Z := base64.index c encodeURL 0.

(** [Encoding.Encode] without padding: a rest of one byte gives two
    characters, a rest of two bytes three. *)
Fixpoint EncodeToString (src : string) : string :=
  match src with
  | EmptyString => EmptyString
  | String s0 EmptyString =>
      let val := Z.shiftl (byteZ s0) 16 in
      String (encode (Z.land (Z.shiftr val 18) 63))
     (String (encode (Z.land (Z.shiftr val 12) 63)) EmptyString)
  | String s0 (String s1 EmptyString) =>
      let val := Z.lor (Z.shiftl (byteZ s0) 16) (Z.shiftl (byteZ s1) 8) in
      String (encode (Z.land (Z.shiftr val 18) 63))
     (String (encode (Z.land (Z.shiftr val 12) 63))
     (String (encode (Z.land (Z.shiftr val 6) 63)) EmptyString))
  | String s0 (String s1 (String s2 rest)) =>
      let val := Z.lor (Z.lor (Z.shiftl (byteZ s0) 16) (Z.shiftl (byteZ s1) 8))
                       (byteZ s2) in
      String (encode (Z.land (Z.shiftr val 18) 63))
     (String (encode (Z.land (Z.shiftr val 12) 63))
     (String (encode (Z.land (Z.shiftr val 6) 63))
     (String (encode (Z.land val 63)) (EncodeToString rest))))
  end.

(** [Encoding.Decode] for an encoding without padding: the input may end
    after two or three characters of a quantum, not after one; a byte that is
    neither of the alphabet nor a newline is corrupt, [=] included. *)
Fixpoint decode (src : string) (dbuf : list Z) : result string :=
  match src with
  | EmptyString =>
      match length dbuf with
      | 0%nat => Ok EmptyString
      | 1%nat => Err ErrBase64CorruptInput
      | 2%nat => Ok (base64.quantumBytes dbuf 1)
      | _ => Ok (base64.quantumBytes dbuf 2)
      end
  | String c rest =>
      let out := decodeMap c in
      if negb (out =? 255) then
        let dbuf' := dbuf ++ [out] in
        if (length dbuf' =? 4)%nat then
          let? tail := decode rest [] in
          Ok (base64.quantumBytes dbuf' 3 +:+ tail)
        else decode rest dbuf'
      else if base64.isNewline c then decode rest dbuf
      else Err ErrBase64CorruptInput
  end.

Definition DecodeString (s : string) : result string := decode s [].

End base64url.

(** ** Package [math/big] *)

Module big.

(** [new(big.Int).SetBytes(buf)]: [buf] read as a big-endian unsigned
    integer. *)
Definition SetBytes (buf : string) : Z :=
  fold_left (fun acc c => acc * 256 + byteZ c) (list_ascii_of_string buf) 0.

(** [x.Int64()] for [x >= 0]: the low 64 bits of [x] as a signed integer. *)
Definition Int64 (x : Z) : Z :=
  let low64 := x mod 2 ^ 64 in
  if low64 <? 2 ^ 63 then low64 else low64 - 2 ^ 64.

End big.

(** ** The answers of the vault, and its name *)

(** The answers of the Key Vault client; a pointer field of the SDK that may
    be [nil] is an [option]. *)
Record SecretBundle : Type := {
  SecretValue : option string;
  SecretID : option string;
  SecretContentType : option string;
  SecretKid : option string
}.

Record JSONWebKey : Type := {
  KeyKid : option string;
  KeyKty : string;
  KeyN : option string;
  KeyE : option string;
  KeyX : option string;
  KeyY : option string;
  KeyCrv : string
}.

Record KeyBundle : Type := { BundleKey : option JSONWebKey }.

Record CertificateBundle : Type := {
  BundleCer : option string;
  CertificateID : option string
}.

Definition certTypePem : string := "application/x-pem-file".
Definition certTypePfx : string := "application/x-pkcs12".

Inductive Curve : Type := P256 | P384 | P521.

(** The public keys that the provider builds: [rsa.PublicKey{N, E}] and
    [ecdsa.PublicKey{Curve, X, Y}]. *)
Inductive publicKey : Type :=
| RSAPublicKey (N E : Z)
| ECDSAPublicKey (curve : Curve) (X Y : Z).

(** [getCurve]: the curves "P-256", "P-384" and "P-521" of the SDK. *)
Definition getCurve (crv : string) : result Curve :=
  if String.eqb crv "P-256" then Ok P256
  else if String.eqb crv "P-384" then Ok P384
  else if String.eqb crv "P-521" then Ok P521
  else Err (ErrLibrary ("curve " +:+ crv +:+ " is not suppported")).

Inductive vaultNameError : Type :=
| ErrVaultNameLength   (* "Invalid vault name: %q, must be between 3 and 24 chars" *)
| ErrVaultNameChars.   (* "Invalid vault name: %q, must match [-a-zA-Z0-9]{3,24}" *)

(** The class [[-A-Za-z0-9]] of the regular expression. *)
Definition isVaultNameByte (c : ascii) : bool :=
  let v := byteZ c in
  (v =? 45) || ((65 <=? v) && (v <=? 90)) || ((97 <=? v) && (v <=? 122))
  || ((48 <=? v) && (v <=? 57)).

(** [regexp.MustCompile(`^[-A-Za-z0-9]+$`).MatchString]: one byte of the
    class at least, and nothing else up to the end of the text. *)
Fixpoint allVaultNameBytes (s : string) : bool :=
  match s with
  | EmptyString => true
  | String c s' => isVaultNameByte c && allVaultNameBytes s'
  end.

Definition isValid (s : string) : bool :=
  negb (String.length s =? 0)%nat && allVaultNameBytes s.

(** [getVaultURL]. *)
Definition getVaultURL (KeyvaultName KeyVaultDNSSuffix : string)
  : string + vaultNameError :=
  if (String.length KeyvaultName <? 3)%nat || (24 <? String.length KeyvaultName)%nat
  then inr ErrVaultNameLength
  else if negb (isValid KeyvaultName) then inr ErrVaultNameChars
  else inl ("https://" +:+ KeyvaultName +:+ "." +:+ KeyVaultDNSSuffix +:+ "/").

(** How a method of the provider ends: with a result, with an error, with
    a panic (an index out of range, a [nil] pointer of the client's answer),
    or, in the model only, out of fuel (see [fetchCertChains]). *)
Inductive outcome (E A : Type) : Type :=
| Returns (a : A)
| Fails (e : E)
| Panics
| OutOfFuel.
Arguments Returns {E A} a.
Arguments Fails {E A} e.
Arguments Panics {E A}.
Arguments OutOfFuel {E A}.

(** ** The client of the vault *)

(** [s[len(s)-1]], which panics on the empty string, and [s[:len(s)-1]]. *)
Fixpoint lastByte (s : string) : option ascii :=
  match s with
  | EmptyString => None
  | String c EmptyString => Some c
  | String _ s' => lastByte s'
  end.

Fixpoint dropLast (s : string) : string :=
  match s with
  | EmptyString => EmptyString
  | String _ EmptyString => EmptyString
  | String c s' => String c (dropLast s')
  end.

Inductive clientError : Type :=
| ErrAddUserAgent (e : error)   (* "failed to add user agent to keyvault client" *)
| ErrGetToken (e : error).      (* "failed to get key vault token" *)

Section Client.
Variables servicePrincipalToken authorizer : Type.
(** [p.AzureCloudEnvironment.KeyVaultEndpoint]. *)
Variable KeyVaultEndpoint : string.
(** [p.GetServicePrincipalToken(resource)]: the token that the
    configuration of the provider gives for the resource. *)
Variable GetServicePrincipalToken : string -> result servicePrincipalToken.
Variable autorest_NewBearerAuthorizer : servicePrincipalToken -> authorizer.
(** [kvClient.AddToUserAgent(version.GetUserAgent())]. *)
Variable AddToUserAgent : result unit.

(** [GetKeyvaultToken] retrieves a new service principal token to access
    keyvault. *)
Definition GetKeyvaultToken : outcome error authorizer :=
  match lastByte KeyVaultEndpoint with
  | None => Panics
  | Some c =>
      let kvEndPoint :=
        if Ascii.eqb "/"%char c then dropLast KeyVaultEndpoint
        else KeyVaultEndpoint in
      match GetServicePrincipalToken kvEndPoint with
      | Err e => Fails e
      | Ok servicePrincipalToken =>
          Returns (autorest_NewBearerAuthorizer servicePrincipalToken)
      end
  end.

(** [initializeKvClient]; the client is known by its authorizer. *)
Definition initializeKvClient : outcome clientError authorizer :=
  match AddToUserAgent with
  | Err e => Fails (ErrAddUserAgent e)
  | Ok _ =>
      match GetKeyvaultToken with
      | Returns token => Returns token
      | Fails e => Fails (ErrGetToken e)
      | Panics => Panics
      | OutOfFuel => OutOfFuel
      end
  end.
End Client.

Arguments GetKeyvaultToken {_ _} _ _ _.
Arguments initializeKvClient {_ _} _ _ _ _.

(** ** Fetching one object *)

Inductive fetchError : Type :=
| ErrFailedToGetVault (e : vaultNameError)   (* "failed to get vault" *)
| ErrFailedToGetClient (e : clientError)     (* "failed to get keyvault client" *)
| ErrFetch (e : error).

Section GetKeyVaultObjectContent.
Variable foldRunes : string -> string -> bool.
(** [p.KeyvaultName] and [p.AzureCloudEnvironment.KeyVaultDNSSuffix]. *)
Variables KeyvaultName KeyVaultDNSSuffix : string.
Variables servicePrincipalToken authorizer : Type.
Variable KeyVaultEndpoint : string.
Variable GetServicePrincipalToken : string -> result servicePrincipalToken.
Variable autorest_NewBearerAuthorizer : servicePrincipalToken -> authorizer.
Variable AddToUserAgent : result unit.
(** The three calls of the client, each with the client, the vault URL, the
    object name and the object version. *)
Variable GetSecret : authorizer -> string -> string -> string -> result SecretBundle.
Variable GetKey : authorizer -> string -> string -> string -> result KeyBundle.
Variable GetCertificate :
  authorizer -> string -> string -> string -> result CertificateBundle.
Variable x509_MarshalPKIXPublicKey : publicKey -> result string.
Variable pem_EncodeToMemory : Block -> string.
(** [decodePKCS12], with its packages. *)
Variable decodePKCS12' : string -> option (result string).

Definition publicKeyBlock (derBytes : string) : Block :=
  {| Type' := "PUBLIC KEY"; Headers := ∅; Bytes := derBytes |}.

Definition wrapFetch {A : Type} (e : error) : outcome fetchError A :=
  Fails (ErrFetch (ErrWrapObjectType e)).

(** The case [VaultObjectTypeSecret]. *)
Definition getSecretContent (kvClient : authorizer) (vaultURL : string)
  (kvObject : KeyVaultObject) : outcome fetchError (string * string) :=
  match GetSecret kvClient vaultURL (ObjectName kvObject)
          (ObjectVersion kvObject) with
  | Err e => wrapFetch e
  | Ok secret =>
      match SecretValue secret with
      | None => Fails (ErrFetch (ErrLibrary "secret value is nil"))
      | Some content =>
          match SecretID secret with
          | None => Fails (ErrFetch (ErrLibrary "secret id is nil"))
          | Some id =>
              let version := getObjectVersion id in
              match SecretKid secret with
              | None => Returns (content, version)
              | Some kid =>
                  if (String.length kid =? 0)%nat then Returns (content, version)
                  else
                    match SecretContentType secret with
                    | None => Panics
                    | Some contentType =>
                        if String.eqb contentType certTypePem
                        then Returns (content, version)
                        else if String.eqb contentType certTypePfx then
                          if strings.EqualFold foldRunes
                               (ObjectFormat kvObject) objectFormatPFX
                          then Returns (content, version)
                          else
                            match decodePKCS12' content with
                            | None => OutOfFuel
                            | Some (Err e) => wrapFetch e
                            | Some (Ok pem) => Returns (pem, version)
                            end
                        else
                          wrapFetch
                            (ErrLibrary
                               ("failed to get certificate. unknown content type '"
                                +:+ contentType +:+ "'"))
                    end
              end
          end
      end
  end.

(** The cases [kv.RSA, kv.RSAHSM] and [kv.EC, kv.ECHSM] of the key type. *)
Definition getPublicKey (key : JSONWebKey) : outcome fetchError publicKey :=
  if String.eqb (KeyKty key) "RSA" || String.eqb (KeyKty key) "RSA-HSM" then
    match KeyN key with
    | None => Panics
    | Some n =>
        match base64url.DecodeString n with
        | Err e => wrapFetch e
        | Ok nb =>
            match KeyE key with
            | None => Panics
            | Some e =>
                match base64url.DecodeString e with
                | Err e => wrapFetch e
                | Ok eb =>
                    (* [int(e)]: an [int] has 64 bits *)
                    let e := big.Int64 (big.SetBytes eb) in
                    Returns (RSAPublicKey (big.SetBytes nb) e)
                end
            end
        end
    end
  else if String.eqb (KeyKty key) "EC" || String.eqb (KeyKty key) "EC-HSM" then
    match KeyX key with
    | None => Panics
    | Some x =>
        match base64url.DecodeString x with
        | Err e => wrapFetch e
        | Ok xb =>
            match KeyY key with
            | None => Panics
            | Some y =>
                match base64url.DecodeString y with
                | Err e => wrapFetch e
                | Ok yb =>
                    match getCurve (KeyCrv key) with
                    | Err e => wrapFetch e
                    | Ok crv =>
                        Returns (ECDSAPublicKey crv (big.SetBytes xb)
                                   (big.SetBytes yb))
                    end
                end
            end
        end
    end
  else
    wrapFetch (ErrLibrary ("failed to get key. key type '" +:+ KeyKty key
                           +:+ "' currently not supported")).

(** The case [VaultObjectTypeKey]. *)
Definition getKeyContent (kvClient : authorizer) (vaultURL : string)
  (kvObject : KeyVaultObject) : outcome fetchError (string * string) :=
  match GetKey kvClient vaultURL (ObjectName kvObject)
          (ObjectVersion kvObject) with
  | Err e => wrapFetch e
  | Ok keybundle =>
      match BundleKey keybundle with
      | None => Fails (ErrFetch (ErrLibrary "key value is nil"))
      | Some key =>
          match KeyKid key with
          | None => Fails (ErrFetch (ErrLibrary "key id is nil"))
          | Some kid =>
              let version := getObjectVersion kid in
              match getPublicKey key with
              | Returns pKey =>
                  match x509_MarshalPKIXPublicKey pKey with
                  | Err e => wrapFetch e
                  | Ok derBytes =>
                      Returns (pem_EncodeToMemory (publicKeyBlock derBytes),
                               version)
                  end
              | Fails e => Fails e
              | Panics => Panics
              | OutOfFuel => OutOfFuel
              end
          end
      end
  end.

(** The case [VaultObjectTypeCertificate]. *)
Definition getCertificateContent (kvClient : authorizer) (vaultURL : string)
  (kvObject : KeyVaultObject) : outcome fetchError (string * string) :=
  match GetCertificate kvClient vaultURL (ObjectName kvObject)
          (ObjectVersion kvObject) with
  | Err e => wrapFetch e
  | Ok certbundle =>
      match BundleCer certbundle with
      | None => Fails (ErrFetch (ErrLibrary "certificate value is nil"))
      | Some cer =>
          match CertificateID certbundle with
          | None => Fails (ErrFetch (ErrLibrary "certificate id is nil"))
          | Some id =>
              let version := getObjectVersion id in
              let certBlock :=
                {| Type' := "CERTIFICATE"; Headers := ∅; Bytes := cer |} in
              Returns (pem_EncodeToMemory certBlock, version)
          end
      end
  end.

(** [GetKeyVaultObjectContent] gets the content of the keyvault object. *)
Definition GetKeyVaultObjectContent (kvObject : KeyVaultObject)
  : outcome fetchError (string * string) :=
  match getVaultURL KeyvaultName KeyVaultDNSSuffix with
  | inr e => Fails (ErrFailedToGetVault e)
  | inl vaultURL =>
      match initializeKvClient KeyVaultEndpoint GetServicePrincipalToken
              autorest_NewBearerAuthorizer AddToUserAgent with
      | Fails e => Fails (ErrFailedToGetClient e)
      | Panics => Panics
      | OutOfFuel => OutOfFuel
      | Returns kvClient =>
          if String.eqb (ObjectType kvObject) VaultObjectTypeSecret
          then getSecretContent kvClient vaultURL kvObject
          else if String.eqb (ObjectType kvObject) VaultObjectTypeKey
          then getKeyContent kvClient vaultURL kvObject
          else if String.eqb (ObjectType kvObject) VaultObjectTypeCertificate
          then getCertificateContent kvClient vaultURL kvObject
          else
            wrapFetch
              (ErrLibrary "Invalid vaultObjectTypes. Should be secret, key, or cert")
      end
  end.
End GetKeyVaultObjectContent.

Arguments getSecretContent _ {_} _ _ kvClient vaultURL kvObject.
Arguments getKeyContent {_} _ _ _ kvClient vaultURL kvObject.
Arguments getCertificateContent {_} _ _ kvClient vaultURL kvObject.
Arguments GetKeyVaultObjectContent _ _ _ {_ _} _ _ _ _ _ _ _ _ _ _ kvObject.

(** ** The mount loop and the disk

    [mountObjects] gives what [MountSecretsStoreObjectContent] returns.  A
    file that [os.WriteFile] has written stays where it is when a later
    object fails: [mountObjectsDisk] gives the state in which the loop
    returns, with the error if it returns one. *)

Section MountDisk.
Variable foldRunes : string -> string -> bool.
Variable Separator : ascii.
Variable IsAbs : string -> bool.
Variable filepath_Join : string -> string -> string.
Variable GetKeyVaultObjectContent : KeyVaultObject -> result (string * string).
Variable os_WriteFile : string -> string -> result unit.
Variable DriverWriteSecrets : bool.
Variable targetPath : string.

Fixpoint mountObjectsDisk (keyVaultObjects : list KeyVaultObject)
  (st : mountState) : mountState * option error :=
  match keyVaultObjects with
  | [] => (st, None)
  | keyVaultObject :: rest =>
      match mountObject foldRunes Separator IsAbs filepath_Join
              GetKeyVaultObjectContent os_WriteFile DriverWriteSecrets
              targetPath keyVaultObject st with
      | Err e => (st, Some e)
      | Ok st' => mountObjectsDisk rest st'
      end
  end.
End MountDisk.

(** The strings of ASCII bytes. *)
Definition isASCII (s : string) : Prop :=
  Forall (fun c => byteZ c < 128) (list_ascii_of_string s).

(** ** A vault with a secret, two keys and a certificate

    What the Key Vault client returns on the vault [kv-demo], to the holder
    of the token for [https://vault.azure.net]: the secret
    [db-password], whose value is the base64 text of [hunter2]; the RSA key
    [signing], with the public exponent 65537; the elliptic-curve key
    [agreement]; the certificate [tls].  [x509.MarshalPKIXPublicKey] is
    tabulated on the two public keys; the file system is that of a Unix
    host. *)

Module Vault.

Definition foldRunes (s t : string) : bool := false.
Definition IsAbs (path : string) : bool := strings.HasPrefix path "/".
Definition Join (dir name : string) : string := dir +:+ "/" +:+ name.
Definition WriteFile (name data : string) : result unit := Ok tt.

Definition url : string := "https://kv-demo.vault.azure.net/".

(** The endpoint of the public cloud, and the token for it. *)
Definition KeyVaultEndpoint : string := "https://vault.azure.net/".

Definition GetServicePrincipalToken (resource : string) : result string :=
  if String.eqb resource "https://vault.azure.net"
  then Ok "token-for-the-vault"
  else Err (ErrLibrary "adal: invalid resource").

Definition NewBearerAuthorizer (token : string) : string := "Bearer " +:+ token.

Definition authorized (kvClient : string) : bool :=
  String.eqb kvClient "Bearer token-for-the-vault".

Definition modulus : string := "modulus-bytes".
Definition exponent : string :=
  String "001"%char (String "000"%char (String "001"%char EmptyString)).
Definition pointX : string := "x-coordinate".
Definition pointY : string := "y-coordinate".

Definition dbPassword : SecretBundle :=
  {| SecretValue := Some "aHVudGVyMg==";
     SecretID := Some "https://kv-demo.vault.azure.net/secrets/db-password/7c1f";
     SecretContentType := None;
     SecretKid := None |}.

Definition signingKey : JSONWebKey :=
  {| KeyKid := Some "https://kv-demo.vault.azure.net/keys/signing/9a2e";
     KeyKty := "RSA";
     KeyN := Some (base64url.EncodeToString modulus);
     KeyE := Some (base64url.EncodeToString exponent);
     KeyX := None; KeyY := None; KeyCrv := EmptyString |}.

Definition agreementKey : JSONWebKey :=
  {| KeyKid := Some "https://kv-demo.vault.azure.net/keys/agreement/03b7";
     KeyKty := "EC-HSM";
     KeyN := None; KeyE := None;
     KeyX := Some (base64url.EncodeToString pointX);
     KeyY := Some (base64url.EncodeToString pointY);
     KeyCrv := "P-384" |}.

Definition tlsCertificate : CertificateBundle :=
  {| BundleCer := Some "der-tls";
     CertificateID :=
       Some "https://kv-demo.vault.azure.net/certificates/tls/41d0" |}.

Definition GetSecret (kvClient vaultBaseURL name version : string)
  : result SecretBundle :=
  if negb (authorized kvClient) then Err (ErrLibrary "Unauthorized")
  else if String.eqb vaultBaseURL url && String.eqb name "db-password"
  then Ok dbPassword
  else Err (ErrLibrary "SecretNotFound").

Definition GetKey (kvClient vaultBaseURL name version : string)
  : result KeyBundle :=
  if negb (authorized kvClient) then Err (ErrLibrary "Unauthorized")
  else if String.eqb vaultBaseURL url && String.eqb name "signing"
  then Ok {| BundleKey := Some signingKey |}
  else if String.eqb vaultBaseURL url && String.eqb name "agreement"
  then Ok {| BundleKey := Some agreementKey |}
  else Err (ErrLibrary "KeyNotFound").

Definition GetCertificate (kvClient vaultBaseURL name version : string)
  : result CertificateBundle :=
  if negb (authorized kvClient) then Err (ErrLibrary "Unauthorized")
  else if String.eqb vaultBaseURL url && String.eqb name "tls"
  then Ok tlsCertificate
  else Err (ErrLibrary "CertificateNotFound").

Definition MarshalPKIXPublicKey (pub : publicKey) : result string :=
  match pub with
  | RSAPublicKey _ _ => Ok "der-rsa-public-key"
  | ECDSAPublicKey _ _ _ => Ok "der-ec-public-key"
  end.

(** [GetKeyVaultObjectContent] on this vault. *)
Definition fetchObject (kvObject : KeyVaultObject)
  : outcome fetchError (string * string) :=
  GetKeyVaultObjectContent foldRunes "kv-demo" "vault.azure.net"
    KeyVaultEndpoint GetServicePrincipalToken NewBearerAuthorizer (Ok tt)
    GetSecret GetKey GetCertificate MarshalPKIXPublicKey
    Container.EncodeToMemory (Container.decode false) kvObject.

(** What the mount loop sees of it. *)
Definition fetch (kvObject : KeyVaultObject) : result (string * string) :=
  match fetchObject kvObject with
  | Returns fetched => Ok fetched
  | _ => Err (ErrLibrary "failed to get the object")
  end.

Definition password : KeyVaultObject :=
  {| ObjectName := "db-password"; ObjectAlias := "password";
     ObjectVersion := EmptyString; ObjectType := "secret";
     ObjectFormat := EmptyString; ObjectEncoding := "Base64" |}.

Definition signing : KeyVaultObject :=
  {| ObjectName := "signing"; ObjectAlias := EmptyString;
     ObjectVersion := EmptyString; ObjectType := "key";
     ObjectFormat := EmptyString; ObjectEncoding := EmptyString |}.

Definition tls : KeyVaultObject :=
  {| ObjectName := "tls"; ObjectAlias := "tls.crt";
     ObjectVersion := EmptyString; ObjectType := "cert";
     ObjectFormat := "PEM"; ObjectEncoding := EmptyString |}.

(** An object that the vault does not hold. *)
Definition missing : KeyVaultObject :=
  {| ObjectName := "api-token"; ObjectAlias := EmptyString;
     ObjectVersion := EmptyString; ObjectType := "secret";
     ObjectFormat := EmptyString; ObjectEncoding := EmptyString |}.

(** The mount loop on this vault, with the flag as given. *)
Definition mount (DriverWriteSecrets : bool)
  (keyVaultObjects : list KeyVaultObject) (st : mountState)
  : result mountState :=
  mountObjects foldRunes "/"%char IsAbs Join fetch WriteFile
    DriverWriteSecrets "/mnt/secrets-store" keyVaultObjects st.

Definition unmounted : mountState :=
  {| files := ∅; objectVersionMap := ∅; written := [] |}.

Definition publicKeyPEM : string :=
  Container.EncodeToMemory
    {| Type' := "PUBLIC KEY"; Headers := ∅; Bytes := "der-rsa-public-key" |}.

Definition certificatePEM : string :=
  Container.EncodeToMemory
    {| Type' := "CERTIFICATE"; Headers := ∅; Bytes := "der-tls" |}.

(** The three objects mounted, for the driver to write and written by the
    provider. *)
Definition versions : gmap string string :=
  <["cert/tls" := "41d0"]>
    (<["key/signing" := "9a2e"]> (<["secret/db-password" := "7c1f"]> ∅)).

Definition returned : mountState :=
  {| files := <["tls.crt" := certificatePEM]>
                (<["signing" := publicKeyPEM]> (<["password" := "hunter2"]> ∅));
     objectVersionMap := versions;
     written := [] |}.

Definition onDisk : mountState :=
  {| files := ∅;
     objectVersionMap := versions;
     written := [("/mnt/secrets-store/tls.crt", certificatePEM);
                 ("/mnt/secrets-store/signing", publicKeyPEM);
                 ("/mnt/secrets-store/password", "hunter2")] |}.

(** The disk after a mount that failed at its third object. *)
Definition halfway : mountState :=
  {| files := ∅;
     objectVersionMap :=
       <["key/signing" := "9a2e"]> (<["secret/db-password" := "7c1f"]> ∅);
     written := [("/mnt/secrets-store/signing", publicKeyPEM);
                 ("/mnt/secrets-store/password", "hunter2")] |}.

End Vault.

(** ** Two more PKCS#12 containers

    One with a private key and no certificate, one with a certificate and a
    key block that no parser of [parsePrivateKey] reads; the other packages
    are those of [Container]. *)

Module Containers.

Definition pfxKeyOnly : string := "pkcs12-key-only".
Definition pfxBadKey : string := "pkcs12-bad-key".

Definition badKeyBlock : Block :=
  {| Type' := "PRIVATE KEY"; Headers := ∅; Bytes := "der-unknown-key" |}.

Definition ToPEMBoth (pfxData password : string) : result (list Block) :=
  if String.eqb pfxData pfxKeyOnly && String.eqb password EmptyString
  then Ok [Container.keyBlock]
  else if String.eqb pfxData pfxBadKey && String.eqb password EmptyString
  then Ok [Container.blockX; badKeyBlock]
  else Err (ErrLibrary "pkcs12: decoding error").

Definition extract (ConstructPEMChain : bool) (value : string)
  : option (result string) :=
  decodePKCS12 Container.ParsePKCS1PrivateKey Container.ParsePKCS8PrivateKey
    Container.ParseECPrivateKey Container.MarshalPKCS8PrivateKey ToPEMBoth
    Container.Decode Container.ParseCertificate Container.EncodeToMemory
    ConstructPEMChain value.

Definition valueKeyOnly : string := base64.EncodeToString pfxKeyOnly.
Definition valueBadKey : string := base64.EncodeToString pfxBadKey.

End Containers.

(** * Properties *)

(** ** Bytes and case folding *)

Lemma byteZ_range (c : ascii) : 0 <= byteZ c < 256.
Proof.
  unfold byteZ. pose proof (N_ascii_bounded c). lia.
Qed.

Lemma toByte_byteZ (c : ascii) : toByte (byteZ c) = c.
Proof.
  unfold toByte. pose proof (byteZ_range c) as Hc.
  replace (Z.land (byteZ c) 255) with (byteZ c).
  - unfold byteZ. rewrite N2Z.id. apply ascii_N_embedding.
  - change 255 with (Z.ones 8). rewrite Z.land_ones by lia.
    symmetry. apply Z.mod_small. lia.
Qed.

Lemma byteZ_inj (c d : ascii) : byteZ c = byteZ d -> c = d.
Proof.
  intros H. rewrite <- (toByte_byteZ c), <- (toByte_byteZ d). now rewrite H.
Qed.

(** ** Bit arithmetic of the codecs *)

Lemma lor_shiftl_add (hi lo n : Z) :
  0 <= n -> 0 <= lo < 2 ^ n -> Z.lor (Z.shiftl hi n) lo = hi * 2 ^ n + lo.
Proof.
  intros Hn Hlo.
  rewrite <- Z.lxor_lor, <- Z.add_nocarry_lxor, Z.shiftl_mul_pow2; trivial.
  all: apply Z.bits_inj'; intros i Hi; rewrite Z.land_spec, Z.bits_0.
  all: destruct (Z.lt_ge_cases i n).
  all: try (rewrite Z.shiftl_spec_low by lia; reflexivity).
  all: rewrite <- (Z.mod_small lo (2 ^ n)) by lia.
  all: rewrite Z.mod_pow2_bits_high by lia; apply andb_false_r.
Qed.

Lemma lor_add (x lo n : Z) :
  0 <= n -> 0 <= lo < 2 ^ n -> x mod 2 ^ n = 0 -> Z.lor x lo = x + lo.
Proof.
  intros Hn Hlo Hx.
  assert (x = Z.shiftl (x / 2 ^ n) n) as ->.
  { rewrite Z.shiftl_mul_pow2 by lia. pose proof (Z.div_mod x (2 ^ n)). lia. }
  rewrite lor_shiftl_add by lia. rewrite Z.shiftl_mul_pow2 by lia. reflexivity.
Qed.

Ltac pow2_lia :=
  repeat (first [ change (2 ^ 4) with 16 | change (2 ^ 6) with 64
                | change (2 ^ 8) with 256 | change (2 ^ 12) with 4096
                | change (2 ^ 16) with 65536 | change (2 ^ 18) with 262144 ]);
  Z.div_mod_to_equations; lia.

Ltac to_div_mod :=
  change 15 with (Z.ones 4); change 63 with (Z.ones 6);
  change 255 with (Z.ones 8);
  rewrite ?Z.land_ones, ?Z.shiftr_div_pow2, ?Z.shiftl_mul_pow2 by lia.

Lemma toByte_of_land (z : Z) (c : ascii) : Z.land z 255 = byteZ c -> toByte z = c.
Proof.
  intros H. unfold toByte. rewrite H. unfold byteZ. rewrite N2Z.id.
  apply ascii_N_embedding.
Qed.

Lemma below_forallb (P : Z -> bool) (n : nat) :
  forallb P (map Z.of_nat (seq 0 n)) = true ->
  forall i, 0 <= i < Z.of_nat n -> P i = true.
Proof.
  intros H i Hi. rewrite forallb_forall in H. apply H.
  apply in_map_iff. exists (Z.to_nat i). split; [lia|].
  apply in_seq. lia.
Qed.

(** Induction on a byte string three bytes at a time, as the encoder reads
    it. *)
Lemma string_by_three (P : string -> Prop) :
  P EmptyString ->
  (forall a, P (String a EmptyString)) ->
  (forall a b, P (String a (String b EmptyString))) ->
  (forall a b c rest, P rest -> P (String a (String b (String c rest)))) ->
  forall s, P s.
Proof.
  intros H0 H1 H2 H3 s.
  enough (P s /\ (forall a, P (String a s)) /\ (forall a b, P (String a (String b s))))
    by tauto.
  induction s as [|c s (IH0 & IH1 & IH2)]; auto.
Qed.

(** ** [encoding/base64]: decoding undoes encoding *)

Module base64_facts.
Import base64.

Lemma decodeMap_encode (i : Z) : 0 <= i < 64 -> decodeMap (encode i) = i.
Proof.
  intros Hi.
  apply (below_forallb (fun i => decodeMap (encode i) =? i) 64) in Hi.
  - now apply Z.eqb_eq.
  - vm_compute. reflexivity.
Qed.

Lemma sextet_range (val k : Z) : 0 <= Z.land (Z.shiftr val k) 63 < 64.
Proof.
  change 63 with (Z.ones 6). rewrite Z.land_ones by lia.
  apply Z.mod_pos_bound. lia.
Qed.

Lemma sextet_range0 (val : Z) : 0 <= Z.land val 63 < 64.
Proof.
  change 63 with (Z.ones 6). rewrite Z.land_ones by lia.
  apply Z.mod_pos_bound. lia.
Qed.

(** One step of the decoder on a character of the alphabet. *)
Lemma decode_sextet (s : Z) (rest : string) (dbuf : list Z) :
  0 <= s < 64 ->
  decode (String (encode s) rest) dbuf =
  if (length (dbuf ++ [s]) =? 4)%nat
  then bind (decode rest []) (fun tail => Ok (quantumBytes (dbuf ++ [s]) 3 +:+ tail))
  else decode rest (dbuf ++ [s]).
Proof.
  intros Hs. cbn [decode]. rewrite decodeMap_encode by trivial.
  destruct (Z.eqb_spec s 255); [lia|]. reflexivity.
Qed.

Lemma decode_padding2 (dbuf : list Z) :
  length dbuf = 2%nat -> decode "==" dbuf = Ok (quantumBytes dbuf 1).
Proof.
  intros H. cbn [decode].
  change (decodeMap "="%char) with 255. cbn [Z.eqb negb Pos.eqb].
  change (isNewline "="%char) with false. cbv iota.
  change (Ascii.eqb "="%char StdPadding) with true. cbn [negb]. rewrite H.
  reflexivity.
Qed.

Lemma decode_padding1 (dbuf : list Z) :
  length dbuf = 3%nat -> decode "=" dbuf = Ok (quantumBytes dbuf 2).
Proof.
  intros H. cbn [decode].
  change (decodeMap "="%char) with 255. cbn [Z.eqb negb Pos.eqb].
  change (isNewline "="%char) with false. cbv iota.
  change (Ascii.eqb "="%char StdPadding) with true. cbn [negb]. rewrite H.
  reflexivity.
Qed.

(** The value the encoder builds from three bytes. *)
Lemma val3 (a b c : Z) :
  0 <= a < 256 -> 0 <= b < 256 -> 0 <= c < 256 ->
  Z.lor (Z.lor (Z.shiftl a 16) (Z.shiftl b 8)) c = a * 65536 + b * 256 + c.
Proof.
  intros Ha Hb Hc. rewrite !Z.shiftl_mul_pow2 by lia.
  rewrite (lor_add (a * 2 ^ 16) (b * 2 ^ 8) 16) by pow2_lia.
  rewrite (lor_add _ c 8) by pow2_lia. lia.
Qed.

(** The four sextets of a 24-bit value give the value back. *)
Lemma quantum_sextets (val : Z) :
  0 <= val < 16777216 ->
  quantum [Z.land (Z.shiftr val 18) 63; Z.land (Z.shiftr val 12) 63;
           Z.land (Z.shiftr val 6) 63; Z.land val 63] = val.
Proof.
  intros Hv. unfold quantum. cbn [nth]. to_div_mod.
  rewrite (lor_add _ ((val / 2 ^ 12) mod 2 ^ 6 * 2 ^ 12) 18) by pow2_lia.
  rewrite (lor_add _ ((val / 2 ^ 6) mod 2 ^ 6 * 2 ^ 6) 12) by pow2_lia.
  rewrite (lor_add _ (val mod 2 ^ 6) 6) by pow2_lia.
  pow2_lia.
Qed.

Lemma quantum_three (dbuf3 : list Z) (s0 s1 s2 : Z) :
  dbuf3 = [s0; s1; s2] -> quantum dbuf3 = quantum [s0; s1; s2; 0].
Proof. intros ->. reflexivity. Qed.

Lemma quantum_two (s0 s1 : Z) : quantum [s0; s1] = quantum [s0; s1; 0; 0].
Proof. reflexivity. Qed.

Lemma bytes_of_val (a b c : ascii) :
  let val := byteZ a * 65536 + byteZ b * 256 + byteZ c in
  toByte (Z.shiftr val 16) = a /\ toByte (Z.shiftr val 8) = b /\ toByte val = c.
Proof.
  pose proof (byteZ_range a). pose proof (byteZ_range b).
  pose proof (byteZ_range c). cbv zeta.
  repeat split; apply toByte_of_land; to_div_mod; pow2_lia.
Qed.

Theorem base64_DecodeString_EncodeToString (src : string) :
  DecodeString (EncodeToString src) = Ok src.
Proof.
  unfold DecodeString.
  induction src as [|a|a b|a b c rest IH] using string_by_three.
  - reflexivity.
  - (* one byte, two characters and "==" *)
    pose proof (byteZ_range a) as Ha.
    cbn [EncodeToString]. cbv zeta.
    rewrite !decode_sextet by apply sextet_range. cbn [length app Nat.eqb].
    rewrite decode_padding2 by reflexivity. f_equal.
    unfold quantumBytes. rewrite quantum_two.
    replace (Z.shiftl (byteZ a) 16) with (byteZ a * 65536 + 0 * 256 + 0)
      by (rewrite Z.shiftl_mul_pow2; lia).
    set (val := byteZ a * 65536 + 0 * 256 + 0).
    assert (Hq : quantum [Z.land (Z.shiftr val 18) 63; Z.land (Z.shiftr val 12) 63; 0; 0]
                 = val).
    { pose proof (quantum_sextets val ltac:(subst val; lia)) as Q.
      assert (E2 : Z.land (Z.shiftr val 6) 63 = 0)
        by (subst val; to_div_mod; pow2_lia).
      assert (E3 : Z.land val 63 = 0) by (subst val; to_div_mod; pow2_lia).
      now rewrite E2, E3 in Q. }
    rewrite Hq. cbn [firstn string_of_list_ascii]. f_equal.
    apply toByte_of_land. subst val. to_div_mod. pow2_lia.
  - (* two bytes, three characters and "=" *)
    pose proof (byteZ_range a) as Ha. pose proof (byteZ_range b) as Hb.
    cbn [EncodeToString]. cbv zeta.
    rewrite !decode_sextet by apply sextet_range. cbn [length app Nat.eqb].
    rewrite decode_padding1 by reflexivity. f_equal.
    unfold quantumBytes. rewrite (quantum_three _ _ _ _ eq_refl).
    replace (Z.lor (Z.shiftl (byteZ a) 16) (Z.shiftl (byteZ b) 8))
      with (byteZ a * 65536 + byteZ b * 256 + 0)
      by (rewrite <- (val3 (byteZ a) (byteZ b) 0), Z.lor_0_r by lia; reflexivity).
    set (val := byteZ a * 65536 + byteZ b * 256 + 0).
    assert (Hq : quantum [Z.land (Z.shiftr val 18) 63; Z.land (Z.shiftr val 12) 63;
                          Z.land (Z.shiftr val 6) 63; 0] = val).
    { pose proof (quantum_sextets val ltac:(subst val; lia)) as Q.
      assert (E3 : Z.land val 63 = 0) by (subst val; to_div_mod; pow2_lia).
      now rewrite E3 in Q. }
    rewrite Hq. cbn [firstn string_of_list_ascii].
    f_equal; [|f_equal]; apply toByte_of_land; subst val; to_div_mod; pow2_lia.
  - (* three bytes, four characters, and the rest *)
    pose proof (byteZ_range a) as Ha. pose proof (byteZ_range b) as Hb.
    pose proof (byteZ_range c) as Hc.
    cbn [EncodeToString]. cbv zeta.
    rewrite val3 by trivial.
    rewrite !decode_sextet by (apply sextet_range || apply sextet_range0).
    cbn [length app Nat.eqb]. rewrite IH. cbn [bind]. f_equal.
    unfold quantumBytes. rewrite quantum_sextets by lia.
    cbn [firstn string_of_list_ascii].
    destruct (bytes_of_val a b c) as (-> & -> & ->). reflexivity.
Qed.
End base64_facts.

(** ** [encoding/hex]: decoding undoes encoding *)

Module hex_facts.
Import hex.

Lemma fromHexChar_hexdigit (i : Z) :
  0 <= i < 16 -> fromHexChar (hexdigit i) = Some i.
Proof.
  intros Hi.
  apply (below_forallb
           (fun i => match fromHexChar (hexdigit i) with
                     | Some j => j =? i
                     | None => false
                     end) 16) in Hi.
  - destruct (fromHexChar (hexdigit i)); [|discriminate].
    apply Z.eqb_eq in Hi. now subst.
  - vm_compute. reflexivity.
Qed.

Theorem hex_DecodeString_EncodeToString (src : string) :
  DecodeString (EncodeToString src) = Ok src.
Proof.
  induction src as [|v rest IH]; [reflexivity|].
  pose proof (byteZ_range v) as Hv.
  cbn [EncodeToString DecodeString].
  rewrite !fromHexChar_hexdigit by (to_div_mod; pow2_lia).
  rewrite IH. cbn [bind]. do 2 f_equal.
  apply toByte_of_land.
  rewrite lor_shiftl_add by (to_div_mod; pow2_lia).
  to_div_mod. pow2_lia.
Qed.
End hex_facts.

(** ** The encoding normalizer *)

Section NormalizerFacts.
Variable foldRunes : string -> string -> bool.
Local Abbreviation EqualFold := (strings.EqualFold foldRunes).

Lemma validateObjectFormat_empty (objectType : string) :
  validateObjectFormat foldRunes EmptyString objectType = Ok tt.
Proof. reflexivity. Qed.

Lemma EqualFold_nonempty (s t : string) :
  EqualFold s t = true -> t <> EmptyString -> (String.length s =? 0)%nat = false.
Proof.
  destruct s, t; cbn; try discriminate; try reflexivity. congruence.
Qed.

(** "pem" in any letter case is accepted for every object type. *)
Lemma validateObjectFormat_pem (objectFormat objectType : string) :
  EqualFold objectFormat objectFormatPEM = true ->
  validateObjectFormat foldRunes objectFormat objectType = Ok tt.
Proof.
  intros H. unfold validateObjectFormat.
  rewrite (EqualFold_nonempty _ _ H) by discriminate.
  rewrite H. cbn [negb andb].
  destruct (String.eqb_spec objectFormat objectFormatPFX) as [->|_];
    [vm_compute in H; discriminate | reflexivity].
Qed.

(** "pfx" in any letter case is accepted for a secret. *)
Lemma validateObjectFormat_pfx_secret (objectFormat : string) :
  EqualFold objectFormat objectFormatPFX = true ->
  validateObjectFormat foldRunes objectFormat VaultObjectTypeSecret = Ok tt.
Proof.
  intros H. unfold validateObjectFormat.
  rewrite (EqualFold_nonempty _ _ H) by discriminate.
  rewrite H, andb_false_r.
  now destruct (String.eqb objectFormat objectFormatPFX).
Qed.

(** The lower-case "pfx" is rejected for every other object type. *)
Lemma validateObjectFormat_pfx_lower (objectType : string) :
  objectType <> VaultObjectTypeSecret ->
  validateObjectFormat foldRunes objectFormatPFX objectType
  = Err ErrPFXOnlyForSecret.
Proof.
  intros H. unfold validateObjectFormat. cbn.
  destruct (String.eqb_spec objectType VaultObjectTypeSecret); [contradiction|].
  reflexivity.
Qed.

(** C2 (the code departs from the claim): "PFX" folds to "pfx" and "key" is
    not the secret type, yet [validateObjectFormat] accepts the pair.  The
    second test of the function compares [objectFormat] with "pfx" by [==],
    where the first one used [strings.EqualFold]. *)
Theorem validateObjectFormat_upper_PFX_key :
  EqualFold "PFX" objectFormatPFX = true /\
  String.eqb VaultObjectTypeKey VaultObjectTypeSecret = false /\
  validateObjectFormat foldRunes "PFX" VaultObjectTypeKey = Ok tt.
Proof. repeat split. Qed.

(** C4: [getContentBytes] returns the content as it is when the object type
    does not fold to "secret", or the encoding is empty, or the encoding
    folds to "utf-8". *)
Theorem getContentBytes_unchanged (content objectType objectEncoding : string) :
  EqualFold objectType VaultObjectTypeSecret = false \/
  objectEncoding = EmptyString \/
  EqualFold objectEncoding objectEncodingUtf8 = true ->
  getContentBytes foldRunes content objectType objectEncoding = Ok content.
Proof.
  unfold getContentBytes.
  intros [H | [-> | H]].
  - now rewrite H.
  - cbn. now rewrite orb_true_r.
  - rewrite H. now rewrite orb_true_r.
Qed.

(** The object types "key" and "cert" of the source are such types, whatever
    the encoding. *)
Lemma getContentBytes_key_cert (content objectEncoding : string) :
  getContentBytes foldRunes content VaultObjectTypeKey objectEncoding = Ok content /\
  getContentBytes foldRunes content VaultObjectTypeCertificate objectEncoding
  = Ok content.
Proof. split; reflexivity. Qed.

Lemma getContentBytes_base64 (content : string) :
  getContentBytes foldRunes content VaultObjectTypeSecret objectEncodingBase64
  = base64.DecodeString content.
Proof. reflexivity. Qed.

Lemma getContentBytes_hex (content : string) :
  getContentBytes foldRunes content VaultObjectTypeSecret objectEncodingHex
  = hex.DecodeString content.
Proof. reflexivity. Qed.

(** C9: for a secret, decoding with "base64" the standard base64 encoding of
    a byte buffer gives the buffer back, and so does decoding with "hex" its
    hexadecimal encoding. *)
Theorem getContentBytes_round_trip (b : string) :
  getContentBytes foldRunes (base64.EncodeToString b)
    VaultObjectTypeSecret objectEncodingBase64 = Ok b /\
  getContentBytes foldRunes (hex.EncodeToString b)
    VaultObjectTypeSecret objectEncodingHex = Ok b.
Proof.
  rewrite getContentBytes_base64, getContentBytes_hex. split.
  - apply base64_facts.base64_DecodeString_EncodeToString.
  - apply hex_facts.hex_DecodeString_EncodeToString.
Qed.
End NormalizerFacts.

Lemma getContentBytes_unchanged_witness :
  getContentBytes (fun _ _ => false) "-----BEGIN PUBLIC KEY-----"
    VaultObjectTypeKey objectEncodingBase64
  = Ok "-----BEGIN PUBLIC KEY-----".
Proof.
  apply getContentBytes_unchanged. left. reflexivity.
Defined.

(** ** Private keys *)

Section PrivateKeyFacts.
Variables rsaPrivateKey anyPrivateKey ecdsaPrivateKey : Type.
Variable ParsePKCS1 : string -> option rsaPrivateKey.
Variable ParsePKCS8 : string -> option anyPrivateKey.
Variable ParseEC : string -> option ecdsaPrivateKey.

(** C8: [parsePrivateKey] returns the key of the first parser that succeeds,
    in the order PKCS#1, PKCS#8, EC, and fails exactly when all three fail. *)
Theorem parsePrivateKey_first_success (block : string) :
  let r := parsePrivateKey ParsePKCS1 ParsePKCS8 ParseEC block in
  (forall key, ParsePKCS1 block = Some key -> r = Ok (KeyPKCS1 key)) /\
  (forall key, ParsePKCS1 block = None -> ParsePKCS8 block = Some key ->
               r = Ok (KeyPKCS8 key)) /\
  (forall key, ParsePKCS1 block = None -> ParsePKCS8 block = None ->
               ParseEC block = Some key -> r = Ok (KeyEC key)) /\
  (isOk r = false <->
     ParsePKCS1 block = None /\ ParsePKCS8 block = None /\ ParseEC block = None) /\
  (isOk r = false -> r = Err ErrParseKey).
Proof.
  cbv zeta. unfold parsePrivateKey.
  destruct (ParsePKCS1 block), (ParsePKCS8 block), (ParseEC block); cbn;
    repeat split; intros; try congruence; try tauto;
    repeat match goal with H : _ /\ _ |- _ => destruct H end; congruence.
Qed.
End PrivateKeyFacts.

(** ** File names *)

Lemma HasPrefix_Contains (s substr : string) :
  strings.HasPrefix s substr = true -> strings.Contains s substr = true.
Proof. intros H. destruct s; cbn [strings.Contains]; now rewrite H. Qed.

Lemma Contains_cons (c : ascii) (s substr : string) :
  strings.Contains s substr = true -> strings.Contains (String c s) substr = true.
Proof. intros H. cbn [strings.Contains]. rewrite H. apply orb_true_r. Qed.

Lemma Split_nonempty (s : string) (sep : ascii) : strings.Split s sep <> [].
Proof.
  destruct s as [|c s]; cbn; [discriminate|].
  destruct (Ascii.eqb c sep); [discriminate|].
  destruct (strings.Split s sep); discriminate.
Qed.

(** The first element of a split is a prefix of the string. *)
Lemma Split_head_prefix (s : string) (sep : ascii) (item : string) (items : list string) :
  strings.Split s sep = item :: items -> strings.HasPrefix s item = true.
Proof.
  revert item items. induction s as [|c s IH]; intros item items; cbn.
  - intros [= <- <-]. reflexivity.
  - destruct (Ascii.eqb c sep).
    + intros [= <- <-]. reflexivity.
    + destruct (strings.Split s sep) as [|item' items'] eqn:E.
      * intros [= <- <-]. cbn. rewrite Ascii.eqb_refl. now destruct s.
      * intros [= <- <-]. cbn. rewrite Ascii.eqb_refl. cbn. eapply IH. reflexivity.
Qed.

(** A path element [..] is an occurrence of [..] in the path. *)
Lemma Split_dotdot_Contains (s : string) (sep : ascii) :
  In ".." (strings.Split s sep) -> strings.Contains s ".." = true.
Proof.
  induction s as [|c s IH]; cbn [strings.Split].
  - intros [H|[]]. discriminate.
  - destruct (Ascii.eqb c sep).
    + intros [H|H]; [discriminate|]. apply Contains_cons. auto.
    + destruct (strings.Split s sep) as [|item items] eqn:E.
      * intros [H|[]]. discriminate.
      * intros [H|H].
        -- injection H as -> ->. apply HasPrefix_Contains.
           apply Split_head_prefix in E. cbn. exact E.
        -- apply Contains_cons. apply IH. now right.
Qed.

Lemma hasDotDotElement_In (parts : list string) :
  hasDotDotElement parts = true <-> In ".." parts.
Proof.
  induction parts as [|item parts IH]; cbn; [split; [discriminate|tauto]|].
  destruct (String.eqb_spec item "..") as [->|Hne].
  - split; auto.
  - rewrite IH. split; [tauto|]. intros [H|H]; [congruence|trivial].
Qed.

Section ToSlashFacts.
Variable Separator : ascii.

Lemma replaceSeparator_dotdot (s : string) :
  strings.HasPrefix (filepath.replaceSeparator Separator s) ".." = true ->
  strings.HasPrefix s ".." = true.
Proof.
  assert (Hdot : forall c,
             Ascii.eqb (if Ascii.eqb c Separator then "/"%char else c) "."%char = true ->
             Ascii.eqb c "."%char = true).
  { intros c. destruct (Ascii.eqb c Separator); [discriminate|trivial]. }
  destruct s as [|c [|d s]];
    cbn [strings.HasPrefix filepath.replaceSeparator]; try discriminate.
  - now rewrite andb_false_r.
  - intros H. apply andb_true_iff in H as [Hc H].
    apply andb_true_iff in H as [Hd _].
    rewrite (Hdot _ Hc), (Hdot _ Hd). now destruct s.
Qed.

Lemma ToSlash_Contains_dotdot (s : string) :
  strings.Contains (filepath.ToSlash Separator s) ".." = true ->
  strings.Contains s ".." = true.
Proof.
  unfold filepath.ToSlash. destruct (Ascii.eqb Separator "/"%char); [trivial|].
  induction s as [|c s IH]; [trivial|].
  intros H.
  change (filepath.replaceSeparator Separator (String c s))
    with (String (if Ascii.eqb c Separator then "/"%char else c)
                 (filepath.replaceSeparator Separator s)) in H.
  cbn [strings.Contains] in H. apply orb_true_iff in H as [H|H].
  - apply HasPrefix_Contains. apply replaceSeparator_dotdot. exact H.
  - apply Contains_cons. auto.
Qed.
End ToSlashFacts.

Section FileNameFacts.
Variable foldRunes : string -> string -> bool.
Variable Separator : ascii.
Variable IsAbs : string -> bool.
Variable filepath_Join : string -> string -> string.
Variable GetKeyVaultObjectContent : KeyVaultObject -> result (string * string).
Variable os_WriteFile : string -> string -> result unit.
Variable DriverWriteSecrets : bool.
Variable targetPath : string.

Lemma validateFileName_error_iff (fileName : string) :
  isOk (validateFileName Separator IsAbs fileName) = false <->
  fileName = EmptyString \/ IsAbs fileName = true \/
  strings.Contains fileName ".." = true.
Proof.
  unfold validateFileName.
  destruct fileName as [|c s] eqn:E; [cbn; tauto|]. rewrite <- E.
  replace (String.length fileName =? 0)%nat with false by (subst; reflexivity).
  destruct (IsAbs fileName); [cbn; tauto|].
  destruct (hasDotDotElement _) eqn:Hel.
  - apply hasDotDotElement_In, Split_dotdot_Contains,
      ToSlash_Contains_dotdot in Hel. cbn. tauto.
  - destruct (strings.Contains fileName ".."); cbn; [tauto|].
    split; [discriminate|]. intros [H|[H|H]]; congruence.
Qed.

Lemma validateFileName_Ok (fileName : string) :
  validateFileName Separator IsAbs fileName = Ok tt ->
  fileName <> EmptyString /\ IsAbs fileName = false /\
  strings.Contains fileName ".." = false.
Proof.
  intros H. pose proof (validateFileName_error_iff fileName) as [_ Hiff].
  rewrite H in Hiff. cbn in Hiff.
  repeat split.
  - intros ->. enough (true = false) by discriminate. apply Hiff. now left.
  - destruct (IsAbs fileName); [|reflexivity]. apply Hiff. tauto.
  - destruct (strings.Contains fileName ".."); [|reflexivity].
    apply Hiff. tauto.
Qed.

Local Abbreviation mountObject' :=
  (mountObject foldRunes Separator IsAbs filepath_Join
     GetKeyVaultObjectContent os_WriteFile DriverWriteSecrets targetPath).
Local Abbreviation mountObjects' :=
  (mountObjects foldRunes Separator IsAbs filepath_Join
     GetKeyVaultObjectContent os_WriteFile DriverWriteSecrets targetPath).

(** An object that the loop body accepts has a file name that passed
    [validateFileName], and that name is the only one the body adds. *)
Lemma mountObject_fileName (o : KeyVaultObject) (st st' : mountState) :
  mountObject' o st = Ok st' ->
  validateFileName Separator IsAbs (fileNameOf o) = Ok tt /\
  (forall name, is_Some (files st' !! name) ->
                is_Some (files st !! name) \/ name = fileNameOf o) /\
  (forall path content, In (path, content) (written st') ->
     In (path, content) (written st) \/
     path = filepath_Join targetPath (fileNameOf o)).
Proof.
  unfold mountObject.
  destruct (validateObjectFormat _ _ _); [|discriminate].
  destruct (validateObjectEncoding _ _ _); [|discriminate].
  destruct (validateFileName _ _ _) as [[]|] eqn:Hname; [|discriminate].
  destruct (GetKeyVaultObjectContent o) as [[content version]|]; [|discriminate].
  cbn [wrapObjectTypeError bind fst snd].
  destruct (getContentBytes _ _ _ _) as [objectContent|]; [|discriminate].
  cbn [bind]. destruct DriverWriteSecrets; cbn [negb].
  - intros [= <-]. cbn [files written]. repeat split; auto.
    intros name. destruct (decide (fileNameOf o = name)) as [<-|Hne]; auto.
    rewrite lookup_insert_ne by trivial. auto.
  - destruct (os_WriteFile _ _); [|discriminate].
    intros [= <-]. cbn [files written]. repeat split; auto.
    intros path c [[= <- <-]|H]; auto.
Qed.

(** C10: [validateFileName] fails exactly for a name that is empty, is an
    absolute path or contains [..]; a path element [..] is such an
    occurrence; and every file name under which the mount loop stores or
    writes a content is non-empty, relative and free of [..]. *)
Theorem validateFileName_guards_mount (fileName : string) :
  (isOk (validateFileName Separator IsAbs fileName) = false <->
     fileName = EmptyString \/ IsAbs fileName = true \/
     strings.Contains fileName ".." = true) /\
  (In ".." (strings.Split (filepath.ToSlash Separator fileName) "/"%char) ->
     isOk (validateFileName Separator IsAbs fileName) = false) /\
  (forall keyVaultObjects st st',
     mountObjects' keyVaultObjects st = Ok st' ->
     Forall (fun o => validateFileName Separator IsAbs (fileNameOf o) = Ok tt)
            keyVaultObjects /\
     (forall name, is_Some (files st' !! name) ->
        is_Some (files st !! name) \/
        (name <> EmptyString /\ IsAbs name = false /\
         strings.Contains name ".." = false)) /\
     (forall path content, In (path, content) (written st') ->
        In (path, content) (written st) \/
        exists name, path = filepath_Join targetPath name /\
          name <> EmptyString /\ IsAbs name = false /\
          strings.Contains name ".." = false)).
Proof.
  split; [apply validateFileName_error_iff|]. split.
  - intros H. apply validateFileName_error_iff. right. right.
    now apply Split_dotdot_Contains, ToSlash_Contains_dotdot in H.
  - clear fileName. induction keyVaultObjects as [|o os IH]; intros st st'.
    + intros [= <-]. repeat split; auto.
    + cbn [mountObjects].
      destruct (mountObject _ _ _ _ _ _ _ _ o st) as [st1|] eqn:H1;
        [|discriminate].
      cbn [bind]. intros H2.
      apply mountObject_fileName in H1 as (Hname & Hfiles & Hwritten).
      apply IH in H2 as (Hall & Hfiles' & Hwritten').
      repeat split.
      * now constructor.
      * intros name Hn. apply Hfiles' in Hn as [Hn|Hn]; [|now right].
        apply Hfiles in Hn as [Hn| ->]; [now left|right].
        now apply validateFileName_Ok.
      * intros path content Hin.
        apply Hwritten' in Hin as [Hin|Hin]; [|now right].
        apply Hwritten in Hin as [Hin| ->]; [now left|right].
        exists (fileNameOf o). split; [reflexivity|].
        now apply validateFileName_Ok.
Qed.
End FileNameFacts.

(** ** The chain assembler *)

(** *** The linking loops keep the certificates and the length *)

Lemma alter_certs (g : node -> node) (i : nat) (nodes : list node) :
  (forall n, cert (g n) = cert n) ->
  cert <$> alter g i nodes = cert <$> nodes.
Proof.
  intros Hg. revert i.
  induction nodes as [|n nodes IH]; intros [|i]; cbn; trivial.
  - now rewrite Hg.
  - f_equal. apply IH.
Qed.

Lemma link_certs (i j : nat) (nodes : list node) :
  cert <$> link i j nodes = cert <$> nodes.
Proof.
  unfold link. now rewrite !alter_certs.
Qed.

Lemma findParent_certs (i : nat) (js : list nat) (nodes : list node) :
  cert <$> findParent i js nodes = cert <$> nodes.
Proof.
  induction js as [|j js IH]; cbn [findParent]; [reflexivity|].
  destruct (i =? j)%nat; [exact IH|].
  destruct (nodes !! i); [|exact IH].
  destruct (nodes !! j); [|exact IH].
  destruct (String.eqb _ _); [apply link_certs | exact IH].
Qed.

Lemma linkFrom_certs (idxs : list nat) (n : nat) (nodes : list node) :
  cert <$> linkFrom idxs n nodes = cert <$> nodes.
Proof.
  revert nodes. induction idxs as [|i idxs IH]; intros nodes; cbn [linkFrom].
  - reflexivity.
  - now rewrite IH, findParent_certs.
Qed.

Lemma linkNodes_certs (certs : list Certificate) :
  cert <$> linkNodes (map newNode certs) = certs.
Proof.
  unfold linkNodes. rewrite linkFrom_certs.
  induction certs as [|c certs IH]; cbn; [reflexivity|]. now f_equal.
Qed.

Lemma linkNodes_length (certs : list Certificate) :
  length (linkNodes (map newNode certs)) = length certs.
Proof.
  rewrite <- (linkNodes_certs certs) at 2. now rewrite length_fmap.
Qed.

Lemma linkNodes_lookup (certs : list Certificate) (i : nat) (ni : node) :
  linkNodes (map newNode certs) !! i = Some ni -> certs !! i = Some (cert ni).
Proof.
  intros H. rewrite <- (linkNodes_certs certs), list_lookup_fmap, H.
  reflexivity.
Qed.

(** *** The walk follows a path of parents *)

Lemma path_functional (nodes : list node) (leaf : option nat) (idxs idxs' : list nat) :
  path nodes leaf idxs -> path nodes leaf idxs' -> idxs = idxs'.
Proof.
  intros H. revert idxs'.
  induction H as [|l nl idxs Hl _ IH]; intros idxs' H'; inversion H'; subst.
  - reflexivity.
  - f_equal. apply IH. congruence.
Qed.

Lemma path_suffix (nodes : list node) (leaf : option nat) (idxs : list nat) :
  path nodes leaf idxs ->
  forall before l after, idxs = before ++ l :: after ->
  path nodes (Some l) (l :: after).
Proof.
  induction 1 as [|l nl idxs Hl Hp IH]; intros before l' after E.
  - now destruct before.
  - destruct before as [|b before]; cbn in E; injection E as -> ->.
    + econstructor; eassumption.
    + eapply IH. reflexivity.
Qed.

(** A path that ends visits no node twice: from a node met again the same
    path would start over, and be longer than itself. *)
Lemma path_NoDup (nodes : list node) (leaf : option nat) (idxs : list nat) :
  path nodes leaf idxs -> NoDup idxs.
Proof.
  induction 1 as [|l nl idxs Hl Hp IH]; constructor; [|exact IH].
  intros Hin. apply list_elem_of_In, in_split in Hin as (before & after & E).
  pose proof (path_suffix _ _ _ Hp _ _ _ E) as Hagain.
  inversion Hagain as [|? nl' ? Hl' Hp']; subst.
  assert (nl' = nl) as -> by congruence.
  pose proof (path_functional _ _ _ _ Hp Hp') as E'.
  apply (f_equal length) in E'. rewrite length_app in E'. cbn in E'. lia.
Qed.

(** What a walk that succeeds returns. *)
Lemma walk_Ok (fuel : nat) (nodes : list node) (leaf : option nat)
  (processedNodes : nat) (acc chain : list Certificate) :
  walk fuel nodes leaf processedNodes acc = Some (Ok chain) ->
  (processedNodes <= length nodes)%nat ->
  exists idxs rest,
    path nodes leaf idxs /\
    chain = acc ++ rest /\
    Forall2 (fun i c => cert <$> nodes !! i = Some c) idxs rest /\
    (processedNodes + length idxs <= length nodes)%nat.
Proof.
  revert leaf processedNodes acc.
  induction fuel as [|fuel IH]; intros leaf p acc; cbn [walk].
  - destruct leaf; [discriminate|]. intros [= <-] Hp.
    exists [], []. rewrite app_nil_r. cbn.
    repeat split; try constructor; lia.
  - destruct leaf as [l|].
    + destruct (Nat.ltb_spec (length nodes) (S p)); [discriminate|].
      destruct (nodes !! l) as [nl|] eqn:Hl; [|discriminate].
      intros Hw _. apply IH in Hw as (idxs & rest & Hpath & -> & Hrest & Hlen);
        [|lia].
      exists (l :: idxs), (cert nl :: rest). repeat split.
      * econstructor; eassumption.
      * now rewrite <- app_assoc.
      * constructor; [now rewrite Hl | exact Hrest].
      * cbn. lia.
    + intros [= <-] Hp. exists [], []. rewrite app_nil_r. cbn.
      repeat split; try constructor; lia.
Qed.

(** Certificates taken at distinct positions of a duplicate-free list are
    distinct. *)
Lemma lookups_NoDup (certs : list Certificate) (idxs : list nat)
  (chain : list Certificate) :
  Forall2 (fun i c => certs !! i = Some c) idxs chain ->
  NoDup idxs -> NoDup certs -> NoDup chain.
Proof.
  intros H Hidxs Hcerts.
  induction H as [|i c idxs chain Hi H IH]; [constructor|].
  apply NoDup_cons in Hidxs as [Hni Hidxs].
  constructor; [|auto].
  intros Hin. apply Hni.
  apply list_elem_of_lookup in Hin as [k Hk].
  destruct (Forall2_lookup_r _ _ _ _ _ H Hk) as (j & Hj & Hjc).
  rewrite (NoDup_lookup certs i j c Hcerts Hi Hjc).
  eapply list_elem_of_lookup_2. exact Hj.
Qed.

(** C6: a chain that [fetchCertChains] returns is no longer than the input
    and takes its certificates from pairwise distinct positions of the
    input; so it holds no certificate twice when the input, a set of
    certificates, holds none twice. *)
Theorem assembleChain_no_repeat (certs chain : list Certificate) :
  assembleChain certs = Some (Ok chain) ->
  (length chain <= length certs)%nat /\
  (exists idxs, NoDup idxs /\
                Forall2 (fun i c => certs !! i = Some c) idxs chain) /\
  (NoDup certs -> NoDup chain).
Proof.
  unfold assembleChain. set (nodes := linkNodes (map newNode certs)).
  destruct (findLeaf _ nodes) as [leaf|]; [|discriminate].
  intros Hw. apply walk_Ok in Hw as (idxs & rest & Hpath & -> & Hrest & Hlen);
    [|lia].
  cbn [app] in *. subst nodes. rewrite linkNodes_length in Hlen.
  assert (Hlookup : Forall2 (fun i c => certs !! i = Some c) idxs rest).
  { eapply Forall2_impl; [exact Hrest|]. cbn. intros i c Hi.
    destruct (linkNodes _ !! i) as [ni|] eqn:E; [|discriminate].
    apply linkNodes_lookup in E. cbn in Hi. congruence. }
  pose proof (path_NoDup _ _ _ Hpath) as Hnd.
  repeat split.
  - rewrite <- (Forall2_length _ _ _ Hlookup). lia.
  - exists idxs. now split.
  - intros Hcerts. eapply lookups_NoDup; eassumption.
Qed.

(** *** The walk ends: the model never runs out of fuel *)

Lemma link_parentsInRange (n i j : nat) (nodes : list node) :
  (j < n)%nat -> parentsInRange n nodes -> parentsInRange n (link i j nodes).
Proof.
  intros Hj H. unfold link, parentsInRange.
  apply Forall_alter; [apply Forall_alter; [exact H|]|].
  - intros nd _ Hnd. exact Hnd.
  - intros nd _ _ p [= <-]. exact Hj.
Qed.

Lemma findParent_parentsInRange (i : nat) (js : list nat) (nodes : list node) :
  parentsInRange (length nodes) nodes ->
  parentsInRange (length nodes) (findParent i js nodes).
Proof.
  intros H. induction js as [|j js IH]; cbn [findParent]; [exact H|].
  destruct (i =? j)%nat; [exact IH|].
  destruct (nodes !! i); [|exact IH].
  destruct (nodes !! j) eqn:Hj; [|exact IH].
  destruct (String.eqb _ _); [|exact IH].
  apply link_parentsInRange; [|exact H].
  eapply lookup_lt_Some. exact Hj.
Qed.

Lemma findParent_length (i : nat) (js : list nat) (nodes : list node) :
  length (findParent i js nodes) = length nodes.
Proof.
  rewrite <- (length_fmap cert), findParent_certs. apply length_fmap.
Qed.

Lemma linkFrom_parentsInRange (idxs : list nat) (n : nat) (nodes : list node) :
  parentsInRange (length nodes) nodes ->
  parentsInRange (length nodes) (linkFrom idxs n nodes).
Proof.
  revert nodes. induction idxs as [|i idxs IH]; intros nodes H; [exact H|].
  cbn [linkFrom].
  rewrite <- (findParent_length i (seq 0 n) nodes).
  apply IH. rewrite findParent_length.
  now apply findParent_parentsInRange.
Qed.

Lemma linkNodes_parentsInRange (certs : list Certificate) :
  let nodes := linkNodes (map newNode certs) in
  parentsInRange (length nodes) nodes.
Proof.
  cbv zeta. rewrite linkNodes_length. unfold linkNodes.
  rewrite <- (length_map newNode certs) at 1.
  apply linkFrom_parentsInRange. apply Forall_forall.
  intros nd Hin p Hp. apply list_elem_of_In, in_map_iff in Hin as (c & <- & _).
  discriminate.
Qed.

Lemma findLeaf_Some (idxs : list nat) (nodes : list node) (leaf : nat) :
  findLeaf idxs nodes = Some leaf ->
  exists nl, nodes !! leaf = Some nl /\ isParent nl = false.
Proof.
  induction idxs as [|i idxs IH]; cbn [findLeaf]; [discriminate|].
  destruct (nodes !! i) as [ni|] eqn:Hi; [|exact IH].
  destruct (isParent ni) eqn:Hp; cbn [negb]; [exact IH|].
  intros [= <-]. eauto.
Qed.

Lemma walk_total (fuel : nat) (nodes : list node) (leaf : option nat)
  (processedNodes : nat) (acc : list Certificate) :
  parentsInRange (length nodes) nodes ->
  (forall l, leaf = Some l -> l < length nodes)%nat ->
  (processedNodes <= length nodes < fuel + processedNodes)%nat ->
  exists r, walk fuel nodes leaf processedNodes acc = Some r.
Proof.
  intros Hrange. revert leaf processedNodes acc.
  induction fuel as [|fuel IH]; intros leaf p acc Hleaf Hp; [lia|].
  cbn [walk]. destruct leaf as [l|]; [|eauto].
  destruct (Nat.ltb_spec (length nodes) (S p)); [eauto|].
  destruct (lookup_lt_is_Some_2 nodes l (Hleaf l eq_refl)) as [nl Hl].
  rewrite Hl. apply IH; [|lia].
  intros q Hq. eapply Forall_lookup_1 in Hrange; [|exact Hl]. auto.
Qed.

(** [fetchCertChains] returns for every set of certificates: the loop over
    the parents ends after at most one iteration more than there are
    nodes. *)
Lemma assembleChain_total (certs : list Certificate) :
  exists r, assembleChain certs = Some r.
Proof.
  unfold assembleChain.
  pose proof (linkNodes_parentsInRange certs) as Hrange. cbv zeta in Hrange.
  set (nodes := linkNodes (map newNode certs)) in *.
  destruct (findLeaf _ nodes) as [leaf|] eqn:Hleaf; [|eauto].
  apply walk_total; [exact Hrange| |lia].
  intros l [= <-]. apply findLeaf_Some in Hleaf as (nl & Hl & _).
  eapply lookup_lt_Some. exact Hl.
Qed.

(** *** Small inputs *)

Lemma Permutation_three {A : Type} (a b c : A) (l : list A) :
  Permutation l [a; b; c] ->
  l = [a; b; c] \/ l = [a; c; b] \/ l = [b; a; c] \/
  l = [b; c; a] \/ l = [c; a; b] \/ l = [c; b; a].
Proof.
  intros H.
  destruct (Permutation_vs_cons_inv H) as (l1 & l2 & ->).
  apply Permutation_sym, Permutation_cons_app_inv, Permutation_length_2_inv in H.
  destruct l1 as [|x [|y [|z l1]]]; destruct H as [H|H]; cbn in H;
    simplify_eq; cbn; tauto.
Qed.

(** C5: a single certificate, self-signed or not, is returned as the chain
    of that one certificate. *)
Theorem assembleChain_single (c : Certificate) :
  assembleChain [c] = Some (Ok [c]).
Proof. reflexivity. Qed.

(** C1 (as the code has it): two certificates that name each other as
    issuer leave no node that is nobody's parent; [fetchCertChains] returns
    the error "no leaf found", before the walk that guards against cycles. *)
Theorem assembleChain_mutual_issuers (p q : Certificate) :
  AuthorityKeyId p = SubjectKeyId q ->
  AuthorityKeyId q = SubjectKeyId p ->
  assembleChain [p; q] = Some (Err ErrNoLeafFound).
Proof.
  intros Hp Hq. unfold assembleChain, linkNodes.
  cbn. rewrite Hp, String.eqb_refl. cbn. rewrite Hq, String.eqb_refl. cbn.
  reflexivity.
Qed.

(** C3: a leaf, its intermediate and the self-signed root of the
    intermediate, with three distinct subject key identifiers, come out as
    leaf, intermediate, root from every order of the input. *)
Theorem assembleChain_three (a b c : Certificate) (l : list Certificate) :
  Permutation l [a; b; c] ->
  AuthorityKeyId a = SubjectKeyId b ->
  AuthorityKeyId b = SubjectKeyId c ->
  AuthorityKeyId c = SubjectKeyId c ->
  SubjectKeyId a <> SubjectKeyId b ->
  SubjectKeyId a <> SubjectKeyId c ->
  SubjectKeyId b <> SubjectKeyId c ->
  assembleChain l = Some (Ok [a; b; c]).
Proof.
  intros Hl Ha Hb Hc Hab Hac Hbc.
  assert (Hba : SubjectKeyId b <> SubjectKeyId a) by congruence.
  assert (Hca : SubjectKeyId c <> SubjectKeyId a) by congruence.
  assert (Hcb : SubjectKeyId c <> SubjectKeyId b) by congruence.
  apply String.eqb_neq in Hab, Hac, Hbc, Hba, Hca, Hcb.
  apply Permutation_three in Hl.
  unfold assembleChain, linkNodes.
  destruct Hl as [->|[->|[->|[->|[->| ->]]]]]; cbn;
    repeat (rewrite ?Ha, ?Hb, ?Hc, ?String.eqb_refl,
              ?Hab, ?Hac, ?Hbc, ?Hba, ?Hca, ?Hcb; cbn);
    reflexivity.
Qed.

Lemma assembleChain_mutual_issuers_witness :
  assembleChain [Examples.crossP; Examples.crossQ] = Some (Err ErrNoLeafFound).
Proof.
  apply assembleChain_mutual_issuers; reflexivity.
Defined.

(** C1 (the claim as stated fails): the two certificates name each other as
    issuer, and the error is "no leaf found", not the cycle error. *)
Lemma assembleChain_mutual_issuers_no_cycle_error :
  AuthorityKeyId Examples.crossP = SubjectKeyId Examples.crossQ /\
  AuthorityKeyId Examples.crossQ = SubjectKeyId Examples.crossP /\
  assembleChain [Examples.crossP; Examples.crossQ] = Some (Err ErrNoLeafFound) /\
  assembleChain [Examples.crossP; Examples.crossQ] <> Some (Err ErrCycle).
Proof.
  repeat split. vm_compute. discriminate.
Qed.

(** The cycle error is what a leaf that hangs on such a pair gets. *)
Example assembleChain_cycle_behind_leaf :
  assembleChain [Examples.crossLeaf; Examples.crossP; Examples.crossQ]
  = Some (Err ErrCycle).
Proof. reflexivity. Qed.

Lemma assembleChain_three_witness :
  assembleChain [Examples.root; Examples.leaf; Examples.intermediate]
  = Some (Ok [Examples.leaf; Examples.intermediate; Examples.root]).
Proof.
  apply assembleChain_three; try reflexivity; try discriminate.
  apply (Permutation_cons_append [Examples.leaf; Examples.intermediate]
           Examples.root).
Defined.

Lemma assembleChain_no_repeat_witness :
  let certs := [Examples.root; Examples.leaf; Examples.intermediate] in
  let chain := [Examples.leaf; Examples.intermediate; Examples.root] in
  (length chain <= length certs)%nat /\
  (exists idxs, NoDup idxs /\
                Forall2 (fun i c => certs !! i = Some c) idxs chain) /\
  (NoDup certs -> NoDup chain).
Proof.
  apply assembleChain_no_repeat. reflexivity.
Defined.

(** When the input holds a certificate twice, the two copies are two nodes,
    and both can be on the path. *)
Example assembleChain_repeated_input :
  assembleChain [Examples.twin; Examples.rekeyed; Examples.twin]
  = Some (Ok [Examples.twin; Examples.twin; Examples.rekeyed]).
Proof. reflexivity. Qed.

(** ** The container extractor *)

Lemma append_nil_r (s : string) : s +:+ EmptyString = s.
Proof.
  induction s as [|c s IH]; [reflexivity|].
  change (String c (s +:+ EmptyString) = String c s). now rewrite IH.
Qed.

Lemma append_assoc (s t u : string) : (s +:+ t) +:+ u = s +:+ (t +:+ u).
Proof.
  induction s as [|c s IH]; [reflexivity|].
  change (String c ((s +:+ t) +:+ u) = String c (s +:+ (t +:+ u))).
  now rewrite IH.
Qed.

Lemma encodeChain_encodeBlocks (encode : Block -> string)
  (chain : list Certificate) (pemData : string) :
  encodeChain encode chain pemData
  = pemData +:+ encodeBlocks encode (map certBlock chain).
Proof.
  revert pemData. induction chain as [|c chain IH]; intros pemData; cbn.
  - now rewrite append_nil_r.
  - now rewrite IH, append_assoc.
Qed.

(** *** From the PEM input to the chain *)

Section ParsedInput.
Variable Decode : string -> option (Block * string).
Variable ParseCertificate : string -> result (option Certificate).
Variable EncodeToMemory : Block -> string.

(** [pem.Decode] returns a rest that is shorter than its input when it
    finds a block. *)
Hypothesis Decode_consumes : forall data block rest,
  Decode data = Some (block, rest) ->
  (String.length rest < String.length data)%nat.

Lemma parseNodes_total (fuel : nat) (data : string) (certs : list Certificate) :
  (String.length data < fuel)%nat ->
  exists r, parseNodes Decode ParseCertificate fuel data certs = Some r.
Proof.
  revert data certs. induction fuel as [|fuel IH]; intros data certs Hfuel;
    [lia|].
  cbn [parseNodes]. destruct (Decode data) as [[block rest]|] eqn:HD; [|eauto].
  destruct (ParseCertificate (Bytes block)) as [[c|]|]; eauto.
  apply IH. apply Decode_consumes in HD. lia.
Qed.

(** [fetchCertChains] returns on every input. *)
Lemma fetchCertChains_total (data : string) :
  exists r, fetchCertChains Decode ParseCertificate EncodeToMemory data = Some r.
Proof.
  unfold fetchCertChains.
  destruct (parseNodes_total (S (String.length data)) data [] ltac:(lia))
    as [[certs|e] ->]; [|eauto].
  destruct (assembleChain_total certs) as [[chain|e] ->]; eauto.
Qed.
End ParsedInput.

Lemma append_nil_l (s : string) : EmptyString +:+ s = s.
Proof. reflexivity. Qed.

(** What [fetchCertChains] returns once its input is parsed to [certs]:
    the PEM text of the chain assembled from them. *)
Lemma fetchCertChains_parsed (Decode : string -> option (Block * string))
  (ParseCertificate : string -> result (option Certificate))
  (EncodeToMemory : Block -> string) (data : string) (certs : list Certificate) :
  parseNodes Decode ParseCertificate (S (String.length data)) data []
  = Some (Ok certs) ->
  fetchCertChains Decode ParseCertificate EncodeToMemory data
  = match assembleChain certs with
    | None => None
    | Some (Err e) => Some (Err e)
    | Some (Ok chain) =>
        Some (Ok (encodeBlocks EncodeToMemory (map certBlock chain)))
    end.
Proof.
  intros H. unfold fetchCertChains. rewrite H.
  destruct (assembleChain certs) as [[chain|e]|]; trivial.
  now rewrite encodeChain_encodeBlocks.
Qed.

Section ExtractorFacts.
Variables rsaPrivateKey anyPrivateKey ecdsaPrivateKey : Type.
Variable ParsePKCS1 : string -> option rsaPrivateKey.
Variable ParsePKCS8 : string -> option anyPrivateKey.
Variable ParseEC : string -> option ecdsaPrivateKey.
Variable MarshalPKCS8 :
  privateKey rsaPrivateKey anyPrivateKey ecdsaPrivateKey -> result string.
Variable ToPEM : string -> string -> result (list Block).
Variable Decode : string -> option (Block * string).
Variable ParseCertificate : string -> result (option Certificate).
Variable EncodeToMemory : Block -> string.
Variable ConstructPEMChain : bool.

Local Abbreviation emittedKey' :=
  (emittedKey ParsePKCS1 ParsePKCS8 ParseEC MarshalPKCS8).

Lemma splitBlocks_streams (pemBlock : list Block)
  (pemKeyData pemCertData keys certs : string) :
  splitBlocks ParsePKCS1 ParsePKCS8 ParseEC MarshalPKCS8 EncodeToMemory
    pemBlock pemKeyData pemCertData = Ok (keys, certs) ->
  exists keyBlocks,
    Forall2 emittedKey'
      (List.filter (fun b => negb (isCertificate b)) pemBlock) keyBlocks /\
    keys = pemKeyData +:+ encodeBlocks EncodeToMemory keyBlocks /\
    certs = pemCertData +:+
            encodeBlocks EncodeToMemory
              (map clearHeaders (List.filter isCertificate pemBlock)).
Proof.
  revert pemKeyData pemCertData keys certs.
  induction pemBlock as [|b rest IH]; intros kd cd keys certs;
    cbn [splitBlocks].
  - intros [= <- <-]. exists []. cbn. rewrite !append_nil_r.
    repeat split. constructor.
  - cbv zeta. change (Type' (clearHeaders b)) with (Type' b).
    change (Bytes (clearHeaders b)) with (Bytes b).
    change (String.eqb (Type' b) certificateType) with (isCertificate b).
    cbn [List.filter].
    destruct (isCertificate b); cbn [negb].
    + intros H. apply IH in H as (keyBlocks & HF & -> & ->).
      exists keyBlocks. repeat split; trivial.
      cbn [map encodeBlocks]. now rewrite append_assoc.
    + destruct (parsePrivateKey _ _ _ _) as [key|] eqn:Hkey; [|discriminate].
      cbn [bind]. destruct (MarshalPKCS8 key) as [der|] eqn:Hder; [|discriminate].
      cbn [bind]. intros H. apply IH in H as (keyBlocks & HF & -> & ->).
      exists ({| Type' := Type' b; Headers := ∅; Bytes := der |} :: keyBlocks).
      repeat split; trivial.
      * constructor; [|exact HF]. exists key, der. auto.
      * cbn [encodeBlocks]. now rewrite append_assoc.
Qed.

(** C7 (as the code has it): the output is the PEM text of the private key
    blocks, each marshalled as PKCS#8, followed by the PEM text of
    certificate blocks; every block is emitted without headers.  The
    certificate blocks are all those of the container when
    [construct-pem-chain] is off, and those of the chain that
    [fetchCertChains] builds from them when it is on. *)
Theorem decodePKCS12_keys_then_certificates (value out : string) :
  decodePKCS12 ParsePKCS1 ParsePKCS8 ParseEC MarshalPKCS8 ToPEM Decode
    ParseCertificate EncodeToMemory ConstructPEMChain value = Some (Ok out) ->
  exists pfxRaw pemBlock keyBlocks certBlocks,
    base64.DecodeString value = Ok pfxRaw /\
    ToPEM pfxRaw EmptyString = Ok pemBlock /\
    Forall2 emittedKey'
      (List.filter (fun b => negb (isCertificate b)) pemBlock) keyBlocks /\
    out = encodeBlocks EncodeToMemory keyBlocks +:+
          encodeBlocks EncodeToMemory certBlocks /\
    Forall (fun b => Headers b = ∅) (keyBlocks ++ certBlocks) /\
    Forall (fun b => isCertificate b = true) certBlocks /\
    (ConstructPEMChain = false ->
       certBlocks = map clearHeaders (List.filter isCertificate pemBlock)) /\
    (ConstructPEMChain = true ->
       exists chain,
         certBlocks = map certBlock chain /\
         fetchCertChains Decode ParseCertificate EncodeToMemory
           (encodeBlocks EncodeToMemory
              (map clearHeaders (List.filter isCertificate pemBlock)))
         = Some (Ok (encodeBlocks EncodeToMemory certBlocks))).
Proof.
  unfold decodePKCS12.
  destruct (base64.DecodeString value) as [pfxRaw|]; [|discriminate].
  destruct (ToPEM pfxRaw EmptyString) as [pemBlock|] eqn:HToPEM; [|discriminate].
  destruct (splitBlocks _ _ _ _ _ pemBlock _ _) as [[keys certs]|] eqn:Hsplit;
    [|discriminate].
  apply splitBlocks_streams in Hsplit as (keyBlocks & HF & -> & ->).
  rewrite !append_nil_l.
  assert (Hkeys : Forall (fun b => Headers b = ∅) keyBlocks).
  { clear -HF. induction HF as [|b kb bs kbs (key & der & _ & _ & ->) _ IH];
      constructor; trivial. }
  set (certs := map clearHeaders (List.filter isCertificate pemBlock)).
  assert (Hheaders : Forall (fun b => Headers b = ∅) certs).
  { apply Forall_forall. intros b Hb.
    now apply list_elem_of_In, in_map_iff in Hb as (b' & <- & _). }
  assert (Hcerts : Forall (fun b => isCertificate b = true) certs).
  { apply Forall_forall. intros b Hb.
    apply list_elem_of_In, in_map_iff in Hb as (b' & <- & Hb').
    now apply filter_In in Hb'. }
  destruct ConstructPEMChain.
  - destruct (fetchCertChains _ _ _ _) as [[stream|]|] eqn:Hfetch;
      try discriminate.
    intros [= <-].
    assert (exists chain, stream = encodeBlocks EncodeToMemory (map certBlock chain))
      as [chain ->].
    { unfold fetchCertChains in Hfetch.
      destruct (parseNodes _ _ _ _ _) as [[parsed|]|]; try discriminate.
      destruct (assembleChain parsed) as [[chain|]|]; try discriminate.
      injection Hfetch as <-. exists chain.
      now rewrite encodeChain_encodeBlocks, append_nil_l. }
    exists pfxRaw, pemBlock, keyBlocks, (map certBlock chain).
    repeat split; trivial; try discriminate.
    + apply Forall_app. split; [exact Hkeys|].
      apply Forall_forall. intros b Hb.
      now apply list_elem_of_In, in_map_iff in Hb as (c & <- & _).
    + apply Forall_forall. intros b Hb.
      now apply list_elem_of_In, in_map_iff in Hb as (c & <- & _).
    + intros _. exists chain. split; [reflexivity|exact Hfetch].
  - intros [= <-]. exists pfxRaw, pemBlock, keyBlocks, certs.
    repeat split; trivial; try discriminate.
    apply Forall_app. tauto.
Qed.
End ExtractorFacts.

Lemma decodePKCS12_keys_then_certificates_witness :
  exists pfxRaw pemBlock keyBlocks certBlocks,
    base64.DecodeString Container.value = Ok pfxRaw /\
    Container.ToPEM pfxRaw EmptyString = Ok pemBlock /\
    Container.EncodeToMemory Container.pkcs8Block +:+
    Container.EncodeToMemory (clearHeaders Container.blockX) +:+
    Container.EncodeToMemory (clearHeaders Container.blockY)
    = encodeBlocks Container.EncodeToMemory keyBlocks +:+
      encodeBlocks Container.EncodeToMemory certBlocks /\
    Forall (fun b => Headers b = ∅) (keyBlocks ++ certBlocks) /\
    certBlocks = map clearHeaders (List.filter isCertificate pemBlock).
Proof.
  assert (H : Container.decode false Container.value
              = Some (Ok (Container.EncodeToMemory Container.pkcs8Block +:+
                          Container.EncodeToMemory (clearHeaders Container.blockX) +:+
                          Container.EncodeToMemory (clearHeaders Container.blockY))))
    by (vm_compute; reflexivity).
  apply decodePKCS12_keys_then_certificates in H
    as (pfxRaw & pemBlock & keyBlocks & certBlocks
        & H1 & H2 & _ & H4 & H5 & _ & H7 & _).
  exists pfxRaw, pemBlock, keyBlocks, certBlocks. repeat split; auto.
Defined.

(** C7 (the claim as stated fails): with [construct-pem-chain] on, a
    container with a key and two unrelated certificates gives the key and
    the first certificate only. *)
Lemma decodePKCS12_chain_omits_certificate :
  base64.DecodeString Container.value = Ok Container.pfxRaw /\
  Container.ToPEM Container.pfxRaw EmptyString
  = Ok [Container.keyBlock; Container.blockX; Container.blockY] /\
  Container.decode true Container.value
  = Some (Ok (Container.EncodeToMemory Container.pkcs8Block +:+
              Container.EncodeToMemory (clearHeaders Container.blockX))) /\
  Container.decode true Container.value
  <> Some (Ok (Container.EncodeToMemory Container.pkcs8Block +:+
               Container.EncodeToMemory (clearHeaders Container.blockX) +:+
               Container.EncodeToMemory (clearHeaders Container.blockY))).
Proof.
  repeat split; try (vm_compute; reflexivity).
  vm_compute. discriminate.
Qed.

(** ** The chain assembler, in terms of the certificates *)

(** ** The chain assembler: which issuer, which leaf, which chain *)

Lemma findParent_firstIssuer (i : nat) (js : list nat) (nodes : list node) :
  findParent i js nodes
  = match firstIssuer (cert <$> nodes) i js with
    | Some j => link i j nodes
    | None => nodes
    end.
Proof.
  induction js as [|j js IH]; cbn [findParent firstIssuer]; [reflexivity|].
  destruct (i =? j)%nat; [exact IH|].
  rewrite !list_lookup_fmap.
  destruct (nodes !! i) as [ni|]; cbn [fmap option_fmap option_map]; [|exact IH].
  destruct (nodes !! j) as [nj|]; cbn [fmap option_fmap option_map]; [|exact IH].
  destruct (String.eqb _ _); [reflexivity|exact IH].
Qed.

(** What [firstIssuer] finds over a range of positions. *)
Lemma firstIssuer_seq_Some (certs : list Certificate) (i j a n : nat) :
  firstIssuer certs i (seq a n) = Some j ->
  (a <= j < a + n)%nat /\ i <> j /\
  exists ci cj,
    certs !! i = Some ci /\ certs !! j = Some cj /\
    AuthorityKeyId ci = SubjectKeyId cj /\
    forall j' cj', (a <= j' < j)%nat -> j' <> i -> certs !! j' = Some cj' ->
                   SubjectKeyId cj' <> AuthorityKeyId ci.
Proof.
  revert a. induction n as [|n IH]; intros a; cbn [seq firstIssuer];
    [discriminate|].
  assert (Hrec : firstIssuer certs i (seq (S a) n) = Some j ->
                 (forall ci ca, certs !! i = Some ci -> certs !! a = Some ca ->
                                a <> i -> SubjectKeyId ca <> AuthorityKeyId ci) ->
                 (a <= j < a + S n)%nat /\ i <> j /\
                 exists ci cj,
                   certs !! i = Some ci /\ certs !! j = Some cj /\
                   AuthorityKeyId ci = SubjectKeyId cj /\
                   forall j' cj', (a <= j' < j)%nat -> j' <> i ->
                                  certs !! j' = Some cj' ->
                                  SubjectKeyId cj' <> AuthorityKeyId ci).
  { intros H Ha. apply IH in H as (Hr & Hne & ci & cj & Hi & Hj & E & Hb).
    split; [lia|]. split; [exact Hne|]. exists ci, cj. repeat split; trivial.
    intros j' cj' Hj' Hne' Hl.
    destruct (Nat.eq_dec j' a) as [->|]; [now apply (Ha ci cj')|].
    apply (Hb j'); trivial. lia. }
  destruct (Nat.eqb_spec i a) as [->|Hia].
  - intros H. apply Hrec; trivial. congruence.
  - destruct (certs !! i) as [ci|] eqn:Hi.
    2:{ intros H. apply Hrec; trivial. discriminate. }
    destruct (certs !! a) as [ca|] eqn:Ha.
    2:{ intros H. apply Hrec; trivial. discriminate. }
    destruct (String.eqb_spec (AuthorityKeyId ci) (SubjectKeyId ca)) as [E|E].
    + intros [= <-]. split; [lia|]. split; [exact Hia|].
      exists ci, ca. repeat split; trivial. intros; lia.
    + intros H. apply Hrec; trivial. intros ci' ca' [= <-] [= <-] _. congruence.
Qed.

Lemma firstIssuer_seq_None (certs : list Certificate) (i a n : nat) :
  firstIssuer certs i (seq a n) = None ->
  forall ci j cj, (a <= j < a + n)%nat -> j <> i ->
    certs !! i = Some ci -> certs !! j = Some cj ->
    SubjectKeyId cj <> AuthorityKeyId ci.
Proof.
  revert a. induction n as [|n IH]; intros a; cbn [seq firstIssuer];
    [intros; lia|].
  assert (Hrec : firstIssuer certs i (seq (S a) n) = None ->
                 (forall ci ca, certs !! i = Some ci -> certs !! a = Some ca ->
                                a <> i -> SubjectKeyId ca <> AuthorityKeyId ci) ->
                 forall ci j cj, (a <= j < a + S n)%nat -> j <> i ->
                   certs !! i = Some ci -> certs !! j = Some cj ->
                   SubjectKeyId cj <> AuthorityKeyId ci).
  { intros H Ha ci j cj Hj Hne Hi Hl.
    destruct (Nat.eq_dec j a) as [->|]; [now apply (Ha ci cj)|].
    apply (IH _ H ci j cj); trivial. lia. }
  destruct (Nat.eqb_spec i a) as [->|Hia].
  - intros H. apply Hrec; trivial. congruence.
  - destruct (certs !! i) as [ci|] eqn:Hi.
    2:{ intros H. apply Hrec; trivial. discriminate. }
    destruct (certs !! a) as [ca|] eqn:Ha.
    2:{ intros H. apply Hrec; trivial. discriminate. }
    destruct (String.eqb_spec (AuthorityKeyId ci) (SubjectKeyId ca)) as [E|E];
      [discriminate|].
    intros H. apply Hrec; trivial. intros ci' ca' [= <-] [= <-] _. congruence.
Qed.

Lemma firstIssuer_issuer (certs : list Certificate) (i j : nat) :
  firstIssuer certs i (seq 0 (length certs)) = Some j <-> issuer certs i j.
Proof.
  split.
  - intros H. apply firstIssuer_seq_Some in H as (_ & Hne & ci & cj & H).
    split; [exact Hne|]. exists ci, cj.
    destruct H as (Hi & Hj & E & Hb). repeat split; trivial.
    intros j' cj' Hlt. apply Hb. lia.
  - intros (Hne & ci & cj & Hi & Hj & E & Hb).
    destruct (firstIssuer certs i (seq 0 (length certs))) as [k|] eqn:Hk.
    + apply firstIssuer_seq_Some in Hk
        as (_ & Hnek & ci' & ck & Hi' & Hk & E' & Hb').
      assert (ci' = ci) as -> by congruence.
      destruct (Nat.lt_trichotomy k j) as [Hlt|[->|Hgt]]; [|reflexivity|].
      * exfalso. apply (Hb k ck); trivial; congruence.
      * exfalso. apply (Hb' j cj); trivial; try lia; congruence.
    + exfalso.
      apply (firstIssuer_seq_None _ _ _ _ Hk ci j cj); trivial; try congruence.
      apply lookup_lt_Some in Hj. lia.
Qed.

Lemma firstIssuer_rootAt (certs : list Certificate) (i : nat) (ci : Certificate) :
  certs !! i = Some ci ->
  firstIssuer certs i (seq 0 (length certs)) = None -> rootAt certs i.
Proof.
  intros Hi H. exists ci. split; [exact Hi|]. intros j cj Hne Hj.
  apply (firstIssuer_seq_None _ _ _ _ H ci j cj); trivial.
  apply lookup_lt_Some in Hj. lia.
Qed.

Lemma issuer_not_rootAt (certs : list Certificate) (i j : nat) :
  issuer certs i j -> ~ rootAt certs i.
Proof.
  intros (Hne & ci & cj & Hi & Hj & E & _) (ci' & Hi' & Hroot).
  assert (ci' = ci) as -> by congruence.
  apply (Hroot j cj); congruence.
Qed.

Lemma issuer_functional (certs : list Certificate) (i j j' : nat) :
  issuer certs i j -> issuer certs i j' -> j = j'.
Proof.
  intros H H'. apply firstIssuer_issuer in H, H'. congruence.
Qed.

Lemma elem_of_rev_seq (n k : nat) : (k < n)%nat -> k ∈ rev (seq 0 n) ++ [].
Proof.
  intros H. rewrite app_nil_r. apply list_elem_of_In. rewrite <- in_rev.
  apply in_seq. lia.
Qed.

Lemma elem_of_cons_r {A : Type} (x y : A) (l : list A) : x ∈ l -> x ∈ y :: l.
Proof. intros H. apply elem_of_cons. now right. Qed.

Lemma not_elem_of_cons_ne {A : Type} (x y : A) (l : list A) :
  y <> x -> x ∉ l -> x ∉ y :: l.
Proof. intros Hne Hn [->|H]%elem_of_cons; [congruence|contradiction]. Qed.

(** *** The store after the linking loops *)

Lemma linkedFor_start (certs : list Certificate) :
  linkedFor certs [] (map newNode certs).
Proof.
  split.
  - induction certs as [|c certs IH]; cbn; [reflexivity|]. now f_equal.
  - intros k nk Hk.
    apply list_lookup_fmap_Some in Hk as (c & -> & _). cbn.
    split; [reflexivity|]. split; [discriminate|].
    intros (i & Hi & _). now apply elem_of_nil in Hi.
Qed.

Lemma linkedFor_step (certs : list Certificate) (done : list nat) (i : nat)
  (nodes : list node) :
  linkedFor certs done nodes ->
  linkedFor certs (i :: done) (findParent i (seq 0 (length certs)) nodes).
Proof.
  intros [Hcerts Hinv]. split; [now rewrite findParent_certs|].
  rewrite findParent_firstIssuer, Hcerts.
  destruct (firstIssuer certs i (seq 0 (length certs))) as [j|] eqn:HF.
  - (* an issuer is found: [link i j] *)
    pose proof (firstIssuer_seq_Some _ _ _ _ _ HF) as (_ & Hij & _).
    intros k nk. unfold link.
    rewrite list_lookup_alter. destruct (decide (i = k)) as [<-|Hik].
    + rewrite list_lookup_alter_ne by (intros ->; congruence).
      destruct (nodes !! i) as [ni|] eqn:Hi; [|discriminate].
      intros [= <-]. cbn [setParent parent isParent].
      destruct (Hinv i ni Hi) as [_ Hp]. split.
      * rewrite decide_True by apply list_elem_of_here. now rewrite HF.
      * rewrite Hp. split; intros (i' & Hin & Hi'); exists i'; split; trivial;
          [now apply elem_of_cons_r|]. apply elem_of_cons in Hin as [->|]; [congruence|trivial].
    + rewrite list_lookup_alter. destruct (decide (j = k)) as [<-|Hjk].
      * destruct (nodes !! j) as [nj|] eqn:Hj; [|discriminate].
        intros [= <-]. cbn [setIsParent parent isParent].
        destruct (Hinv j nj Hj) as [Hpar _]. split.
        -- rewrite Hpar. destruct (decide (j ∈ done)) as [Hin|Hnin].
           ++ now rewrite decide_True by now apply elem_of_cons_r.
           ++ rewrite decide_False; [reflexivity|]. now apply not_elem_of_cons_ne.
        -- split; [|reflexivity]. intros _. exists i. split; [apply list_elem_of_here|trivial].
      * intros Hk. destruct (Hinv k nk Hk) as [Hpar Hp]. split.
        -- rewrite Hpar. destruct (decide (k ∈ done)) as [Hin|Hnin].
           ++ now rewrite decide_True by now apply elem_of_cons_r.
           ++ rewrite decide_False; [reflexivity|]. now apply not_elem_of_cons_ne.
        -- rewrite Hp. split; intros (i' & Hin & Hi'); exists i'; split; trivial;
             [now apply elem_of_cons_r|].
           apply elem_of_cons in Hin as [->|]; [congruence|trivial].
  - (* none is found: the store is as it was *)
    intros k nk Hk. destruct (Hinv k nk Hk) as [Hpar Hp]. split.
    + rewrite Hpar. destruct (decide (k ∈ done)) as [Hin|Hnin].
      * now rewrite decide_True by now apply elem_of_cons_r.
      * destruct (decide (k ∈ i :: done)) as [Hin'|]; [|reflexivity].
        apply elem_of_cons in Hin' as [->|]; [now rewrite HF|contradiction].
    + rewrite Hp. split; intros (i' & Hin & Hi'); exists i'; split; trivial;
        [now apply elem_of_cons_r|].
      apply elem_of_cons in Hin as [->|]; [congruence|trivial].
Qed.

Lemma linkedFor_linkFrom (certs : list Certificate) (idxs done : list nat)
  (nodes : list node) :
  linkedFor certs done nodes ->
  linkedFor certs (rev idxs ++ done) (linkFrom idxs (length certs) nodes).
Proof.
  revert done nodes. induction idxs as [|i idxs IH]; intros done nodes H;
    [exact H|].
  cbn [linkFrom rev]. rewrite <- app_assoc. cbn [app].
  apply IH. now apply linkedFor_step.
Qed.

(** The store that [fetchCertChains] walks: every node has the issuer of its
    certificate as parent, and the marked nodes are the issuers. *)
Lemma linkNodes_issuer (certs : list Certificate) (k : nat) (nk : node) :
  linkNodes (map newNode certs) !! k = Some nk ->
  certs !! k = Some (cert nk) /\
  (forall j, parent nk = Some j <-> issuer certs k j) /\
  (parent nk = None -> rootAt certs k) /\
  (isParent nk = true <-> exists i, issuer certs i k).
Proof.
  intros Hk. pose proof (linkNodes_lookup _ _ _ Hk) as Hc.
  pose proof (linkedFor_linkFrom certs (seq 0 (length certs)) []
                (map newNode certs) (linkedFor_start certs)) as [_ Hinv].
  unfold linkNodes in Hk. rewrite length_map in Hk.
  destruct (Hinv k nk Hk) as [Hpar Hp]. clear Hinv.
  assert (Hin : k ∈ rev (seq 0 (length certs)) ++ []).
  { apply elem_of_rev_seq. now apply lookup_lt_Some in Hc. }
  rewrite decide_True in Hpar by exact Hin.
  split; [exact Hc|]. split; [|split].
  - intros j. rewrite Hpar. apply firstIssuer_issuer.
  - rewrite Hpar. now apply firstIssuer_rootAt with (ci := cert nk).
  - rewrite Hp. split.
    + intros (i & _ & Hi). exists i. now apply firstIssuer_issuer.
    + intros (i & Hi). exists i. split; [|now apply firstIssuer_issuer].
      apply elem_of_rev_seq.
      destruct Hi as (_ & ci & _ & Hi & _). now apply lookup_lt_Some in Hi.
Qed.

(** *** The leaf *)

Lemma findLeaf_seq_Some (nodes : list node) (a m l : nat) :
  findLeaf (seq a m) nodes = Some l ->
  (a <= l < a + m)%nat /\
  (exists nl, nodes !! l = Some nl /\ isParent nl = false) /\
  forall l' nl', (a <= l' < l)%nat -> nodes !! l' = Some nl' ->
                 isParent nl' = true.
Proof.
  revert a. induction m as [|m IH]; intros a; cbn [seq findLeaf];
    [discriminate|].
  destruct (nodes !! a) as [na|] eqn:Ha.
  - destruct (isParent na) eqn:Hp; cbn [negb].
    + intros H. apply IH in H as (Hr & Hl & Hb). split; [lia|]. split; [exact Hl|].
      intros l' nl' Hl' Hn. destruct (Nat.eq_dec l' a) as [->|]; [congruence|].
      apply (Hb l'); trivial. lia.
    + intros [= <-]. split; [lia|]. split; [eauto|]. intros; lia.
  - intros H. apply IH in H as (Hr & Hl & Hb). split; [lia|]. split; [exact Hl|].
    intros l' nl' Hl' Hn. destruct (Nat.eq_dec l' a) as [->|]; [congruence|].
    apply (Hb l'); trivial. lia.
Qed.

Lemma findLeaf_seq_None (nodes : list node) (a m : nat) :
  findLeaf (seq a m) nodes = None ->
  forall l nl, (a <= l < a + m)%nat -> nodes !! l = Some nl ->
               isParent nl = true.
Proof.
  revert a. induction m as [|m IH]; intros a; cbn [seq findLeaf];
    [intros; lia|].
  destruct (nodes !! a) as [na|] eqn:Ha.
  - destruct (isParent na) eqn:Hp; cbn [negb]; [|discriminate].
    intros H l nl Hl Hn. destruct (Nat.eq_dec l a) as [->|]; [congruence|].
    apply (IH _ H l); trivial. lia.
  - intros H l nl Hl Hn. destruct (Nat.eq_dec l a) as [->|]; [congruence|].
    apply (IH _ H l); trivial. lia.
Qed.

Lemma linkNodes_is_Some (certs : list Certificate) (k : nat) :
  (k < length certs)%nat ->
  exists nk, linkNodes (map newNode certs) !! k = Some nk.
Proof.
  intros H. apply lookup_lt_is_Some_2. now rewrite linkNodes_length.
Qed.

Lemma findLeaf_leafAt (certs : list Certificate) (l : nat) :
  let nodes := linkNodes (map newNode certs) in
  findLeaf (seq 0 (length nodes)) nodes = Some l <-> leafAt certs l.
Proof.
  cbv zeta. rewrite linkNodes_length. split.
  - intros H. apply findLeaf_seq_Some in H as (Hr & (nl & Hl & Hp) & Hb).
    split; [lia|]. split.
    + intros i Hi. apply linkNodes_issuer in Hl as (_ & _ & _ & Hiff).
      assert (isParent nl = true) by (apply Hiff; eauto). congruence.
    + intros l' Hl'.
      destruct (linkNodes_is_Some certs l' ltac:(lia)) as [nl' Hn].
      pose proof (Hb l' nl' ltac:(lia) Hn) as Hp'.
      apply linkNodes_issuer in Hn as (_ & _ & _ & Hiff). now apply Hiff.
  - intros (Hr & Hnone & Hb).
    destruct (findLeaf _ _) as [k|] eqn:Hk.
    + apply findLeaf_seq_Some in Hk as (Hrk & (nk & Hnk & Hpk) & Hbk).
      destruct (Nat.lt_trichotomy k l) as [Hlt|[->|Hgt]]; [|reflexivity|].
      * exfalso. destruct (Hb k Hlt) as [i Hi].
        apply linkNodes_issuer in Hnk as (_ & _ & _ & Hiff).
        assert (isParent nk = true) by (apply Hiff; eauto). congruence.
      * exfalso. destruct (linkNodes_is_Some certs l Hr) as [nl Hl].
        pose proof (Hbk l nl ltac:(lia) Hl) as Hp.
        apply linkNodes_issuer in Hl as (_ & _ & _ & Hiff).
        apply Hiff in Hp as [i Hi]. now apply (Hnone i).
    + exfalso. destruct (linkNodes_is_Some certs l Hr) as [nl Hl].
      pose proof (findLeaf_seq_None _ _ _ Hk l nl ltac:(lia) Hl) as Hp.
      apply linkNodes_issuer in Hl as (_ & _ & _ & Hiff).
      apply Hiff in Hp as [i Hi]. now apply (Hnone i).
Qed.

Lemma findLeaf_None_iff (certs : list Certificate) :
  let nodes := linkNodes (map newNode certs) in
  findLeaf (seq 0 (length nodes)) nodes = None <->
  forall k, (k < length certs)%nat -> exists i, issuer certs i k.
Proof.
  cbv zeta. split.
  - intros H k Hk. destruct (linkNodes_is_Some certs k Hk) as [nk Hn].
    rewrite linkNodes_length in H.
    pose proof (findLeaf_seq_None _ _ _ H k nk ltac:(lia) Hn) as Hp.
    apply linkNodes_issuer in Hn as (_ & _ & _ & Hiff). now apply Hiff.
  - intros H. destruct (findLeaf _ _) as [l|] eqn:Hl; [|reflexivity].
    apply (findLeaf_leafAt certs l) in Hl as (Hr & Hnone & _).
    destruct (H l Hr) as [i Hi]. now destruct (Hnone i).
Qed.

(** *** The path of parents is the path of issuers *)

Lemma path_issuerPath (certs : list Certificate) (l : nat) (idxs : list nat) :
  path (linkNodes (map newNode certs)) (Some l) idxs <->
  issuerPath certs idxs /\ head idxs = Some l.
Proof.
  split.
  - intros H. remember (Some l) as leaf eqn:E. revert l E.
    induction H as [|k nk idxs Hk Hp IH]; intros l [= ->].
    split; [|reflexivity].
    pose proof (linkNodes_issuer _ _ _ Hk) as (_ & Hpar & Hroot & _).
    destruct (parent nk) as [j|] eqn:Hj.
    + destruct (IH j eq_refl) as [Hpath Hhd].
      destruct idxs as [|j' rest]; [discriminate|]. injection Hhd as ->.
      constructor; [now apply Hpar|exact Hpath].
    + inversion Hp; subst. constructor. now apply Hroot.
  - intros [H Hhd]. revert l Hhd.
    induction H as [i Hroot|i j rest Hi Hp IH]; intros l [= <-].
    + destruct Hroot as (ci & Hci & Hroot).
      destruct (linkNodes_is_Some certs i) as [ni Hn];
        [now apply lookup_lt_Some in Hci|].
      econstructor; [exact Hn|].
      pose proof (linkNodes_issuer _ _ _ Hn) as (_ & Hpar & _).
      destruct (parent ni) as [j|]; [|constructor].
      exfalso. apply (issuer_not_rootAt certs i j); [now apply Hpar|].
      now exists ci.
    + pose proof Hi as (_ & ci & _ & Hci & _).
      destruct (linkNodes_is_Some certs i) as [ni Hn];
        [now apply lookup_lt_Some in Hci|].
      econstructor; [exact Hn|].
      pose proof (linkNodes_issuer _ _ _ Hn) as (_ & Hpar & _).
      apply Hpar in Hi. rewrite Hi. now apply IH.
Qed.

(** A walk along a path that fits into the budget returns its
    certificates. *)
Lemma walk_path (fuel : nat) (nodes : list node) (leaf : option nat)
  (idxs : list nat) (processedNodes : nat) (acc rest : list Certificate) :
  path nodes leaf idxs ->
  Forall2 (fun i c => cert <$> nodes !! i = Some c) idxs rest ->
  (processedNodes + length idxs <= length nodes)%nat ->
  (length idxs < fuel)%nat ->
  walk fuel nodes leaf processedNodes acc = Some (Ok (acc ++ rest)).
Proof.
  intros Hpath. revert fuel processedNodes acc rest.
  induction Hpath as [|l nl idxs Hl Hp IH]; intros fuel p acc rest HF Hlen Hfuel.
  - inversion HF; subst. rewrite app_nil_r. now destruct fuel.
  - inversion HF as [|? c ? rest' Hc HF']; subst.
    destruct fuel as [|fuel]; [cbn in Hfuel; lia|]. cbn [walk].
    cbn [length] in Hlen, Hfuel.
    destruct (Nat.ltb_spec (length nodes) (S p)); [lia|].
    rewrite Hl in Hc |- *. injection Hc as <-.
    rewrite (IH fuel (S p) (acc ++ [cert nl]) rest') by (trivial; lia).
    now rewrite <- app_assoc.
Qed.

Lemma path_in_range (nodes : list node) (leaf : option nat) (idxs : list nat) :
  path nodes leaf idxs -> Forall (fun i => (i < length nodes)%nat) idxs.
Proof.
  induction 1 as [|l nl idxs Hl _ IH]; constructor; [|exact IH].
  eapply lookup_lt_Some. exact Hl.
Qed.

(** Pairwise distinct positions below [n] are at most [n]. *)
Lemma NoDup_below_length (idxs : list nat) (n : nat) :
  NoDup idxs -> Forall (fun i => (i < n)%nat) idxs -> (length idxs <= n)%nat.
Proof.
  intros Hnd Hall.
  enough (length idxs <= length (seq 0 n))%nat by now rewrite length_seq in *.
  apply NoDup_incl_length; [now apply NoDup_ListNoDup|].
  intros i Hi. apply in_seq. rewrite Forall_forall in Hall.
  apply list_elem_of_In, Hall in Hi. lia.
Qed.

(** *** What [fetchCertChains] returns *)

Lemma walk_Err (fuel : nat) (nodes : list node) (leaf : option nat)
  (processedNodes : nat) (acc : list Certificate) (e : error) :
  walk fuel nodes leaf processedNodes acc = Some (Err e) -> e = ErrCycle.
Proof.
  revert leaf processedNodes acc.
  induction fuel as [|fuel IH]; intros leaf p acc; cbn [walk].
  - now destruct leaf.
  - destruct leaf as [l|]; [|discriminate].
    destruct (length nodes <? S p)%nat; [congruence|].
    destruct (nodes !! l); [apply IH|discriminate].
Qed.

Lemma assembleChain_Ok_path (certs chain : list Certificate) :
  assembleChain certs = Some (Ok chain) ->
  exists l idxs,
    leafAt certs l /\ head idxs = Some l /\ issuerPath certs idxs /\
    Forall2 (fun i c => certs !! i = Some c) idxs chain.
Proof.
  unfold assembleChain. set (nodes := linkNodes (map newNode certs)).
  destruct (findLeaf _ nodes) as [l|] eqn:Hleaf; [|discriminate].
  intros Hw. apply walk_Ok in Hw as (idxs & rest & Hpath & -> & Hrest & _);
    [|lia].
  exists l, idxs. split; [now apply (findLeaf_leafAt certs l)|].
  apply path_issuerPath in Hpath as [Hpath Hhd].
  repeat split; trivial. cbn [app].
  eapply Forall2_impl; [exact Hrest|]. cbn. intros i c Hi.
  destruct (nodes !! i) as [ni|] eqn:E; [|discriminate].
  apply linkNodes_lookup in E. cbn in Hi. congruence.
Qed.

Lemma assembleChain_path_Ok (certs chain : list Certificate) (l : nat)
  (idxs : list nat) :
  leafAt certs l -> head idxs = Some l -> issuerPath certs idxs ->
  Forall2 (fun i c => certs !! i = Some c) idxs chain ->
  assembleChain certs = Some (Ok chain).
Proof.
  unfold assembleChain. set (nodes := linkNodes (map newNode certs)).
  intros Hleaf Hhd Hpath HF.
  apply (findLeaf_leafAt certs l) in Hleaf. fold nodes in Hleaf.
  rewrite Hleaf.
  assert (Hp : path nodes (Some l) idxs) by now apply path_issuerPath.
  assert (Hlen : (length idxs <= length nodes)%nat).
  { apply NoDup_below_length; [eapply path_NoDup|eapply path_in_range];
      exact Hp. }
  apply (walk_path _ _ _ _ 0 [] chain Hp); try lia.
  eapply Forall2_impl; [exact HF|]. cbn. intros i c Hi.
  subst nodes. rewrite <- (linkNodes_certs certs) in Hi.
  now rewrite list_lookup_fmap in Hi.
Qed.

(** X1: The chains that [fetchCertChains] returns: the certificates along the
    path of issuers that starts at the leaf and ends at a root. *)
Theorem assembleChain_Ok_iff (certs chain : list Certificate) :
  assembleChain certs = Some (Ok chain) <->
  exists l idxs,
    leafAt certs l /\ head idxs = Some l /\ issuerPath certs idxs /\
    Forall2 (fun i c => certs !! i = Some c) idxs chain.
Proof.
  split; [apply assembleChain_Ok_path|].
  intros (l & idxs & Hleaf & Hhd & Hpath & HF).
  now apply (assembleChain_path_Ok certs chain l idxs).
Qed.

(** X2: "no leaf found" is the answer exactly when every certificate of the
    input is the issuer of another one; the empty input is such an input. *)
Theorem assembleChain_NoLeaf_iff (certs : list Certificate) :
  assembleChain certs = Some (Err ErrNoLeafFound) <->
  forall k, (k < length certs)%nat -> exists i, issuer certs i k.
Proof.
  rewrite <- findLeaf_None_iff. cbv zeta. unfold assembleChain.
  destruct (findLeaf _ _) as [l|]; [|tauto].
  split; [|discriminate]. intros H. apply walk_Err in H. discriminate.
Qed.

(** X3: The cycle error is the answer exactly when there is a leaf and the
    issuers that follow it never reach a root. *)
Theorem assembleChain_Cycle_iff (certs : list Certificate) :
  assembleChain certs = Some (Err ErrCycle) <->
  exists l, leafAt certs l /\
            forall idxs, head idxs = Some l -> ~ issuerPath certs idxs.
Proof.
  split.
  - intros H. pose proof H as H'. unfold assembleChain in H'.
    destruct (findLeaf _ _) as [l|] eqn:Hleaf; [|discriminate].
    apply (findLeaf_leafAt certs l) in Hleaf. exists l. split; [exact Hleaf|].
    intros idxs Hhd Hpath.
    assert (exists chain, Forall2 (fun i c => certs !! i = Some c) idxs chain)
      as [chain HF].
    { assert (Hp : path (linkNodes (map newNode certs)) (Some l) idxs)
        by now apply path_issuerPath.
      apply path_in_range in Hp. rewrite linkNodes_length in Hp.
      clear -Hp. induction Hp as [|i idxs Hi _ [chain IH]]; [now exists []|].
      destruct (lookup_lt_is_Some_2 certs i Hi) as [c Hc].
      exists (c :: chain). now constructor. }
    assert (assembleChain certs = Some (Ok chain)) as E
      by (eapply assembleChain_path_Ok; eauto).
    congruence.
  - intros (l & Hleaf & Hnone).
    destruct (assembleChain_total certs) as [[chain|e] Hr].
    + exfalso. apply assembleChain_Ok_path in Hr
        as (l' & idxs & Hleaf' & Hhd & Hpath & _).
      apply (findLeaf_leafAt certs) in Hleaf, Hleaf'. cbv zeta in *.
      assert (l' = l) as -> by congruence. now apply (Hnone idxs).
    + rewrite Hr. do 2 f_equal. unfold assembleChain in Hr.
      apply (findLeaf_leafAt certs) in Hleaf. cbv zeta in Hleaf.
      rewrite Hleaf in Hr. now apply walk_Err in Hr.
Qed.

Lemma issuerPath_linked (certs : list Certificate) (idxs : list nat)
  (chain : list Certificate) :
  issuerPath certs idxs ->
  Forall2 (fun i c => certs !! i = Some c) idxs chain ->
  linked chain /\ chain <> [] /\
  exists i c, last idxs = Some i /\ last chain = Some c /\ rootAt certs i.
Proof.
  intros H. revert chain.
  induction H as [i Hroot|i j rest Hi Hp IH]; intros chain HF.
  - inversion HF as [|? c ? chain' Hc HF']; subst. inversion HF'; subst.
    repeat split; [discriminate|]. exists i, c. auto.
  - inversion HF as [|? c ? chain' Hc HF']; subst.
    destruct (IH _ HF') as (Hl & Hne & k & d & Hk & Hd & Hroot).
    inversion HF' as [|? c' ? chain'' Hc' HF'']; subst.
    repeat split; [| exact Hl | discriminate |].
    + destruct Hi as (_ & ci & cj & Hci & Hcj & E & _). congruence.
    + exists k, d. auto.
Qed.

(** X4: A chain that [fetchCertChains] returns is not empty, consists of
    certificates of the input, each followed by its issuer, and ends with a
    certificate that has no issuer among the others. *)
Theorem assembleChain_linked (certs chain : list Certificate) :
  assembleChain certs = Some (Ok chain) ->
  chain <> [] /\
  linked chain /\
  Forall (fun c => c ∈ certs) chain /\
  exists i c, certs !! i = Some c /\ last chain = Some c /\ rootAt certs i.
Proof.
  intros H. apply assembleChain_Ok_path in H as (l & idxs & _ & _ & Hpath & HF).
  destruct (issuerPath_linked _ _ _ Hpath HF)
    as (Hl & Hne & i & c & Hi & Hc & Hroot).
  repeat split; trivial.
  - clear -HF. induction HF as [|i c idxs chain Hc _ IH]; constructor; trivial.
    eapply list_elem_of_lookup_2. exact Hc.
  - exists i, c. repeat split; trivial.
    destruct Hroot as (c' & Hc' & _).
    assert (Hlast : Forall2 (fun i c => certs !! i = Some c) idxs chain) by exact HF.
    clear -Hlast Hi Hc Hc'. revert i c Hi Hc Hc'.
    induction Hlast as [|k d idxs chain Hd HF IH]; intros i c Hi Hc Hc';
      [discriminate|].
    destruct HF as [|k' d' idxs' chain' Hd' HF'].
    + cbn in Hi, Hc. congruence.
    + apply (IH i c); trivial.
Qed.

(** *** An issuer chain of any length, given in any order *)

Lemma linked_lookup (chain : list Certificate) (k : nat) (c d : Certificate) :
  linked chain -> chain !! k = Some c -> chain !! S k = Some d ->
  AuthorityKeyId c = SubjectKeyId d.
Proof.
  revert k. induction chain as [|x chain IH]; intros k Hl Hc Hd; [discriminate|].
  destruct chain as [|y chain]; [discriminate|]. destruct Hl as [E Hl].
  destruct k as [|k]; cbn in Hc, Hd; [congruence|]. eapply IH; eassumption.
Qed.

Lemma last_lookup_S (chain : list Certificate) (k : nat) (c : Certificate) :
  chain !! k = Some c -> chain !! S k = None -> last chain = Some c.
Proof.
  revert k. induction chain as [|x chain IH]; intros k Hc Hn; [discriminate|].
  destruct chain as [|y chain].
  - destruct k; cbn in *; [congruence|discriminate].
  - destruct k as [|k]; [discriminate|]. cbn in Hc, Hn.
    change (last (y :: chain) = Some c). eapply IH; eassumption.
Qed.

Section IssuerChain.
Variables certs chain : list Certificate.
Hypothesis Hperm : Permutation certs chain.
Hypothesis Hskis : NoDup (SubjectKeyId <$> chain).
Hypothesis Hlinked : linked chain.
Hypothesis Hroot : forall c d, last chain = Some c -> d ∈ chain -> d <> c ->
                               SubjectKeyId d <> AuthorityKeyId c.

Lemma chain_ski_inj (k k' : nat) (c d : Certificate) :
  chain !! k = Some c -> chain !! k' = Some d ->
  SubjectKeyId c = SubjectKeyId d -> k = k'.
Proof.
  intros Hc Hd E.
  apply (NoDup_lookup _ k k' (SubjectKeyId c) Hskis);
    rewrite list_lookup_fmap; [now rewrite Hc|now rewrite Hd, E].
Qed.

Lemma certs_ski_inj (i j : nat) (c d : Certificate) :
  certs !! i = Some c -> certs !! j = Some d ->
  SubjectKeyId c = SubjectKeyId d -> i = j.
Proof.
  intros Hc Hd E.
  assert (Hnd : NoDup (SubjectKeyId <$> certs)) by now rewrite Hperm.
  apply (NoDup_lookup _ i j (SubjectKeyId c) Hnd);
    rewrite list_lookup_fmap; [now rewrite Hc|now rewrite Hd, E].
Qed.

Lemma certs_in_chain (i : nat) (c : Certificate) :
  certs !! i = Some c -> exists k, chain !! k = Some c.
Proof.
  intros Hc. apply list_elem_of_lookup. rewrite <- Hperm.
  eapply list_elem_of_lookup_2. exact Hc.
Qed.

Lemma chain_in_certs (k : nat) (c : Certificate) :
  chain !! k = Some c -> exists i, certs !! i = Some c.
Proof.
  intros Hc. apply list_elem_of_lookup. rewrite Hperm.
  eapply list_elem_of_lookup_2. exact Hc.
Qed.

(** Consecutive certificates of the chain are issued one by the next, at
    whatever positions of the input they stand. *)
Lemma consecutive_issuer (k i j : nat) (c d : Certificate) :
  chain !! k = Some c -> chain !! S k = Some d ->
  certs !! i = Some c -> certs !! j = Some d ->
  issuer certs i j.
Proof.
  intros Hc Hd Hi Hj.
  pose proof (linked_lookup _ _ _ _ Hlinked Hc Hd) as E.
  split.
  - intros ->. assert (c = d) as -> by congruence.
    pose proof (chain_ski_inj _ _ _ _ Hc Hd eq_refl). lia.
  - exists c, d. repeat split; trivial.
    intros j' cj' Hlt Hne Hj' E'.
    assert (j' = j) by (eapply certs_ski_inj; eauto; congruence). lia.
Qed.

Lemma last_rootAt (k i : nat) (c : Certificate) :
  chain !! k = Some c -> chain !! S k = None -> certs !! i = Some c ->
  rootAt certs i.
Proof.
  intros Hc Hn Hi. exists c. split; [exact Hi|]. intros j d Hne Hj.
  apply (Hroot c d).
  - eapply last_lookup_S; eassumption.
  - destruct (certs_in_chain _ _ Hj) as [k' Hk'].
    eapply list_elem_of_lookup_2. exact Hk'.
  - intros ->. apply Hne. eapply certs_ski_inj; eauto.
Qed.

Lemma chain_positions (k : nat) (rest : list Certificate) :
  drop k chain = rest ->
  exists idxs, Forall2 (fun i c => certs !! i = Some c) idxs rest /\
               (rest <> [] -> issuerPath certs idxs).
Proof.
  revert k. induction rest as [|c rest IH]; intros k Hk.
  - exists []. split; [constructor|congruence].
  - assert (Hc : chain !! k = Some c).
    { rewrite <- (Nat.add_0_r k), <- lookup_drop, Hk. reflexivity. }
    assert (Hrest : drop (S k) chain = rest).
    { rewrite (drop_S _ _ _ Hc) in Hk. congruence. }
    destruct (IH (S k) Hrest) as (idxs & HF & Hpath).
    destruct (chain_in_certs _ _ Hc) as [i Hi].
    exists (i :: idxs). split; [now constructor|]. intros _.
    destruct rest as [|d rest'].
    + inversion HF; subst. constructor.
      apply (last_rootAt k i c); trivial.
      apply lookup_ge_None. apply (f_equal length) in Hrest.
      rewrite length_drop in Hrest. cbn in Hrest. lia.
    + inversion HF as [|j ? idxs' ? Hj HF']; subst.
      constructor; [|apply Hpath; discriminate].
      apply (consecutive_issuer k i j c d); trivial.
      rewrite <- (Nat.add_0_r (S k)), <- lookup_drop, Hrest. reflexivity.
Qed.

(** The head of the chain is the leaf. *)
Lemma head_leafAt (l : nat) (c : Certificate) :
  chain !! 0%nat = Some c -> certs !! l = Some c -> leafAt certs l.
Proof.
  intros Hc Hl. split; [eapply lookup_lt_Some; exact Hl|]. split.
  - intros i (Hne & ci & cl & Hi & Hl' & E & _).
    assert (cl = c) as -> by congruence.
    destruct (certs_in_chain _ _ Hi) as [k Hk].
    destruct (chain !! S k) as [d|] eqn:Hd.
    + pose proof (linked_lookup _ _ _ _ Hlinked Hk Hd) as E'.
      assert (S k = 0%nat) by (eapply chain_ski_inj; eauto; congruence).
      lia.
    + apply (Hroot ci c); trivial.
      * eapply last_lookup_S; eassumption.
      * eapply list_elem_of_lookup_2. exact Hc.
      * intros ->. apply Hne. eapply certs_ski_inj; eauto.
      * congruence.
  - intros l' Hlt.
    destruct (lookup_lt_is_Some_2 certs l') as [c' Hc'];
      [apply lookup_lt_Some in Hl; lia|].
    destruct (certs_in_chain _ _ Hc') as [k Hk].
    destruct k as [|k].
    + assert (c' = c) as -> by congruence.
      assert (l' = l) by (eapply certs_ski_inj; eauto). lia.
    + destruct (lookup_lt_is_Some_2 chain k) as [b Hb];
        [apply lookup_lt_Some in Hk; lia|].
      destruct (chain_in_certs _ _ Hb) as [i Hi].
      exists i. apply (consecutive_issuer k i l' b c'); trivial.
Qed.

(** X5: Certificates that form one issuer chain, with pairwise distinct subject
    key identifiers and a last one that no other certificate of the chain
    has issued, are returned as that chain from every order of the input. *)
Theorem assembleChain_chain : chain <> [] -> assembleChain certs = Some (Ok chain).
Proof.
  intros Hne. destruct (chain_positions 0 chain eq_refl) as (idxs & HF & Hpath).
  assert (exists c, chain !! 0%nat = Some c) as [c Hc].
  { clear -Hne. destruct chain; [congruence|eauto]. }
  destruct (Forall2_lookup_r _ _ _ _ _ HF Hc) as (l & Hl & Hlc).
  apply (assembleChain_path_Ok certs chain l idxs); trivial.
  - apply (head_leafAt l c); trivial.
  - now rewrite head_lookup.
  - now apply Hpath.
Qed.
End IssuerChain.

(** *** The cycle error points at a cycle *)

Lemma walk_Cycle_visited (fuel : nat) (nodes : list node) (leaf : option nat)
  (processedNodes : nat) (acc : list Certificate) :
  parentsInRange (length nodes) nodes ->
  (forall l, leaf = Some l -> l < length nodes)%nat ->
  walk fuel nodes leaf processedNodes acc = Some (Err ErrCycle) ->
  (processedNodes <= length nodes)%nat ->
  exists idxs, visited nodes leaf idxs /\
               (processedNodes + length idxs = S (length nodes))%nat.
Proof.
  intros Hrange. revert leaf processedNodes acc.
  induction fuel as [|fuel IH]; intros leaf p acc Hleaf; cbn [walk].
  - now destruct leaf.
  - destruct leaf as [l|]; [|discriminate].
    destruct (lookup_lt_is_Some_2 nodes l (Hleaf l eq_refl)) as [nl Hl].
    rewrite Hl. destruct (Nat.ltb_spec (length nodes) (S p)).
    + intros _ Hp. exists [l]. split; [|cbn; lia].
      econstructor; [exact Hl|constructor].
    + intros Hw _. apply IH in Hw as (idxs & Hv & Hlen); [| |lia].
      * exists (l :: idxs). split; [econstructor; eassumption|cbn; lia].
      * intros q Hq. eapply Forall_lookup_1 in Hrange; [|exact Hl]. auto.
Qed.

Lemma visited_in_range (nodes : list node) (leaf : option nat) (idxs : list nat) :
  visited nodes leaf idxs -> Forall (fun i => (i < length nodes)%nat) idxs.
Proof.
  induction 1 as [|l nl idxs Hl _ IH]; constructor; [|exact IH].
  eapply lookup_lt_Some. exact Hl.
Qed.

Lemma visited_suffix (nodes : list node) (leaf : option nat) (idxs : list nat) :
  visited nodes leaf idxs ->
  forall before l after, idxs = before ++ l :: after ->
  visited nodes (Some l) (l :: after).
Proof.
  induction 1 as [|l nl idxs Hl Hp IH]; intros before l' after E.
  - now destruct before.
  - destruct before as [|b before]; cbn in E; injection E as -> ->.
    + econstructor; eassumption.
    + eapply IH. reflexivity.
Qed.

(** From a node to a later node of a visit, parent by parent. *)
Lemma visited_tc (nodes : list node) (between : list nat) (x y : nat)
  (after : list nat) :
  visited nodes (Some x) (x :: between ++ y :: after) ->
  tc (fun i j => exists ni, nodes !! i = Some ni /\ parent ni = Some j) x y.
Proof.
  revert x. induction between as [|z between IH]; intros x H;
    inversion H as [|? nx ? Hx Hv]; subst; cbn [app] in Hv;
    inversion Hv as [|? ? ? ? ? E]; subst.
  - apply tc_once. eauto.
  - eapply tc_l; [eauto|]. apply IH. rewrite <- E in Hv. exact Hv.
Qed.

Lemma repeated_position (idxs : list nat) :
  ~ NoDup idxs ->
  exists x before between after, idxs = before ++ x :: between ++ x :: after.
Proof.
  induction idxs as [|a idxs IH]; intros H; [destruct H; constructor|].
  destruct (decide (a ∈ idxs)) as [Hin|Hnin].
  - apply list_elem_of_split in Hin as (between & after & ->).
    now exists a, [], between, after.
  - destruct IH as (x & before & between & after & ->).
    + intros Hnd. apply H. now constructor.
    + now exists x, (a :: before), between, after.
Qed.

(** X6: When [fetchCertChains] reports a cycle, some certificate of the input is
    its own issuer through one or more issuer links. *)
Theorem assembleChain_Cycle_tc (certs : list Certificate) :
  assembleChain certs = Some (Err ErrCycle) ->
  exists i, tc (issuer certs) i i.
Proof.
  unfold assembleChain.
  pose proof (linkNodes_parentsInRange certs) as Hrange. cbv zeta in Hrange.
  set (nodes := linkNodes (map newNode certs)) in *.
  destruct (findLeaf _ nodes) as [leaf|] eqn:Hleaf; [|discriminate].
  intros Hw. apply walk_Cycle_visited in Hw as (idxs & Hv & Hlen);
    trivial; [| |lia].
  2:{ intros l [= <-]. apply findLeaf_Some in Hleaf as (nl & Hl & _).
      eapply lookup_lt_Some. exact Hl. }
  destruct (repeated_position idxs) as (x & before & between & after & E).
  { intros Hnd. apply NoDup_below_length with (n := length nodes) in Hnd;
      [cbn in Hlen; lia|]. eapply visited_in_range. exact Hv. }
  exists x. apply (visited_suffix _ _ _ Hv before x), visited_tc in E.
  eapply tc_congruence with (f := fun i : nat => i); [|exact E].
  intros i j (ni & Hi & Hj). subst nodes.
  apply linkNodes_issuer in Hi as (_ & Hpar & _). now apply Hpar.
Qed.

Lemma assembleChain_linked_witness :
  let chain := [Examples.leaf; Examples.intermediate; Examples.root] in
  let certs := [Examples.root; Examples.leaf; Examples.intermediate] in
  chain <> [] /\
  linked chain /\
  Forall (fun c => c ∈ certs) chain /\
  exists i c, certs !! i = Some c /\ last chain = Some c /\ rootAt certs i.
Proof.
  apply assembleChain_linked. reflexivity.
Defined.

Lemma assembleChain_chain_witness :
  assembleChain [Examples.intermediate; Examples.root; Examples.leaf]
  = Some (Ok [Examples.leaf; Examples.intermediate; Examples.root]).
Proof.
  apply assembleChain_chain.
  - apply Permutation_sym.
    apply (Permutation_cons_app [Examples.intermediate; Examples.root] []).
    reflexivity.
  - apply NoDup_ListNoDup.
    repeat constructor; cbn; intuition discriminate.
  - cbn. auto.
  - intros c d [= <-] Hd Hne.
    repeat (apply elem_of_cons in Hd as [->|Hd]); try discriminate;
      [congruence|now apply elem_of_nil in Hd].
  - discriminate.
Defined.

Lemma assembleChain_Cycle_tc_witness :
  exists i,
    tc (issuer [Examples.crossLeaf; Examples.crossP; Examples.crossQ]) i i.
Proof.
  apply assembleChain_Cycle_tc. reflexivity.
Defined.

(** ** Object identifiers *)

(** A string without the separator is its own and only element. *)
Lemma Split_no_sep (s : string) (sep : ascii) :
  strings.Contains s (String sep EmptyString) = false ->
  strings.Split s sep = [s].
Proof.
  induction s as [|a s IH]; [reflexivity|].
  cbn [strings.Contains strings.HasPrefix strings.Split].
  replace (strings.HasPrefix s EmptyString) with true by now destruct s.
  rewrite andb_true_r. destruct (Ascii.eqb a sep); [discriminate|].
  cbn [orb]. intros H. now rewrite (IH H).
Qed.

Lemma Split_app (s t : string) (sep : ascii) :
  strings.Split (s +:+ String sep t) sep
  = strings.Split s sep ++ strings.Split t sep.
Proof.
  induction s as [|a s IH].
  - change (EmptyString +:+ String sep t) with (String sep t).
    cbn [strings.Split]. now rewrite Ascii.eqb_refl.
  - change (String a s +:+ String sep t) with (String a (s +:+ String sep t)).
    cbn [strings.Split]. rewrite IH.
    destruct (Ascii.eqb a sep); [reflexivity|].
    pose proof (Split_nonempty s sep).
    now destruct (strings.Split s sep).
Qed.

(** No element of a split holds the separator. *)
Lemma Split_elements (s : string) (sep : ascii) :
  Forall (fun item => strings.Contains item (String sep EmptyString) = false)
         (strings.Split s sep).
Proof.
  induction s as [|a s IH]; [now repeat constructor|].
  cbn [strings.Split]. destruct (Ascii.eqb_spec a sep) as [->|Hne].
  - now constructor.
  - assert (Hcons : forall item,
              strings.Contains item (String sep EmptyString) = false ->
              strings.Contains (String a item) (String sep EmptyString) = false).
    { intros item Hitem. cbn [strings.Contains strings.HasPrefix].
      replace (strings.HasPrefix item EmptyString) with true by now destruct item.
      rewrite andb_true_r.
      destruct (Ascii.eqb_spec a sep); [contradiction|exact Hitem]. }
    destruct (strings.Split s sep) as [|item items].
    + constructor; [|constructor]. now apply Hcons.
    + inversion IH as [|? ? Hitem Hitems]; subst.
      constructor; [now apply Hcons|exact Hitems].
Qed.

Lemma getObjectVersion_no_sep (id : string) :
  strings.Contains (getObjectVersion id) "/" = false.
Proof.
  unfold getObjectVersion.
  pose proof (Split_elements id "/"%char) as H.
  destruct (last (strings.Split id "/"%char)) as [v|] eqn:Hl; [|reflexivity].
  rewrite Forall_forall in H. apply H.
  apply last_Some in Hl as [l' ->]. apply elem_of_app. right.
  apply list_elem_of_here.
Qed.

(** X7: The version is the part of the identifier after its last [/]: it holds
    no [/], and an identifier [base/version] whose version holds no [/]
    gives that version. *)
Theorem getObjectVersion_last_segment (id : string) :
  strings.Contains (getObjectVersion id) "/" = false /\
  forall base version,
    strings.Contains version "/" = false ->
    id = base +:+ "/" +:+ version ->
    getObjectVersion id = version.
Proof.
  split; [apply getObjectVersion_no_sep|].
  intros base version Hv ->. unfold getObjectVersion.
  change ("/" +:+ version) with (String "/"%char version).
  rewrite Split_app. rewrite (Split_no_sep version "/"%char Hv).
  now rewrite last_snoc.
Qed.

Lemma append_inj_no_sep (t1 t2 n1 n2 : string) (sep : ascii) :
  strings.Contains t1 (String sep EmptyString) = false ->
  strings.Contains t2 (String sep EmptyString) = false ->
  t1 +:+ String sep n1 = t2 +:+ String sep n2 ->
  t1 = t2 /\ n1 = n2.
Proof.
  revert t2. induction t1 as [|a t1 IH]; intros [|b t2] H1 H2 E.
  - now injection E as ->.
  - exfalso. injection E as <- _.
    cbn [strings.Contains strings.HasPrefix] in H2.
    rewrite Ascii.eqb_refl in H2. now destruct t2.
  - exfalso. injection E as -> _.
    cbn [strings.Contains strings.HasPrefix] in H1.
    rewrite Ascii.eqb_refl in H1. now destruct t1.
  - injection E as -> E.
    cbn [strings.Contains strings.HasPrefix] in H1, H2.
    apply orb_false_iff in H1 as [_ H1]. apply orb_false_iff in H2 as [_ H2].
    destruct (IH t2 H1 H2 E) as [-> ->]. auto.
Qed.

(** X8: Two objects have the same UID only if they have the same type and the
    same name, when the types hold no [/] (as "secret", "key" and "cert"
    do). *)
Theorem getObjectUID_inj (name1 type1 name2 type2 : string) :
  strings.Contains type1 "/" = false ->
  strings.Contains type2 "/" = false ->
  getObjectUID name1 type1 = getObjectUID name2 type2 ->
  type1 = type2 /\ name1 = name2.
Proof.
  unfold getObjectUID. intros H1 H2 E.
  now apply (append_inj_no_sep type1 type2 name1 name2 "/"%char).
Qed.

Lemma getObjectUID_inj_witness :
  VaultObjectTypeSecret = VaultObjectTypeSecret /\ "tls/cert" = "tls/cert".
Proof.
  apply (getObjectUID_inj "tls/cert" VaultObjectTypeSecret
           "tls/cert" VaultObjectTypeSecret); reflexivity.
Defined.

(** ** Validation and decoding together *)

Lemma base64_decode_Err (src : string) (dbuf : list Z) (e : error) :
  base64.decode src dbuf = Err e -> e = ErrBase64CorruptInput.
Proof.
  revert dbuf. induction src as [|c rest IH]; intros dbuf; cbn [base64.decode].
  - destruct dbuf; [discriminate|congruence].
  - destruct (negb _).
    + destruct (_ =? _)%nat; [|apply IH].
      destruct (base64.decode rest []) eqn:E; cbn [bind]; [discriminate|].
      intros [= <-]. now apply (IH []).
    + destruct (base64.isNewline c); [apply IH|].
      destruct (negb _); [congruence|].
      destruct (length dbuf) as [|[|[|n]]]; try congruence;
        repeat (match goal with
                | |- context [match ?x with _ => _ end] => destruct x
                end; try congruence).
Qed.

(** Induction on a string two bytes at a time, as the hex decoder reads
    it. *)
Lemma string_by_two (P : string -> Prop) :
  P EmptyString ->
  (forall a, P (String a EmptyString)) ->
  (forall a b rest, P rest -> P (String a (String b rest))) ->
  forall s, P s.
Proof.
  intros H0 H1 H2 s.
  enough (P s /\ forall a, P (String a s)) by tauto.
  induction s as [|c s [IH0 IH1]]; auto.
Qed.

Lemma hex_DecodeString_Err (src : string) (e : error) :
  hex.DecodeString src = Err e -> e = ErrHexLength \/ e = ErrHexInvalidByte.
Proof.
  induction src as [|p|p q rest IH] using string_by_two;
    cbn [hex.DecodeString].
  - discriminate.
  - destruct (hex.fromHexChar _); intros [= <-]; auto.
  - destruct (hex.fromHexChar p); [|intros [= <-]; auto].
    destruct (hex.fromHexChar q); [|intros [= <-]; auto].
    destruct (hex.DecodeString rest); cbn [bind]; [discriminate|].
    intros [= <-]. now apply IH.
Qed.

Section ValidatedEncoding.
Variable foldRunes : string -> string -> bool.
Local Abbreviation EqualFold := (strings.EqualFold foldRunes).

(** X9: An encoding that [validateObjectEncoding] accepts for the type is one
    that [getContentBytes] knows: it returns the content, or what the base64
    or the hex decoder returns, and a failure is a failure of the decoder,
    never "invalid objectEncoding". *)
Theorem getContentBytes_validated (content objectType objectEncoding : string) :
  validateObjectEncoding foldRunes objectEncoding objectType = Ok tt ->
  (getContentBytes foldRunes content objectType objectEncoding = Ok content \/
   getContentBytes foldRunes content objectType objectEncoding
   = base64.DecodeString content \/
   getContentBytes foldRunes content objectType objectEncoding
   = hex.DecodeString content) /\
  forall e, getContentBytes foldRunes content objectType objectEncoding = Err e ->
            e = ErrBase64CorruptInput \/ e = ErrHexLength \/ e = ErrHexInvalidByte.
Proof.
  intros Hv.
  assert (H : getContentBytes foldRunes content objectType objectEncoding = Ok content \/
              getContentBytes foldRunes content objectType objectEncoding
              = base64.DecodeString content \/
              getContentBytes foldRunes content objectType objectEncoding
              = hex.DecodeString content).
  { unfold validateObjectEncoding in Hv. unfold getContentBytes.
    destruct (String.length objectEncoding =? 0)%nat.
    { left. now rewrite orb_true_r. }
    destruct (String.eqb_spec objectType VaultObjectTypeSecret) as [->|];
      [|discriminate]. cbn [negb] in Hv.
    change (EqualFold VaultObjectTypeSecret VaultObjectTypeSecret) with true.
    cbn [negb orb].
    destruct (EqualFold objectEncoding objectEncodingUtf8); [now left|].
    destruct (EqualFold objectEncoding objectEncodingBase64); [now right; left|].
    destruct (EqualFold objectEncoding objectEncodingHex); [now right; right|].
    discriminate. }
  split; [exact H|]. intros e He.
  destruct H as [H|[H|H]]; rewrite H in He.
  - discriminate.
  - left. now apply base64_decode_Err in He.
  - right. now apply hex_DecodeString_Err in He.
Qed.
End ValidatedEncoding.

Lemma getContentBytes_validated_witness :
  (getContentBytes (fun _ _ => false) "6a6b" VaultObjectTypeSecret "HEX" = Ok "6a6b" \/
   getContentBytes (fun _ _ => false) "6a6b" VaultObjectTypeSecret "HEX"
   = base64.DecodeString "6a6b" \/
   getContentBytes (fun _ _ => false) "6a6b" VaultObjectTypeSecret "HEX"
   = hex.DecodeString "6a6b") /\
  forall e, getContentBytes (fun _ _ => false) "6a6b" VaultObjectTypeSecret "HEX"
            = Err e ->
            e = ErrBase64CorruptInput \/ e = ErrHexLength \/ e = ErrHexInvalidByte.
Proof.
  apply getContentBytes_validated. reflexivity.
Defined.

(** ** [base64.RawURLEncoding]: decoding undoes encoding *)

Module base64url_facts.
Import base64url.

Lemma url_decodeMap_encode (i : Z) : 0 <= i < 64 -> decodeMap (encode i) = i.
Proof.
  intros Hi.
  apply (below_forallb (fun i => decodeMap (encode i) =? i) 64) in Hi.
  - now apply Z.eqb_eq.
  - vm_compute. reflexivity.
Qed.

Lemma url_decode_sextet (s : Z) (rest : string) (dbuf : list Z) :
  0 <= s < 64 ->
  decode (String (encode s) rest) dbuf =
  if (length (dbuf ++ [s]) =? 4)%nat
  then bind (decode rest [])
         (fun tail => Ok (base64.quantumBytes (dbuf ++ [s]) 3 +:+ tail))
  else decode rest (dbuf ++ [s]).
Proof.
  intros Hs. cbn [decode]. rewrite url_decodeMap_encode by trivial.
  destruct (Z.eqb_spec s 255); [lia|]. reflexivity.
Qed.

Lemma base64url_DecodeString_EncodeToString (src : string) :
  DecodeString (EncodeToString src) = Ok src.
Proof.
  unfold DecodeString.
  induction src as [|a|a b|a b c rest IH] using string_by_three.
  - reflexivity.
  - pose proof (byteZ_range a) as Ha.
    cbn [EncodeToString]. cbv zeta.
    rewrite !url_decode_sextet by apply base64_facts.sextet_range.
    cbn [length app Nat.eqb decode]. f_equal.
    unfold base64.quantumBytes. rewrite base64_facts.quantum_two.
    replace (Z.shiftl (byteZ a) 16) with (byteZ a * 65536 + 0 * 256 + 0)
      by (rewrite Z.shiftl_mul_pow2; lia).
    set (val := byteZ a * 65536 + 0 * 256 + 0).
    assert (Hq : base64.quantum
                   [Z.land (Z.shiftr val 18) 63; Z.land (Z.shiftr val 12) 63; 0; 0]
                 = val).
    { pose proof (base64_facts.quantum_sextets val ltac:(subst val; lia)) as Q.
      assert (E2 : Z.land (Z.shiftr val 6) 63 = 0)
        by (subst val; to_div_mod; pow2_lia).
      assert (E3 : Z.land val 63 = 0) by (subst val; to_div_mod; pow2_lia).
      now rewrite E2, E3 in Q. }
    rewrite Hq. cbn [firstn string_of_list_ascii]. f_equal.
    apply toByte_of_land. subst val. to_div_mod. pow2_lia.
  - pose proof (byteZ_range a) as Ha. pose proof (byteZ_range b) as Hb.
    cbn [EncodeToString]. cbv zeta.
    rewrite !url_decode_sextet by apply base64_facts.sextet_range.
    cbn [length app Nat.eqb decode]. f_equal.
    unfold base64.quantumBytes.
    rewrite (base64_facts.quantum_three _ _ _ _ eq_refl).
    replace (Z.lor (Z.shiftl (byteZ a) 16) (Z.shiftl (byteZ b) 8))
      with (byteZ a * 65536 + byteZ b * 256 + 0)
      by (rewrite <- (base64_facts.val3 (byteZ a) (byteZ b) 0), Z.lor_0_r by lia;
          reflexivity).
    set (val := byteZ a * 65536 + byteZ b * 256 + 0).
    assert (Hq : base64.quantum
                   [Z.land (Z.shiftr val 18) 63; Z.land (Z.shiftr val 12) 63;
                    Z.land (Z.shiftr val 6) 63; 0] = val).
    { pose proof (base64_facts.quantum_sextets val ltac:(subst val; lia)) as Q.
      assert (E3 : Z.land val 63 = 0) by (subst val; to_div_mod; pow2_lia).
      now rewrite E3 in Q. }
    rewrite Hq. cbn [firstn string_of_list_ascii].
    f_equal; [|f_equal]; apply toByte_of_land; subst val; to_div_mod; pow2_lia.
  - pose proof (byteZ_range a) as Ha. pose proof (byteZ_range b) as Hb.
    pose proof (byteZ_range c) as Hc.
    cbn [EncodeToString]. cbv zeta.
    rewrite base64_facts.val3 by trivial.
    rewrite !url_decode_sextet
      by (apply base64_facts.sextet_range || apply base64_facts.sextet_range0).
    cbn [length app Nat.eqb]. rewrite IH. cbn [bind]. f_equal.
    unfold base64.quantumBytes. rewrite base64_facts.quantum_sextets by lia.
    cbn [firstn string_of_list_ascii].
    destruct (base64_facts.bytes_of_val a b c) as (-> & -> & ->). reflexivity.
Qed.

(** The decoder's only error. *)
Lemma base64url_decode_Err (src : string) (dbuf : list Z) (e : error) :
  decode src dbuf = Err e -> e = ErrBase64CorruptInput.
Proof.
  revert dbuf. induction src as [|c rest IH]; intros dbuf; cbn [decode].
  - destruct (length dbuf) as [|[|[|?]]]; congruence.
  - cbv zeta. destruct (negb _).
    + destruct (_ =? _)%nat; [|apply IH].
      destruct (decode rest []) eqn:Hd; cbn [bind]; [discriminate|].
      intros [= <-]. now apply IH in Hd.
    + destruct (base64.isNewline c); [apply IH|congruence].
Qed.
End base64url_facts.

(** ** [math/big]: big-endian numbers *)

Lemma SetBytes_fold (l : list ascii) (acc : Z) :
  fold_left (fun acc c => acc * 256 + byteZ c) l acc
  = acc * 256 ^ Z.of_nat (length l)
    + fold_left (fun acc c => acc * 256 + byteZ c) l 0.
Proof.
  revert acc. induction l as [|c l IH]; intros acc.
  - cbn. lia.
  - cbn [fold_left length]. rewrite IH, (IH (0 * 256 + byteZ c)).
    rewrite Nat2Z.inj_succ, Z.pow_succ_r by lia. lia.
Qed.

(** The first byte is the most significant one. *)
Lemma SetBytes_String (c : ascii) (buf : string) :
  big.SetBytes (String c buf)
  = byteZ c * 256 ^ Z.of_nat (String.length buf) + big.SetBytes buf.
Proof.
  assert (Hlen : length (list_ascii_of_string buf) = String.length buf).
  { clear c. induction buf as [|d buf IH]; [reflexivity|].
    cbn [list_ascii_of_string length String.length]. now rewrite IH. }
  unfold big.SetBytes. cbn [list_ascii_of_string fold_left].
  rewrite SetBytes_fold, Hlen. lia.
Qed.

Lemma SetBytes_range (buf : string) :
  0 <= big.SetBytes buf < 256 ^ Z.of_nat (String.length buf).
Proof.
  induction buf as [|c buf IH]; [cbn; lia|].
  rewrite SetBytes_String. cbn [String.length].
  rewrite Nat2Z.inj_succ, Z.pow_succ_r by lia.
  pose proof (byteZ_range c). nia.
Qed.

Lemma Int64_small (x : Z) : 0 <= x < 2 ^ 63 -> big.Int64 x = x.
Proof.
  intros Hx. unfold big.Int64. cbv zeta.
  rewrite Z.mod_small by lia. destruct (Z.ltb_spec x (2 ^ 63)); lia.
Qed.

(** ** Public keys from the vault's JSON web keys *)

(** X10: An RSA key whose fields [n] and [e] are the unpadded URL-safe base64 of
    the big-endian modulus and exponent gives that modulus and exponent. *)
Theorem getPublicKey_RSA (key : JSONWebKey) (n e : string) :
  KeyKty key = "RSA" \/ KeyKty key = "RSA-HSM" ->
  KeyN key = Some (base64url.EncodeToString n) ->
  KeyE key = Some (base64url.EncodeToString e) ->
  big.SetBytes e < 2 ^ 63 ->
  getPublicKey key = Returns (RSAPublicKey (big.SetBytes n) (big.SetBytes e)).
Proof.
  intros Hkty HN HE He. unfold getPublicKey.
  assert (String.eqb (KeyKty key) "RSA" || String.eqb (KeyKty key) "RSA-HSM"
          = true) as ->
    by (destruct Hkty as [-> | ->]; reflexivity).
  rewrite HN, HE, !base64url_facts.base64url_DecodeString_EncodeToString.
  rewrite Int64_small; [reflexivity|].
  pose proof (SetBytes_range e). lia.
Qed.

(** X11: An elliptic-curve key on one of the three curves gives the point with
    the coordinates that [x] and [y] encode. *)
Theorem getPublicKey_EC (key : JSONWebKey) (x y : string) (crv : Curve) :
  KeyKty key = "EC" \/ KeyKty key = "EC-HSM" ->
  KeyX key = Some (base64url.EncodeToString x) ->
  KeyY key = Some (base64url.EncodeToString y) ->
  In (KeyCrv key, crv) [("P-256", P256); ("P-384", P384); ("P-521", P521)] ->
  getPublicKey key
  = Returns (ECDSAPublicKey crv (big.SetBytes x) (big.SetBytes y)).
Proof.
  intros Hkty HX HY Hcrv. unfold getPublicKey.
  assert (String.eqb (KeyKty key) "RSA" || String.eqb (KeyKty key) "RSA-HSM"
          = false) as ->
    by (destruct Hkty as [-> | ->]; reflexivity).
  assert (String.eqb (KeyKty key) "EC" || String.eqb (KeyKty key) "EC-HSM"
          = true) as ->
    by (destruct Hkty as [-> | ->]; reflexivity).
  rewrite HX, HY, !base64url_facts.base64url_DecodeString_EncodeToString.
  destruct Hcrv as [[= <- <-] | [[= <- <-] | [[= <- <-] | []]]]; reflexivity.
Qed.

(** A key of any other type, or on any other curve, gives no public key. *)
Lemma getPublicKey_Returns (key : JSONWebKey) (pKey : publicKey) :
  getPublicKey key = Returns pKey ->
  match pKey with
  | RSAPublicKey _ _ => KeyKty key = "RSA" \/ KeyKty key = "RSA-HSM"
  | ECDSAPublicKey crv _ _ =>
      (KeyKty key = "EC" \/ KeyKty key = "EC-HSM") /\
      In (KeyCrv key, crv) [("P-256", P256); ("P-384", P384); ("P-521", P521)]
  end.
Proof.
  unfold getPublicKey, wrapFetch.
  destruct (String.eqb_spec (KeyKty key) "RSA") as [HR|_]; cbn [orb].
  { destruct (KeyN key); [|discriminate].
    destruct (base64url.DecodeString _); [|discriminate].
    destruct (KeyE key); [|discriminate].
    destruct (base64url.DecodeString _); [|discriminate].
    intros [= <-]. auto. }
  destruct (String.eqb_spec (KeyKty key) "RSA-HSM") as [HR|_].
  { destruct (KeyN key); [|discriminate].
    destruct (base64url.DecodeString _); [|discriminate].
    destruct (KeyE key); [|discriminate].
    destruct (base64url.DecodeString _); [|discriminate].
    intros [= <-]. auto. }
  assert (HEC : String.eqb (KeyKty key) "EC" || String.eqb (KeyKty key) "EC-HSM"
                = true -> KeyKty key = "EC" \/ KeyKty key = "EC-HSM").
  { destruct (String.eqb_spec (KeyKty key) "EC"); auto.
    destruct (String.eqb_spec (KeyKty key) "EC-HSM"); auto. discriminate. }
  destruct (_ || _); [|discriminate]. specialize (HEC eq_refl).
  destruct (KeyX key); [|discriminate].
  destruct (base64url.DecodeString _); [|discriminate].
  destruct (KeyY key); [|discriminate].
  destruct (base64url.DecodeString _); [|discriminate].
  unfold getCurve.
  destruct (String.eqb_spec (KeyCrv key) "P-256") as [->|_];
    [intros [= <-]; cbn; auto|].
  destruct (String.eqb_spec (KeyCrv key) "P-384") as [->|_];
    [intros [= <-]; cbn; auto|].
  destruct (String.eqb_spec (KeyCrv key) "P-521") as [->|_];
    [intros [= <-]; cbn; auto|].
  discriminate.
Qed.

(** ** The name of the vault *)

Lemma allVaultNameBytes_Forall (s : string) :
  allVaultNameBytes s = true <->
  Forall (fun c => isVaultNameByte c = true) (list_ascii_of_string s).
Proof.
  induction s as [|c s IH]; cbn [allVaultNameBytes list_ascii_of_string].
  - split; auto.
  - rewrite andb_true_iff, IH. split.
    + intros [? ?]. now constructor.
    + intros H. inversion H. auto.
Qed.

Lemma allVaultNameBytes_Exists (s : string) :
  allVaultNameBytes s = false ->
  Exists (fun c => isVaultNameByte c = false) (list_ascii_of_string s).
Proof.
  induction s as [|c s IH]; cbn [allVaultNameBytes list_ascii_of_string];
    [discriminate|].
  destruct (isVaultNameByte c) eqn:Hc; cbn [andb]; intros H.
  - apply Exists_cons_tl. auto.
  - now apply Exists_cons_hd.
Qed.

(** [getVaultURL] accepts the names of 3 to 24 letters, digits and hyphens,
    and no other. *)
Lemma getVaultURL_inl_iff (name suffix vaultURL : string) :
  getVaultURL name suffix = inl vaultURL <->
  (3 <= String.length name <= 24)%nat /\
  Forall (fun c => isVaultNameByte c = true) (list_ascii_of_string name) /\
  vaultURL = "https://" +:+ name +:+ "." +:+ suffix +:+ "/".
Proof.
  unfold getVaultURL, isValid. rewrite <- allVaultNameBytes_Forall.
  destruct (Nat.ltb_spec (String.length name) 3),
    (Nat.ltb_spec 24 (String.length name)); cbn [orb].
  1-3: split; [discriminate | lia].
  destruct (Nat.eqb_spec (String.length name) 0); [lia|]. cbn [negb andb].
  destruct (allVaultNameBytes name); cbn [negb].
  - split; [intros [= <-]; auto | intros (_ & _ & ->); reflexivity].
  - split; [discriminate | intros (_ & [=] & _)].
Qed.

(** ** The token for the vault *)

Lemma lastByte_dropLast (s : string) (c : ascii) :
  lastByte s = Some c -> s = dropLast s +:+ String c EmptyString.
Proof.
  induction s as [|a s IH]; [discriminate|].
  destruct s as [|b s]; [now intros [= ->]|].
  intros H. change (lastByte (String b s) = Some c) in H.
  change (dropLast (String a (String b s)))
    with (String a (dropLast (String b s))).
  change (String a (dropLast (String b s)) +:+ String c EmptyString)
    with (String a (dropLast (String b s) +:+ String c EmptyString)).
  now rewrite <- IH.
Qed.

Lemma lastByte_None (s : string) : lastByte s = None <-> s = EmptyString.
Proof.
  split; [|now intros ->].
  induction s as [|a s IH]; [reflexivity|].
  destruct s as [|b s]; [discriminate|].
  intros H. apply IH in H. discriminate.
Qed.

Lemma lastByte_append (r : string) (c : ascii) :
  lastByte (r +:+ String c EmptyString) = Some c.
Proof.
  induction r as [|a r IH]; [reflexivity|].
  change (String a r +:+ String c EmptyString)
    with (String a (r +:+ String c EmptyString)).
  destruct r; [reflexivity|exact IH].
Qed.

Section ClientFacts.
Variables servicePrincipalToken authorizer : Type.
Variable KeyVaultEndpoint : string.
Variable GetServicePrincipalToken : string -> result servicePrincipalToken.
Variable NewBearerAuthorizer : servicePrincipalToken -> authorizer.

Local Abbreviation GetKeyvaultToken' :=
  (GetKeyvaultToken KeyVaultEndpoint GetServicePrincipalToken
     NewBearerAuthorizer).

(** X24: [GetKeyvaultToken] panics exactly on the empty endpoint.  Otherwise it
    asks for the token of the endpoint less one final [/], if there is one
    (of two final slashes one stays), and returns the authorizer of that
    token or the error of the request. *)
Theorem GetKeyvaultToken_resource :
  (GetKeyvaultToken' = Panics <-> KeyVaultEndpoint = EmptyString) /\
  (KeyVaultEndpoint <> EmptyString ->
   exists resource,
     (KeyVaultEndpoint = resource +:+ "/" \/
      KeyVaultEndpoint = resource /\ lastByte resource <> Some "/"%char) /\
     GetKeyvaultToken'
     = match GetServicePrincipalToken resource with
       | Ok token => Returns (NewBearerAuthorizer token)
       | Err e => Fails e
       end).
Proof.
  unfold GetKeyvaultToken. split.
  - rewrite <- lastByte_None.
    destruct (lastByte KeyVaultEndpoint) as [c|]; [|tauto].
    split; [|discriminate]. cbv zeta.
    destruct (GetServicePrincipalToken _); discriminate.
  - intros Hne. destruct (lastByte KeyVaultEndpoint) as [c|] eqn:Hc.
    2:{ now apply lastByte_None in Hc. }
    cbv zeta. destruct (Ascii.eqb_spec "/"%char c) as [<-|Hslash].
    + exists (dropLast KeyVaultEndpoint). split.
      * left. now apply lastByte_dropLast.
      * now destruct (GetServicePrincipalToken _).
    + exists KeyVaultEndpoint. split.
      * right. split; [reflexivity|]. rewrite Hc. congruence.
      * now destruct (GetServicePrincipalToken _).
Qed.
End ClientFacts.

Section FetchFacts.
Variable foldRunes : string -> string -> bool.
Variables KeyvaultName KeyVaultDNSSuffix : string.
Variables servicePrincipalToken authorizer : Type.
Variable KeyVaultEndpoint : string.
Variable GetServicePrincipalToken : string -> result servicePrincipalToken.
Variable NewBearerAuthorizer : servicePrincipalToken -> authorizer.
Variable AddToUserAgent : result unit.
Variable GetSecret : authorizer -> string -> string -> string -> result SecretBundle.
Variable GetKey : authorizer -> string -> string -> string -> result KeyBundle.
Variable GetCertificate :
  authorizer -> string -> string -> string -> result CertificateBundle.
Variable MarshalPKIXPublicKey : publicKey -> result string.
Variable EncodeToMemory : Block -> string.
Variable decodePKCS12' : string -> option (result string).

Local Abbreviation client :=
  (initializeKvClient KeyVaultEndpoint GetServicePrincipalToken
     NewBearerAuthorizer AddToUserAgent).
Local Abbreviation fetchObject :=
  (GetKeyVaultObjectContent foldRunes KeyvaultName KeyVaultDNSSuffix
     KeyVaultEndpoint GetServicePrincipalToken NewBearerAuthorizer
     AddToUserAgent GetSecret GetKey GetCertificate MarshalPKIXPublicKey
     EncodeToMemory decodePKCS12').
Local Abbreviation vaultURL :=
  ("https://" +:+ KeyvaultName +:+ "." +:+ KeyVaultDNSSuffix +:+ "/").

Lemma getSecretContent_not_vault (kvClient : authorizer) (url : string)
  (o : KeyVaultObject) (e : vaultNameError) :
  getSecretContent foldRunes GetSecret decodePKCS12' kvClient url o
  <> Fails (ErrFailedToGetVault e).
Proof.
  unfold getSecretContent, wrapFetch.
  repeat match goal with
         | |- context [match ?x with _ => _ end] => destruct x
         end; discriminate.
Qed.

Lemma getKeyContent_not_vault (kvClient : authorizer) (url : string)
  (o : KeyVaultObject) (e : vaultNameError) :
  getKeyContent GetKey MarshalPKIXPublicKey EncodeToMemory kvClient url o
  <> Fails (ErrFailedToGetVault e).
Proof.
  unfold getKeyContent.
  destruct (GetKey _ _ _ _) as [b|]; [|discriminate].
  destruct (BundleKey b) as [k|]; [|discriminate].
  destruct (KeyKid k); [|discriminate].
  destruct (getPublicKey k) eqn:Hk; try discriminate.
  - destruct (MarshalPKIXPublicKey _); discriminate.
  - revert Hk. unfold getPublicKey, wrapFetch.
    repeat match goal with
           | |- context [match ?x with _ => _ end] => destruct x
           end; congruence.
Qed.

Lemma getCertificateContent_not_vault (kvClient : authorizer) (url : string)
  (o : KeyVaultObject) (e : vaultNameError) :
  getCertificateContent GetCertificate EncodeToMemory kvClient url o
  <> Fails (ErrFailedToGetVault e).
Proof.
  unfold getCertificateContent, wrapFetch.
  repeat match goal with
         | |- context [match ?x with _ => _ end] => destruct x
         end; discriminate.
Qed.

(** X12: a fetch fails with "failed to get vault" exactly when the vault name
    is shorter than 3 or longer than 24 bytes, or holds a byte that is no
    letter, digit or hyphen. *)
Theorem GetKeyVaultObjectContent_vault_name (o : KeyVaultObject) :
  (exists e, fetchObject o = Fails (ErrFailedToGetVault e)) <->
  (String.length KeyvaultName < 3)%nat \/
  (24 < String.length KeyvaultName)%nat \/
  Exists (fun c => isVaultNameByte c = false)
    (list_ascii_of_string KeyvaultName).
Proof.
  unfold GetKeyVaultObjectContent.
  destruct (getVaultURL KeyvaultName KeyVaultDNSSuffix) as [url|e] eqn:Hurl.
  - apply getVaultURL_inl_iff in Hurl as (Hlen & Hall & _). split.
    + intros [e He]. exfalso. revert He.
      destruct client as [kvClient| | |]; try discriminate.
      destruct (String.eqb _ _); [apply getSecretContent_not_vault|].
      destruct (String.eqb _ _); [apply getKeyContent_not_vault|].
      destruct (String.eqb _ _); [apply getCertificateContent_not_vault|].
      discriminate.
    + intros [H | [H | H]]; [lia | lia |]. exfalso.
      apply Exists_exists in H as (c & Hin & Hc).
      rewrite Forall_forall in Hall. apply Hall in Hin. congruence.
  - split; [|eauto]. intros _.
    destruct (Nat.lt_ge_cases (String.length KeyvaultName) 3); auto.
    destruct (Nat.lt_ge_cases 24 (String.length KeyvaultName)); auto.
    right. right. apply allVaultNameBytes_Exists.
    destruct (allVaultNameBytes KeyvaultName) eqn:Hall; [|reflexivity].
    assert (exists url, getVaultURL KeyvaultName KeyVaultDNSSuffix = inl url)
      as [url Hu]; [|congruence].
    eexists. apply getVaultURL_inl_iff. split; [lia|]. split; [|reflexivity].
    now apply allVaultNameBytes_Forall.
Qed.

(** What a fetch that returns has read. *)
Lemma GetKeyVaultObjectContent_Returns (o : KeyVaultObject)
  (content version : string) :
  fetchObject o = Returns (content, version) ->
  exists kvClient id,
    client = Returns kvClient /\
    version = getObjectVersion id /\
    ((ObjectType o = "secret" /\
      exists secret,
        GetSecret kvClient vaultURL (ObjectName o) (ObjectVersion o)
        = Ok secret /\
        SecretID secret = Some id) \/
     (ObjectType o = "key" /\
      exists keybundle key,
        GetKey kvClient vaultURL (ObjectName o) (ObjectVersion o)
        = Ok keybundle /\
        BundleKey keybundle = Some key /\ KeyKid key = Some id) \/
     (ObjectType o = "cert" /\
      exists certbundle,
        GetCertificate kvClient vaultURL (ObjectName o) (ObjectVersion o)
        = Ok certbundle /\
        CertificateID certbundle = Some id)).
Proof.
  unfold GetKeyVaultObjectContent.
  destruct (getVaultURL KeyvaultName KeyVaultDNSSuffix) as [url|] eqn:Hurl;
    [|discriminate].
  apply getVaultURL_inl_iff in Hurl as (_ & _ & ->).
  destruct client as [kvClient| | |]; try discriminate.
  destruct (String.eqb_spec (ObjectType o) VaultObjectTypeSecret) as [Ht|_].
  { unfold getSecretContent, wrapFetch.
    destruct (GetSecret _ _ _ _) as [secret|] eqn:HG; [|discriminate].
    destruct (SecretValue secret); [|discriminate].
    destruct (SecretID secret) as [id|] eqn:Hid; [|discriminate].
    intros H. exists kvClient, id. split; [reflexivity|].
    split; [|left; eauto].
    revert H.
    repeat match goal with
           | |- context [match ?x with _ => _ end] => destruct x
           end; congruence. }
  destruct (String.eqb_spec (ObjectType o) VaultObjectTypeKey) as [Ht|_].
  { unfold getKeyContent, wrapFetch.
    destruct (GetKey _ _ _ _) as [keybundle|] eqn:HG; [|discriminate].
    destruct (BundleKey keybundle) as [key|] eqn:Hkey; [|discriminate].
    destruct (KeyKid key) as [id|] eqn:Hid; [|discriminate].
    intros H. exists kvClient, id. split; [reflexivity|].
    split; [|right; left; eauto 6].
    revert H. destruct (getPublicKey key); try discriminate.
    destruct (MarshalPKIXPublicKey _); congruence. }
  destruct (String.eqb_spec (ObjectType o) VaultObjectTypeCertificate) as [Ht|_];
    [|discriminate].
  unfold getCertificateContent, wrapFetch.
  destruct (GetCertificate _ _ _ _) as [certbundle|] eqn:HG; [|discriminate].
  destruct (BundleCer certbundle); [|discriminate].
  destruct (CertificateID certbundle) as [id|] eqn:Hid; [|discriminate].
  intros [= _ <-]. exists kvClient, id. split; [reflexivity|].
  split; [reflexivity|]. right. right. eauto.
Qed.

(** X13: When a fetch returns, the object type is one of the three, and the
    version is the last segment of the identifier in the answer of the
    client's call for that type, made with the URL of the vault and the name
    and version of the object. *)
Theorem GetKeyVaultObjectContent_version (o : KeyVaultObject)
  (content version : string) :
  fetchObject o = Returns (content, version) ->
  strings.Contains version "/" = false /\
  exists kvClient id,
    client = Returns kvClient /\
    version = getObjectVersion id /\
    ((ObjectType o = "secret" /\
      exists secret,
        GetSecret kvClient vaultURL (ObjectName o) (ObjectVersion o)
        = Ok secret /\
        SecretID secret = Some id) \/
     (ObjectType o = "key" /\
      exists keybundle key,
        GetKey kvClient vaultURL (ObjectName o) (ObjectVersion o)
        = Ok keybundle /\
        BundleKey keybundle = Some key /\ KeyKid key = Some id) \/
     (ObjectType o = "cert" /\
      exists certbundle,
        GetCertificate kvClient vaultURL (ObjectName o) (ObjectVersion o)
        = Ok certbundle /\
        CertificateID certbundle = Some id)).
Proof.
  intros H.
  apply GetKeyVaultObjectContent_Returns in H as (kvClient & id & Hc & -> & H).
  split; [apply getObjectVersion_no_sep | eauto].
Qed.


(** A secret that no certificate backs is returned as the vault holds it. *)
Lemma GetKeyVaultObjectContent_secret (o : KeyVaultObject)
  (content version : string) :
  ObjectType o = "secret" ->
  fetchObject o = Returns (content, version) ->
  exists kvClient secret value,
    client = Returns kvClient /\
    GetSecret kvClient vaultURL (ObjectName o) (ObjectVersion o) = Ok secret /\
    SecretValue secret = Some value /\
    (SecretKid secret = None \/ SecretKid secret = Some EmptyString ->
     content = value).
Proof.
  intros Ht. unfold GetKeyVaultObjectContent.
  destruct (getVaultURL KeyvaultName KeyVaultDNSSuffix) as [url|] eqn:Hurl;
    [|discriminate].
  apply getVaultURL_inl_iff in Hurl as (_ & _ & ->).
  destruct client as [kvClient| | |]; try discriminate.
  rewrite Ht.
  change (String.eqb "secret" VaultObjectTypeSecret) with true. cbv iota.
  unfold getSecretContent.
  destruct (GetSecret _ _ _ _) as [secret|] eqn:HG; [|discriminate].
  destruct (SecretValue secret) as [value|] eqn:Hv; [|discriminate].
  intros H. exists kvClient, secret, value. split; [reflexivity|].
  split; [exact HG|]. split; [exact Hv|]. revert H.
  destruct (SecretID secret); [|discriminate].
  intros H [Hk | Hk]; rewrite Hk in H; cbn in H; congruence.
Qed.

(** The content of a key is the PEM text of its public key. *)
Lemma GetKeyVaultObjectContent_key (o : KeyVaultObject)
  (content version : string) :
  ObjectType o = "key" ->
  fetchObject o = Returns (content, version) ->
  exists kvClient keybundle key pKey derBytes,
    client = Returns kvClient /\
    GetKey kvClient vaultURL (ObjectName o) (ObjectVersion o) = Ok keybundle /\
    BundleKey keybundle = Some key /\
    getPublicKey key = Returns pKey /\
    MarshalPKIXPublicKey pKey = Ok derBytes /\
    content = EncodeToMemory (publicKeyBlock derBytes).
Proof.
  intros Ht. unfold GetKeyVaultObjectContent.
  destruct (getVaultURL KeyvaultName KeyVaultDNSSuffix) as [url|] eqn:Hurl;
    [|discriminate].
  apply getVaultURL_inl_iff in Hurl as (_ & _ & ->).
  destruct client as [kvClient| | |]; try discriminate.
  rewrite Ht.
  change (String.eqb "key" VaultObjectTypeSecret) with false.
  change (String.eqb "key" VaultObjectTypeKey) with true. cbv iota.
  unfold getKeyContent.
  destruct (GetKey _ _ _ _) as [keybundle|] eqn:HG; [|discriminate].
  destruct (BundleKey keybundle) as [key|] eqn:Hkey; [|discriminate].
  destruct (KeyKid key); [|discriminate].
  destruct (getPublicKey key) as [pKey| | |] eqn:Hp; try discriminate.
  destruct (MarshalPKIXPublicKey pKey) as [derBytes|] eqn:Hm; [|discriminate].
  intros [= <- _]. exists kvClient, keybundle, key, pKey, derBytes.
  repeat split; trivial.
Qed.

(** The content of a certificate is the PEM text of its DER form. *)
Lemma GetKeyVaultObjectContent_cert (o : KeyVaultObject)
  (content version : string) :
  ObjectType o = "cert" ->
  fetchObject o = Returns (content, version) ->
  exists kvClient certbundle cer,
    client = Returns kvClient /\
    GetCertificate kvClient vaultURL (ObjectName o) (ObjectVersion o)
    = Ok certbundle /\
    BundleCer certbundle = Some cer /\
    content = EncodeToMemory {| Type' := "CERTIFICATE"; Headers := ∅;
                                Bytes := cer |}.
Proof.
  intros Ht. unfold GetKeyVaultObjectContent.
  destruct (getVaultURL KeyvaultName KeyVaultDNSSuffix) as [url|] eqn:Hurl;
    [|discriminate].
  apply getVaultURL_inl_iff in Hurl as (_ & _ & ->).
  destruct client as [kvClient| | |]; try discriminate.
  rewrite Ht.
  change (String.eqb "cert" VaultObjectTypeSecret) with false.
  change (String.eqb "cert" VaultObjectTypeKey) with false.
  change (String.eqb "cert" VaultObjectTypeCertificate) with true. cbv iota.
  unfold getCertificateContent.
  destruct (GetCertificate _ _ _ _) as [certbundle|] eqn:HG; [|discriminate].
  destruct (BundleCer certbundle) as [cer|] eqn:Hcer; [|discriminate].
  destruct (CertificateID certbundle); [|discriminate].
  intros [= <- _]. exists kvClient, certbundle, cer. repeat split; trivial.
Qed.

(** The object types that a fetch knows. *)
Lemma GetKeyVaultObjectContent_types (o : KeyVaultObject) (a : string * string) :
  fetchObject o = Returns a ->
  ObjectType o = "secret" \/ ObjectType o = "key" \/ ObjectType o = "cert".
Proof.
  destruct a as [content version]. intros H.
  apply GetKeyVaultObjectContent_Returns in H as (kvClient & id & _ & _ & H).
  tauto.
Qed.
End FetchFacts.

(** ** The mount loop: what it returns and what it writes *)

Section MountFacts.
#[local] Set Warnings "-clear-no-such-hyp".
Variable foldRunes : string -> string -> bool.
Variable Separator : ascii.
Variable IsAbs : string -> bool.
Variable filepath_Join : string -> string -> string.
Variable GetKeyVaultObjectContent : KeyVaultObject -> result (string * string).
Variable os_WriteFile : string -> string -> result unit.
Variable DriverWriteSecrets : bool.
Variable targetPath : string.

Local Abbreviation mountObject' :=
  (mountObject foldRunes Separator IsAbs filepath_Join
     GetKeyVaultObjectContent os_WriteFile DriverWriteSecrets targetPath).
Local Abbreviation mountObjects' :=
  (mountObjects foldRunes Separator IsAbs filepath_Join
     GetKeyVaultObjectContent os_WriteFile DriverWriteSecrets targetPath).
Local Abbreviation UID o := (getObjectUID (ObjectName o) (ObjectType o)).

(** One iteration that succeeds. *)
Lemma mountObject_Ok (o : KeyVaultObject) (st st' : mountState) :
  mountObject' o st = Ok st' ->
  exists content version bytes,
    GetKeyVaultObjectContent o = Ok (content, version) /\
    getContentBytes foldRunes content (ObjectType o) (ObjectEncoding o)
    = Ok bytes /\
    objectVersionMap st' = <[UID o := version]> (objectVersionMap st) /\
    if DriverWriteSecrets
    then files st' = <[fileNameOf o := bytes]> (files st) /\
         written st' = written st
    else files st' = files st /\
         written st'
         = (filepath_Join targetPath (fileNameOf o), bytes) :: written st.
Proof.
  unfold mountObject.
  destruct (validateObjectFormat _ _ _) as [[]|]; [|discriminate].
  destruct (validateObjectEncoding _ _ _) as [[]|]; [|discriminate].
  destruct (validateFileName _ _ _) as [[]|]; [|discriminate].
  destruct (GetKeyVaultObjectContent o) as [[content version]|]; [|discriminate].
  cbn [wrapObjectTypeError bind fst snd].
  destruct (getContentBytes _ _ _ _) as [bytes|] eqn:Hbytes; [|discriminate].
  cbn [bind]. destruct DriverWriteSecrets; cbn [negb].
  - intros [= <-]. exists content, version, bytes. cbn. auto.
  - destruct (os_WriteFile _ _); [|discriminate].
    intros [= <-]. exists content, version, bytes. cbn. auto.
Qed.

Lemma mountObjects_app (before after : list KeyVaultObject) (st : mountState) :
  mountObjects' (before ++ after) st
  = bind (mountObjects' before st) (mountObjects' after).
Proof.
  revert st. induction before as [|o before IH]; intros st; [reflexivity|].
  cbn [app mountObjects]. destruct (mountObject _ _ _ _ _ _ _ _ o st); cbn [bind];
    [apply IH|reflexivity].
Qed.

(** X15: With [driver-write-secrets] on, the loop writes no file and returns one
    entry per file name of the objects; with the flag off, it returns no
    entry and writes one file per object, in the order of the objects. *)
Theorem mountObjects_response_or_files (keyVaultObjects : list KeyVaultObject)
  (st st' : mountState) :
  mountObjects' keyVaultObjects st = Ok st' ->
  if DriverWriteSecrets
  then written st' = written st /\
       dom (files st')
       = dom (files st) ∪ list_to_set (fileNameOf <$> keyVaultObjects)
  else files st' = files st /\
       (written st').*1
       = rev ((fun o => filepath_Join targetPath (fileNameOf o))
                <$> keyVaultObjects) ++ (written st).*1.
Proof.
  revert st. induction keyVaultObjects as [|o os IH]; intros st;
    cbn [mountObjects].
  - intros [= <-]. destruct DriverWriteSecrets; split; trivial.
    cbn. set_solver.
  - destruct (mountObject _ _ _ _ _ _ _ _ o st) as [st1|] eqn:H1;
      [|discriminate].
    cbn [bind]. intros H2. apply IH in H2.
    apply mountObject_Ok in H1 as (content & version & bytes & _ & _ & _ & H1).
    destruct DriverWriteSecrets.
    + destruct H1 as [Hf Hw], H2 as [Hw2 Hd2]. split; [congruence|].
      rewrite Hd2, Hf, dom_insert_L. cbn [fmap list_fmap list_to_set].
      set_solver.
    + destruct H1 as [Hf Hw], H2 as [Hf2 Hw2]. split; [congruence|].
      rewrite Hw2, Hw. cbn [fmap list_fmap rev fst]. now rewrite <- app_assoc.
Qed.

(** X16: The version map gets one entry per object UID. *)
Theorem mountObjects_versions_dom (keyVaultObjects : list KeyVaultObject)
  (st st' : mountState) :
  mountObjects' keyVaultObjects st = Ok st' ->
  dom (objectVersionMap st')
  = dom (objectVersionMap st)
    ∪ list_to_set ((fun o => UID o) <$> keyVaultObjects).
Proof.
  revert st. induction keyVaultObjects as [|o os IH]; intros st;
    cbn [mountObjects].
  - intros [= <-]. cbn. set_solver.
  - destruct (mountObject _ _ _ _ _ _ _ _ o st) as [st1|] eqn:H1;
      [|discriminate].
    cbn [bind]. intros H2. apply IH in H2.
    apply mountObject_Ok in H1 as (content & version & bytes & _ & _ & Hv & _).
    rewrite H2, Hv, dom_insert_L. cbn [fmap list_fmap list_to_set]. set_solver.
Qed.

(** Objects that come later do not touch the entries of other names. *)
Lemma mountObjects_other (after : list KeyVaultObject) (st st' : mountState) :
  mountObjects' after st = Ok st' ->
  (forall name, Forall (fun o' => fileNameOf o' <> name) after ->
                files st' !! name = files st !! name) /\
  (forall uid, Forall (fun o' => UID o' <> uid) after ->
               objectVersionMap st' !! uid = objectVersionMap st !! uid).
Proof.
  revert st. induction after as [|o os IH]; intros st; cbn [mountObjects].
  - intros [= <-]. auto.
  - destruct (mountObject _ _ _ _ _ _ _ _ o st) as [st1|] eqn:H1;
      [|discriminate].
    cbn [bind]. intros H2. apply IH in H2 as [Hf2 Hv2].
    apply mountObject_Ok in H1 as (content & version & bytes & _ & _ & Hv & H1).
    split.
    + intros name Hall. inversion Hall as [|? ? Hne Hall']; subst.
      rewrite (Hf2 name Hall').
      destruct DriverWriteSecrets; destruct H1 as [-> _]; [|reflexivity].
      now rewrite lookup_insert_ne.
    + intros uid Hall. inversion Hall as [|? ? Hne Hall']; subst.
      rewrite (Hv2 uid Hall'), Hv. now rewrite lookup_insert_ne.
Qed.

(** A mount that succeeds, cut at one of its objects. *)
Lemma mountObjects_split (before after : list KeyVaultObject)
  (o : KeyVaultObject) (st st' : mountState) :
  mountObjects' (before ++ o :: after) st = Ok st' ->
  exists st0 st1,
    mountObjects' before st = Ok st0 /\ mountObject' o st0 = Ok st1 /\
    mountObjects' after st1 = Ok st'.
Proof.
  rewrite mountObjects_app.
  destruct (mountObjects _ _ _ _ _ _ _ _ before st) as [st0|]; [|discriminate].
  cbn [bind mountObjects].
  destruct (mountObject _ _ _ _ _ _ _ _ o st0) as [st1|] eqn:H1; [|discriminate].
  cbn [bind]. eauto.
Qed.

(** X17: Every object of a mount that succeeds was fetched and decoded; its
    version is recorded under its UID, and with [driver-write-secrets] on its
    content is returned under its file name, unless a later object has the
    same UID or file name: the later one wins. *)
Theorem mountObjects_last_wins (before after : list KeyVaultObject)
  (o : KeyVaultObject) (st st' : mountState) :
  mountObjects' (before ++ o :: after) st = Ok st' ->
  exists content version bytes,
    GetKeyVaultObjectContent o = Ok (content, version) /\
    getContentBytes foldRunes content (ObjectType o) (ObjectEncoding o)
    = Ok bytes /\
    (Forall (fun o' => UID o' <> UID o) after ->
     objectVersionMap st' !! UID o = Some version) /\
    (DriverWriteSecrets = true ->
     Forall (fun o' => fileNameOf o' <> fileNameOf o) after ->
     files st' !! fileNameOf o = Some bytes).
Proof.
  intros H. apply mountObjects_split in H as (st0 & st1 & _ & H1 & H2).
  apply mountObjects_other in H2 as [Hf2 Hv2].
  apply mountObject_Ok in H1 as (content & version & bytes & HG & Hb & Hv & H1).
  exists content, version, bytes. repeat split; trivial.
  - intros Hall. rewrite (Hv2 _ Hall), Hv. apply lookup_insert_eq.
  - intros HD Hall. rewrite HD in H1. destruct H1 as [Hf _].
    rewrite (Hf2 _ Hall), Hf. apply lookup_insert_eq.
Qed.
End MountFacts.

(** ** The mount loop undoes nothing *)

Section MountDiskFacts.
#[local] Set Warnings "-clear-no-such-hyp".
Variable foldRunes : string -> string -> bool.
Variable Separator : ascii.
Variable IsAbs : string -> bool.
Variable filepath_Join : string -> string -> string.
Variable GetKeyVaultObjectContent : KeyVaultObject -> result (string * string).
Variable os_WriteFile : string -> string -> result unit.
Variable targetPath : string.

Local Abbreviation mountObject' :=
  (mountObject foldRunes Separator IsAbs filepath_Join
     GetKeyVaultObjectContent os_WriteFile false targetPath).
Local Abbreviation mountObjects' :=
  (mountObjects foldRunes Separator IsAbs filepath_Join
     GetKeyVaultObjectContent os_WriteFile false targetPath).
Local Abbreviation mountObjectsDisk' :=
  (mountObjectsDisk foldRunes Separator IsAbs filepath_Join
     GetKeyVaultObjectContent os_WriteFile false targetPath).

Lemma mountObjectsDisk_failed (keyVaultObjects : list KeyVaultObject)
  (st st' : mountState) (e : error) :
  mountObjectsDisk' keyVaultObjects st = (st', Some e) ->
  exists before o after,
    keyVaultObjects = before ++ o :: after /\
    mountObjects' before st = Ok st' /\ mountObject' o st' = Err e.
Proof.
  revert st. induction keyVaultObjects as [|o os IH]; intros st;
    cbn [mountObjectsDisk]; [discriminate|].
  destruct (mountObject _ _ _ _ _ _ _ _ o st) as [st1|e1] eqn:H1.
  - intros H. apply IH in H as (before & o' & after & -> & Hb & Ho).
    exists (o :: before), o', after. cbn [app mountObjects].
    rewrite H1. cbn [bind]. auto.
  - intros [= <- <-]. exists [], o, os. auto.
Qed.

(** X18: With [driver-write-secrets] off, a mount that fails at an object returns
    the error of that object and leaves on disk the files of all the objects
    before it, in their order; nothing is removed. *)
Theorem mountObjects_no_rollback (keyVaultObjects : list KeyVaultObject)
  (st st' : mountState) (e : error) :
  mountObjectsDisk' keyVaultObjects st = (st', Some e) ->
  mountObjects' keyVaultObjects st = Err e /\
  exists before o after,
    keyVaultObjects = before ++ o :: after /\
    mountObject' o st' = Err e /\
    (written st').*1
    = rev ((fun o' => filepath_Join targetPath (fileNameOf o')) <$> before)
      ++ (written st).*1.
Proof.
  intros H. apply mountObjectsDisk_failed in H
    as (before & o & after & -> & Hb & Ho).
  split.
  - rewrite mountObjects_app, Hb. cbn [bind mountObjects]. now rewrite Ho.
  - exists before, o, after. split; [reflexivity|]. split; [exact Ho|].
    revert Hb. clear. revert st.
    induction before as [|o os IH]; intros st; cbn [mountObjects].
    + now intros [= <-].
    + destruct (mountObject _ _ _ _ _ _ _ _ o st) as [st1|] eqn:H1;
        [|discriminate].
      cbn [bind]. intros H2. apply IH in H2.
      apply mountObject_Ok in H1 as (content & version & bytes & _ & _ & _ & H1).
      cbn beta iota in H1. destruct H1 as [_ Hw].
      rewrite H2, Hw. cbn [fmap list_fmap rev fst]. now rewrite <- app_assoc.
Qed.
End MountDiskFacts.

(** ** ASCII case folding *)

Lemma lor_ascii (a b : Z) : 0 <= a < 128 -> 0 <= b < 128 -> Z.lor a b < 128.
Proof.
  intros Ha Hb.
  destruct (Z.eq_dec a 0) as [->|]; [rewrite Z.lor_0_l; lia|].
  destruct (Z.eq_dec b 0) as [->|]; [rewrite Z.lor_0_r; lia|].
  change 128 with (2 ^ 7). apply Z.log2_lt_pow2.
  - pose proof (Z.lor_nonneg a b).
    assert (Z.lor a b <> 0) by (rewrite Z.lor_eq_0_iff; lia). lia.
  - rewrite Z.log2_lor by lia.
    assert (Z.log2 a < 7) by (apply Z.log2_lt_pow2; lia).
    assert (Z.log2 b < 7) by (apply Z.log2_lt_pow2; lia). lia.
Qed.

(** On ASCII strings [strings.EqualFold] relates strings of one length
    only. *)
Lemma EqualFold_ascii_length (foldRunes : string -> string -> bool)
  (s t : string) :
  isASCII s -> isASCII t ->
  strings.EqualFold foldRunes s t = true -> String.length s = String.length t.
Proof.
  unfold isASCII. revert t.
  induction s as [|sr s IH]; intros [|tr t] Hs Ht; cbn [strings.EqualFold];
    try discriminate; [reflexivity|].
  cbn [list_ascii_of_string] in Hs, Ht.
  inversion Hs as [|? ? Hsr Hs']; inversion Ht as [|? ? Htr Ht']; subst.
  pose proof (byteZ_range sr). pose proof (byteZ_range tr).
  pose proof (lor_ascii (byteZ sr) (byteZ tr) ltac:(lia) ltac:(lia)).
  destruct (Z.leb_spec 128 (Z.lor (byteZ sr) (byteZ tr))); [lia|].
  cbv zeta. cbn [String.length].
  destruct (_ =? _); [intros H'; f_equal; now apply IH|].
  destruct (_ && _); [intros H'; f_equal; now apply IH|discriminate].
Qed.

(** ** The mount loop over the vault *)

Section MountFetchFacts.
Variable foldRunes : string -> string -> bool.
Variable Separator : ascii.
Variable IsAbs : string -> bool.
Variable filepath_Join : string -> string -> string.
Variable os_WriteFile : string -> string -> result unit.
Variable DriverWriteSecrets : bool.
Variable targetPath : string.
Variables KeyvaultName KeyVaultDNSSuffix : string.
Variables servicePrincipalToken authorizer : Type.
Variable KeyVaultEndpoint : string.
Variable GetServicePrincipalToken : string -> result servicePrincipalToken.
Variable NewBearerAuthorizer : servicePrincipalToken -> authorizer.
Variable AddToUserAgent : result unit.
Variable GetSecret : authorizer -> string -> string -> string -> result SecretBundle.
Variable GetKey : authorizer -> string -> string -> string -> result KeyBundle.
Variable GetCertificate :
  authorizer -> string -> string -> string -> result CertificateBundle.
Variable MarshalPKIXPublicKey : publicKey -> result string.
Variable EncodeToMemory : Block -> string.
Variable decodePKCS12' : string -> option (result string).
(** What the loop sees of a fetch: its result or its error. *)
Variable fetch : KeyVaultObject -> result (string * string).

Local Abbreviation EqualFold := (strings.EqualFold foldRunes).
Local Abbreviation client :=
  (initializeKvClient KeyVaultEndpoint GetServicePrincipalToken
     NewBearerAuthorizer AddToUserAgent).
Local Abbreviation fetchObject :=
  (GetKeyVaultObjectContent foldRunes KeyvaultName KeyVaultDNSSuffix
     KeyVaultEndpoint GetServicePrincipalToken NewBearerAuthorizer
     AddToUserAgent GetSecret GetKey GetCertificate MarshalPKIXPublicKey
     EncodeToMemory decodePKCS12').
Local Abbreviation vaultURL :=
  ("https://" +:+ KeyvaultName +:+ "." +:+ KeyVaultDNSSuffix +:+ "/").
Local Abbreviation mountObject' :=
  (mountObject foldRunes Separator IsAbs filepath_Join
     fetch os_WriteFile DriverWriteSecrets targetPath).
Local Abbreviation mountObjects' :=
  (mountObjects foldRunes Separator IsAbs filepath_Join
     fetch os_WriteFile DriverWriteSecrets targetPath).
Local Abbreviation UID o := (getObjectUID (ObjectName o) (ObjectType o)).

Hypothesis fetch_Returns :
  forall o a, fetch o = Ok a -> fetchObject o = Returns a.

Lemma mountObjects_fetched (keyVaultObjects : list KeyVaultObject)
  (st st' : mountState) :
  mountObjects' keyVaultObjects st = Ok st' ->
  Forall (fun o => exists a, fetchObject o = Returns a) keyVaultObjects.
Proof.
  revert st. induction keyVaultObjects as [|o os IH]; intros st;
    cbn [mountObjects]; [constructor|].
  destruct (mountObject _ _ _ _ _ _ _ _ o st) as [st1|] eqn:H1; [|discriminate].
  cbn [bind]. intros H2. constructor; [|eapply IH; eauto].
  apply mountObject_Ok in H1 as (content & version & bytes & HG & _).
  eauto.
Qed.

(** X19: The object types are checked by the fetch only, and by [==]: in a mount
    that succeeds every object has the type "secret", "key" or "cert" to the
    letter, so that two objects with one UID have one type and one name. *)
Theorem mountObjects_object_types (keyVaultObjects : list KeyVaultObject)
  (st st' : mountState) :
  mountObjects' keyVaultObjects st = Ok st' ->
  Forall (fun o => ObjectType o = "secret" \/ ObjectType o = "key" \/
                   ObjectType o = "cert") keyVaultObjects /\
  forall o1 o2, In o1 keyVaultObjects -> In o2 keyVaultObjects ->
                UID o1 = UID o2 ->
                ObjectType o1 = ObjectType o2 /\ ObjectName o1 = ObjectName o2.
Proof.
  intros H. apply mountObjects_fetched in H.
  assert (Ht : Forall (fun o => ObjectType o = "secret" \/ ObjectType o = "key" \/
                                ObjectType o = "cert") keyVaultObjects).
  { eapply Forall_impl; [exact H|]. cbn. intros o [a Ha].
    eapply GetKeyVaultObjectContent_types; eauto. }
  split; [exact Ht|]. intros o1 o2 H1 H2 E.
  rewrite Forall_forall in Ht.
  apply list_elem_of_In in H1, H2.
  pose proof (Ht _ H1) as T1. pose proof (Ht _ H2) as T2.
  unfold getObjectUID in E.
  apply (append_inj_no_sep _ _ _ _ "/"%char); trivial.
  - destruct T1 as [-> | [-> | ->]]; reflexivity.
  - destruct T2 as [-> | [-> | ->]]; reflexivity.
Qed.

(** X20: From the vault to the response, for a secret that no certificate backs:
    without encoding, or with "utf-8", the file holds the value of the
    secret; with "base64" or "hex" (in any letter case) it holds the bytes
    that the value encodes. *)
Theorem mountObjects_secret_content (before after : list KeyVaultObject)
  (o : KeyVaultObject) (st st' : mountState) :
  mountObjects' (before ++ o :: after) st = Ok st' ->
  DriverWriteSecrets = true ->
  Forall (fun o' => fileNameOf o' <> fileNameOf o) after ->
  ObjectType o = "secret" ->
  isASCII (ObjectEncoding o) ->
  exists kvClient secret value,
    client = Returns kvClient /\
    GetSecret kvClient vaultURL (ObjectName o) (ObjectVersion o) = Ok secret /\
    SecretValue secret = Some value /\
    (SecretKid secret = None \/ SecretKid secret = Some EmptyString ->
     (ObjectEncoding o = EmptyString \/
      EqualFold (ObjectEncoding o) "utf-8" = true ->
      files st' !! fileNameOf o = Some value) /\
     (forall payload,
        EqualFold (ObjectEncoding o) "base64" = true ->
        value = base64.EncodeToString payload ->
        files st' !! fileNameOf o = Some payload) /\
     (forall payload,
        EqualFold (ObjectEncoding o) "hex" = true ->
        value = hex.EncodeToString payload ->
        files st' !! fileNameOf o = Some payload)).
Proof.
  intros H HD Hafter Ht Hascii.
  apply mountObjects_split in H as (st0 & st1 & _ & H1 & H2).
  apply mountObjects_other in H2 as [Hf2 _]. rewrite (Hf2 _ Hafter).
  apply mountObject_Ok in H1 as (content & version & bytes & HG & Hb & _ & H1).
  rewrite HD in H1. destruct H1 as [-> _]. rewrite lookup_insert_eq.
  apply fetch_Returns in HG.
  apply GetKeyVaultObjectContent_secret in HG
    as (kvClient & secret & value & Hc & HS & Hval & Hplain); [|exact Ht].
  exists kvClient, secret, value. split; [exact Hc|].
  split; [exact HS|]. split; [exact Hval|].
  intros Hkid. apply Hplain in Hkid as ->. clear Hplain.
  rewrite Ht in Hb.
  assert (Hlen : forall t, isASCII t -> EqualFold (ObjectEncoding o) t = true ->
                           String.length (ObjectEncoding o) = String.length t)
    by (intros t; now apply EqualFold_ascii_length).
  assert (A1 : isASCII "utf-8") by (repeat constructor).
  assert (A2 : isASCII "base64") by (repeat constructor).
  assert (A3 : isASCII "hex") by (repeat constructor).
  split; [|split].
  - intros Henc. rewrite (getContentBytes_unchanged foldRunes) in Hb by auto.
    congruence.
  - intros payload Henc ->. revert Hb. unfold getContentBytes.
    change (EqualFold "secret" VaultObjectTypeSecret) with true. cbn [negb orb].
    pose proof (Hlen _ A2 Henc) as L.
    destruct (Nat.eqb_spec (String.length (ObjectEncoding o)) 0);
      [cbn in L; lia|].
    destruct (EqualFold (ObjectEncoding o) objectEncodingUtf8) eqn:E8.
    { apply (Hlen _ A1) in E8. cbn in E8, L. lia. }
    change objectEncodingBase64 with "base64". rewrite Henc.
    rewrite base64_facts.base64_DecodeString_EncodeToString. 
    cbv beta iota delta [orb]. congruence.
  - intros payload Henc ->. revert Hb. unfold getContentBytes.
    change (EqualFold "secret" VaultObjectTypeSecret) with true. cbn [negb orb].
    pose proof (Hlen _ A3 Henc) as L.
    destruct (Nat.eqb_spec (String.length (ObjectEncoding o)) 0);
      [cbn in L; lia|].
    destruct (EqualFold (ObjectEncoding o) objectEncodingUtf8) eqn:E8.
    { apply (Hlen _ A1) in E8. cbn in E8, L. lia. }
    destruct (EqualFold (ObjectEncoding o) objectEncodingBase64) eqn:E64.
    { apply (Hlen _ A2) in E64. cbn in E64, L. lia. }
    change objectEncodingHex with "hex". rewrite Henc.
    rewrite hex_facts.hex_DecodeString_EncodeToString. 
    cbv beta iota delta [orb]. congruence.
Qed.

(** X21: From the vault to the response, for a key and for a certificate: the
    file holds the PEM block "PUBLIC KEY" of the key's public key, and the
    PEM block "CERTIFICATE" of the certificate's DER bytes. *)
Theorem mountObjects_key_cert_content (before after : list KeyVaultObject)
  (o : KeyVaultObject) (st st' : mountState) :
  mountObjects' (before ++ o :: after) st = Ok st' ->
  DriverWriteSecrets = true ->
  Forall (fun o' => fileNameOf o' <> fileNameOf o) after ->
  (ObjectType o = "key" ->
   exists kvClient keybundle key pKey derBytes,
     client = Returns kvClient /\
     GetKey kvClient vaultURL (ObjectName o) (ObjectVersion o) = Ok keybundle /\
     BundleKey keybundle = Some key /\
     getPublicKey key = Returns pKey /\
     MarshalPKIXPublicKey pKey = Ok derBytes /\
     files st' !! fileNameOf o
     = Some (EncodeToMemory {| Type' := "PUBLIC KEY"; Headers := ∅;
                               Bytes := derBytes |})) /\
  (ObjectType o = "cert" ->
   exists kvClient certbundle cer,
     client = Returns kvClient /\
     GetCertificate kvClient vaultURL (ObjectName o) (ObjectVersion o)
     = Ok certbundle /\
     BundleCer certbundle = Some cer /\
     files st' !! fileNameOf o
     = Some (EncodeToMemory {| Type' := "CERTIFICATE"; Headers := ∅;
                               Bytes := cer |})).
Proof.
  intros H HD Hafter.
  apply mountObjects_split in H as (st0 & st1 & _ & H1 & H2).
  apply mountObjects_other in H2 as [Hf2 _]. rewrite (Hf2 _ Hafter).
  apply mountObject_Ok in H1 as (content & version & bytes & HG & Hb & _ & H1).
  rewrite HD in H1. destruct H1 as [-> _]. rewrite lookup_insert_eq.
  apply fetch_Returns in HG. split; intros Ht; rewrite Ht in Hb.
  - apply GetKeyVaultObjectContent_key in HG
      as (kvClient & keybundle & key & pKey & derBytes
          & Hc & HK & Hkey & Hp & Hm & ->); [|exact Ht].
    destruct (getContentBytes_key_cert foldRunes
                (EncodeToMemory (publicKeyBlock derBytes)) (ObjectEncoding o))
      as [E _].
    change VaultObjectTypeKey with "key" in E. rewrite E in Hb.
    injection Hb as <-. exists kvClient, keybundle, key, pKey, derBytes.
    repeat split; trivial.
  - apply GetKeyVaultObjectContent_cert in HG
      as (kvClient & certbundle & cer & Hc & HC & Hcer & ->); [|exact Ht].
    destruct (getContentBytes_key_cert foldRunes
                (EncodeToMemory {| Type' := "CERTIFICATE"; Headers := ∅;
                                   Bytes := cer |}) (ObjectEncoding o))
      as [_ E].
    change VaultObjectTypeCertificate with "cert" in E. rewrite E in Hb.
    injection Hb as <-. exists kvClient, certbundle, cer.
    repeat split; trivial.
Qed.
End MountFetchFacts.

(** ** The container extractor: two ways to fail *)

Section ExtractorEdges.
Variables rsaPrivateKey anyPrivateKey ecdsaPrivateKey : Type.
Variable ParsePKCS1 : string -> option rsaPrivateKey.
Variable ParsePKCS8 : string -> option anyPrivateKey.
Variable ParseEC : string -> option ecdsaPrivateKey.
Variable MarshalPKCS8 :
  privateKey rsaPrivateKey anyPrivateKey ecdsaPrivateKey -> result string.
Variable ToPEM : string -> string -> result (list Block).
Variable Decode : string -> option (Block * string).
Variable ParseCertificate : string -> result (option Certificate).
Variable EncodeToMemory : Block -> string.

Local Abbreviation decodePKCS12' :=
  (decodePKCS12 ParsePKCS1 ParsePKCS8 ParseEC MarshalPKCS8 ToPEM Decode
     ParseCertificate EncodeToMemory).
Local Abbreviation splitBlocks' :=
  (splitBlocks ParsePKCS1 ParsePKCS8 ParseEC MarshalPKCS8 EncodeToMemory).

Lemma filter_isCertificate_none (pemBlock : list Block) :
  Forall (fun b => isCertificate b = false) pemBlock ->
  List.filter isCertificate pemBlock = [].
Proof.
  induction 1 as [|b rest Hb _ IH]; [reflexivity|].
  cbn [List.filter]. now rewrite Hb.
Qed.

(** X22: A container without certificate that is extracted with
    [construct-pem-chain] off fails with "no leaf found" with the flag on:
    [fetchCertChains] is called on the empty certificate stream. *)
Theorem decodePKCS12_chain_without_certificate (value pfxRaw out : string)
  (pemBlock : list Block) :
  base64.DecodeString value = Ok pfxRaw ->
  ToPEM pfxRaw EmptyString = Ok pemBlock ->
  Forall (fun b => isCertificate b = false) pemBlock ->
  Decode EmptyString = None ->
  decodePKCS12' false value = Some (Ok out) ->
  decodePKCS12' true value = Some (Err ErrNoLeafFound).
Proof.
  intros Hv Hp Hnone HD. unfold decodePKCS12. rewrite Hv, Hp.
  destruct (splitBlocks _ _ _ _ _ pemBlock EmptyString EmptyString)
    as [[keys certs]|] eqn:Hs; [|discriminate].
  intros _.
  apply splitBlocks_streams in Hs as (keyBlocks & _ & _ & ->).
  rewrite (filter_isCertificate_none _ Hnone).
  cbn [map encodeBlocks]. change (EmptyString +:+ EmptyString) with EmptyString.
  unfold fetchCertChains. cbn [String.length parseNodes]. rewrite HD.
  reflexivity.
Qed.

Lemma splitBlocks_unparseable (pemBlock : list Block) (b : Block)
  (pemKeyData pemCertData : string) (e : error) :
  In b pemBlock -> isCertificate b = false ->
  parsePrivateKey ParsePKCS1 ParsePKCS8 ParseEC (Bytes b) = Err e ->
  exists e', splitBlocks' pemBlock pemKeyData pemCertData = Err e'.
Proof.
  intros Hin Hb He. revert pemKeyData pemCertData.
  induction pemBlock as [|b0 rest IH]; intros kd cd; [destruct Hin|].
  cbn [splitBlocks]. destruct Hin as [-> | Hin].
  - change (String.eqb (Type' (clearHeaders b)) certificateType)
      with (isCertificate b).
    rewrite Hb. change (Bytes (clearHeaders b)) with (Bytes b).
    rewrite He. cbn [bind]. eauto.
  - destruct (String.eqb _ _); [now apply IH|].
    destruct (parsePrivateKey _ _ _ (Bytes (clearHeaders b0))) as [key|];
      cbn [bind]; [|eauto].
    destruct (MarshalPKCS8 key); cbn [bind]; [now apply IH|eauto].
Qed.

(** X23: A key block that none of the three parsers reads fails the whole
    extraction, wherever it stands in the container and whatever the flag:
    no part of the container is returned. *)
Theorem decodePKCS12_unparseable_key (value pfxRaw : string)
  (pemBlock : list Block) (b : Block) (ConstructPEMChain : bool) :
  base64.DecodeString value = Ok pfxRaw ->
  ToPEM pfxRaw EmptyString = Ok pemBlock ->
  In b pemBlock -> isCertificate b = false ->
  ParsePKCS1 (Bytes b) = None -> ParsePKCS8 (Bytes b) = None ->
  ParseEC (Bytes b) = None ->
  exists e, decodePKCS12' ConstructPEMChain value = Some (Err e).
Proof.
  intros Hv Hp Hin Hb H1 H8 HE. unfold decodePKCS12. rewrite Hv, Hp.
  destruct (splitBlocks_unparseable pemBlock b EmptyString EmptyString
              ErrParseKey Hin Hb) as [e' ->]; [|eauto].
  unfold parsePrivateKey. now rewrite H1, H8, HE.
Qed.
End ExtractorEdges.

(** ** The properties on the vault [kv-demo] *)

Lemma Vault_mount_returned :
  Vault.mount true [Vault.password; Vault.signing; Vault.tls] Vault.unmounted
  = Ok Vault.returned.
Proof. vm_compute. reflexivity. Qed.

Lemma Vault_mount_onDisk :
  Vault.mount false [Vault.password; Vault.signing; Vault.tls] Vault.unmounted
  = Ok Vault.onDisk.
Proof. vm_compute. reflexivity. Qed.

Lemma Vault_fetch_Returns (o : KeyVaultObject) (a : string * string) :
  Vault.fetch o = Ok a -> Vault.fetchObject o = Returns a.
Proof.
  unfold Vault.fetch. destruct (Vault.fetchObject o); congruence.
Qed.

Lemma mountObjects_response_or_files_witness :
  files Vault.onDisk = files Vault.unmounted /\
  (written Vault.onDisk).*1
  = rev ((fun o => Vault.Join "/mnt/secrets-store" (fileNameOf o))
           <$> [Vault.password; Vault.signing; Vault.tls])
    ++ (written Vault.unmounted).*1.
Proof.
  exact (mountObjects_response_or_files Vault.foldRunes "/"%char Vault.IsAbs
           Vault.Join Vault.fetch Vault.WriteFile false "/mnt/secrets-store"
           [Vault.password; Vault.signing; Vault.tls]
           Vault.unmounted Vault.onDisk Vault_mount_onDisk).
Defined.

Lemma mountObjects_versions_dom_witness :
  dom (objectVersionMap Vault.returned)
  = dom (objectVersionMap Vault.unmounted)
    ∪ list_to_set ((fun o => getObjectUID (ObjectName o) (ObjectType o))
                     <$> [Vault.password; Vault.signing; Vault.tls]).
Proof.
  exact (mountObjects_versions_dom Vault.foldRunes "/"%char Vault.IsAbs
           Vault.Join Vault.fetch Vault.WriteFile true "/mnt/secrets-store"
           [Vault.password; Vault.signing; Vault.tls]
           Vault.unmounted Vault.returned Vault_mount_returned).
Defined.

Lemma mountObjects_last_wins_witness :
  exists content version bytes,
    Vault.fetch Vault.signing = Ok (content, version) /\
    getContentBytes Vault.foldRunes content (ObjectType Vault.signing)
      (ObjectEncoding Vault.signing) = Ok bytes /\
    (Forall (fun o' => getObjectUID (ObjectName o') (ObjectType o')
                       <> getObjectUID (ObjectName Vault.signing)
                            (ObjectType Vault.signing)) [Vault.tls] ->
     objectVersionMap Vault.returned
       !! getObjectUID (ObjectName Vault.signing) (ObjectType Vault.signing)
     = Some version) /\
    (true = true ->
     Forall (fun o' => fileNameOf o' <> fileNameOf Vault.signing) [Vault.tls] ->
     files Vault.returned !! fileNameOf Vault.signing = Some bytes).
Proof.
  exact (mountObjects_last_wins Vault.foldRunes "/"%char Vault.IsAbs
           Vault.Join Vault.fetch Vault.WriteFile true "/mnt/secrets-store"
           [Vault.password] [Vault.tls] Vault.signing
           Vault.unmounted Vault.returned Vault_mount_returned).
Defined.

Lemma getPublicKey_RSA_witness :
  getPublicKey Vault.signingKey
  = Returns (RSAPublicKey (big.SetBytes Vault.modulus)
               (big.SetBytes Vault.exponent)).
Proof.
  apply getPublicKey_RSA.
  - left. reflexivity.
  - reflexivity.
  - reflexivity.
  - vm_compute. reflexivity.
Defined.

Lemma getPublicKey_EC_witness :
  getPublicKey Vault.agreementKey
  = Returns (ECDSAPublicKey P384 (big.SetBytes Vault.pointX)
               (big.SetBytes Vault.pointY)).
Proof.
  apply getPublicKey_EC.
  - right. reflexivity.
  - reflexivity.
  - reflexivity.
  - right. left. reflexivity.
Defined.

Lemma GetKeyVaultObjectContent_version_witness :
  strings.Contains "9a2e" "/" = false /\
  exists kvClient id,
    initializeKvClient Vault.KeyVaultEndpoint Vault.GetServicePrincipalToken
      Vault.NewBearerAuthorizer (Ok tt) = Returns kvClient /\
    "9a2e" = getObjectVersion id /\
    ((ObjectType Vault.signing = "secret" /\
      exists secret,
        Vault.GetSecret kvClient
          ("https://" +:+ "kv-demo" +:+ "." +:+ "vault.azure.net" +:+ "/")
          (ObjectName Vault.signing) (ObjectVersion Vault.signing) = Ok secret /\
        SecretID secret = Some id) \/
     (ObjectType Vault.signing = "key" /\
      exists keybundle key,
        Vault.GetKey kvClient
          ("https://" +:+ "kv-demo" +:+ "." +:+ "vault.azure.net" +:+ "/")
          (ObjectName Vault.signing) (ObjectVersion Vault.signing) = Ok keybundle /\
        BundleKey keybundle = Some key /\ KeyKid key = Some id) \/
     (ObjectType Vault.signing = "cert" /\
      exists certbundle,
        Vault.GetCertificate kvClient
          ("https://" +:+ "kv-demo" +:+ "." +:+ "vault.azure.net" +:+ "/")
          (ObjectName Vault.signing) (ObjectVersion Vault.signing) = Ok certbundle /\
        CertificateID certbundle = Some id)).
Proof.
  apply (GetKeyVaultObjectContent_version Vault.foldRunes "kv-demo"
           "vault.azure.net" _ _ Vault.KeyVaultEndpoint
           Vault.GetServicePrincipalToken Vault.NewBearerAuthorizer (Ok tt)
           Vault.GetSecret Vault.GetKey
           Vault.GetCertificate Vault.MarshalPKIXPublicKey
           Container.EncodeToMemory (Container.decode false)
           Vault.signing Vault.publicKeyPEM "9a2e").
  vm_compute. reflexivity.
Defined.


Lemma mountObjects_object_types_witness :
  Forall (fun o => ObjectType o = "secret" \/ ObjectType o = "key" \/
                   ObjectType o = "cert")
    [Vault.password; Vault.signing; Vault.tls] /\
  forall o1 o2,
    In o1 [Vault.password; Vault.signing; Vault.tls] ->
    In o2 [Vault.password; Vault.signing; Vault.tls] ->
    getObjectUID (ObjectName o1) (ObjectType o1)
    = getObjectUID (ObjectName o2) (ObjectType o2) ->
    ObjectType o1 = ObjectType o2 /\ ObjectName o1 = ObjectName o2.
Proof.
  exact (mountObjects_object_types Vault.foldRunes "/"%char Vault.IsAbs
           Vault.Join Vault.WriteFile true "/mnt/secrets-store"
           "kv-demo" "vault.azure.net" _ _ Vault.KeyVaultEndpoint
           Vault.GetServicePrincipalToken Vault.NewBearerAuthorizer (Ok tt)
           Vault.GetSecret Vault.GetKey
           Vault.GetCertificate Vault.MarshalPKIXPublicKey
           Container.EncodeToMemory (Container.decode false) Vault.fetch
           Vault_fetch_Returns [Vault.password; Vault.signing; Vault.tls]
           Vault.unmounted Vault.returned Vault_mount_returned).
Defined.

Lemma mountObjects_secret_content_witness :
  exists kvClient secret value,
    initializeKvClient Vault.KeyVaultEndpoint Vault.GetServicePrincipalToken
      Vault.NewBearerAuthorizer (Ok tt) = Returns kvClient /\
    Vault.GetSecret kvClient
      ("https://" +:+ "kv-demo" +:+ "." +:+ "vault.azure.net" +:+ "/")
      (ObjectName Vault.password) (ObjectVersion Vault.password) = Ok secret /\
    SecretValue secret = Some value /\
    (SecretKid secret = None \/ SecretKid secret = Some EmptyString ->
     (ObjectEncoding Vault.password = EmptyString \/
      strings.EqualFold Vault.foldRunes (ObjectEncoding Vault.password) "utf-8"
      = true ->
      files Vault.returned !! fileNameOf Vault.password = Some value) /\
     (forall payload,
        strings.EqualFold Vault.foldRunes (ObjectEncoding Vault.password)
          "base64" = true ->
        value = base64.EncodeToString payload ->
        files Vault.returned !! fileNameOf Vault.password = Some payload) /\
     (forall payload,
        strings.EqualFold Vault.foldRunes (ObjectEncoding Vault.password) "hex"
        = true ->
        value = hex.EncodeToString payload ->
        files Vault.returned !! fileNameOf Vault.password = Some payload)).
Proof.
  apply (mountObjects_secret_content Vault.foldRunes "/"%char Vault.IsAbs
           Vault.Join Vault.WriteFile true "/mnt/secrets-store"
           "kv-demo" "vault.azure.net" _ _ Vault.KeyVaultEndpoint
           Vault.GetServicePrincipalToken Vault.NewBearerAuthorizer (Ok tt)
           Vault.GetSecret Vault.GetKey
           Vault.GetCertificate Vault.MarshalPKIXPublicKey
           Container.EncodeToMemory (Container.decode false) Vault.fetch
           Vault_fetch_Returns [] [Vault.signing; Vault.tls] Vault.password
           Vault.unmounted Vault.returned Vault_mount_returned).
  - reflexivity.
  - repeat constructor; discriminate.
  - reflexivity.
  - repeat constructor.
Defined.

Lemma mountObjects_key_cert_content_witness :
  (ObjectType Vault.signing = "key" ->
   exists kvClient keybundle key pKey derBytes,
     initializeKvClient Vault.KeyVaultEndpoint Vault.GetServicePrincipalToken
       Vault.NewBearerAuthorizer (Ok tt) = Returns kvClient /\
     Vault.GetKey kvClient
       ("https://" +:+ "kv-demo" +:+ "." +:+ "vault.azure.net" +:+ "/")
       (ObjectName Vault.signing) (ObjectVersion Vault.signing) = Ok keybundle /\
     BundleKey keybundle = Some key /\
     getPublicKey key = Returns pKey /\
     Vault.MarshalPKIXPublicKey pKey = Ok derBytes /\
     files Vault.returned !! fileNameOf Vault.signing
     = Some (Container.EncodeToMemory
               {| Type' := "PUBLIC KEY"; Headers := ∅; Bytes := derBytes |})) /\
  (ObjectType Vault.signing = "cert" ->
   exists kvClient certbundle cer,
     initializeKvClient Vault.KeyVaultEndpoint Vault.GetServicePrincipalToken
       Vault.NewBearerAuthorizer (Ok tt) = Returns kvClient /\
     Vault.GetCertificate kvClient
       ("https://" +:+ "kv-demo" +:+ "." +:+ "vault.azure.net" +:+ "/")
       (ObjectName Vault.signing) (ObjectVersion Vault.signing) = Ok certbundle /\
     BundleCer certbundle = Some cer /\
     files Vault.returned !! fileNameOf Vault.signing
     = Some (Container.EncodeToMemory
               {| Type' := "CERTIFICATE"; Headers := ∅; Bytes := cer |})).
Proof.
  apply (mountObjects_key_cert_content Vault.foldRunes "/"%char Vault.IsAbs
           Vault.Join Vault.WriteFile true "/mnt/secrets-store"
           "kv-demo" "vault.azure.net" _ _ Vault.KeyVaultEndpoint
           Vault.GetServicePrincipalToken Vault.NewBearerAuthorizer (Ok tt)
           Vault.GetSecret Vault.GetKey
           Vault.GetCertificate Vault.MarshalPKIXPublicKey
           Container.EncodeToMemory (Container.decode false) Vault.fetch
           Vault_fetch_Returns [Vault.password] [Vault.tls] Vault.signing
           Vault.unmounted Vault.returned Vault_mount_returned).
  - reflexivity.
  - repeat constructor; discriminate.
Defined.

Lemma mountObjects_no_rollback_witness :
  Vault.mount false [Vault.password; Vault.signing; Vault.missing; Vault.tls]
    Vault.unmounted
  = Err (ErrLibrary "failed to get the object") /\
  exists before o after,
    [Vault.password; Vault.signing; Vault.missing; Vault.tls]
    = before ++ o :: after /\
    mountObject Vault.foldRunes "/"%char Vault.IsAbs Vault.Join Vault.fetch
      Vault.WriteFile false "/mnt/secrets-store" o Vault.halfway
    = Err (ErrLibrary "failed to get the object") /\
    (written Vault.halfway).*1
    = rev ((fun o' => Vault.Join "/mnt/secrets-store" (fileNameOf o'))
             <$> before)
      ++ (written Vault.unmounted).*1.
Proof.
  apply (mountObjects_no_rollback Vault.foldRunes "/"%char Vault.IsAbs
           Vault.Join Vault.fetch Vault.WriteFile "/mnt/secrets-store").
  vm_compute. reflexivity.
Defined.

(** ** The properties on the two containers *)

Lemma decodePKCS12_chain_without_certificate_witness :
  Containers.extract true Containers.valueKeyOnly = Some (Err ErrNoLeafFound).
Proof.
  apply (decodePKCS12_chain_without_certificate _ _ _
           Container.ParsePKCS1PrivateKey Container.ParsePKCS8PrivateKey
           Container.ParseECPrivateKey Container.MarshalPKCS8PrivateKey
           Containers.ToPEMBoth Container.Decode Container.ParseCertificate
           Container.EncodeToMemory Containers.valueKeyOnly Containers.pfxKeyOnly
           (Container.EncodeToMemory Container.pkcs8Block)
           [Container.keyBlock]).
  - vm_compute. reflexivity.
  - reflexivity.
  - repeat constructor.
  - reflexivity.
  - vm_compute. reflexivity.
Defined.

Lemma decodePKCS12_unparseable_key_witness :
  exists e, Containers.extract false Containers.valueBadKey = Some (Err e).
Proof.
  apply (decodePKCS12_unparseable_key _ _ _
           Container.ParsePKCS1PrivateKey Container.ParsePKCS8PrivateKey
           Container.ParseECPrivateKey Container.MarshalPKCS8PrivateKey
           Containers.ToPEMBoth Container.Decode Container.ParseCertificate
           Container.EncodeToMemory Containers.valueBadKey Containers.pfxBadKey
           [Container.blockX; Containers.badKeyBlock] Containers.badKeyBlock false).
  - vm_compute. reflexivity.
  - reflexivity.
  - right. left. reflexivity.
  - reflexivity.
  - reflexivity.
  - reflexivity.
  - reflexivity.
Defined.
